(** * Codex Commit Push: commit-message generation pipeline and push gate

    A shallow embedding of the extension's core: the diff collector, the
    prompt builder, the Codex CLI client, the pending-state registry, the
    commit-event gate and the orchestrator, followed by the properties the
    specification states about them.

    JavaScript strings are sequences of UTF-16 code units; they are modelled
    as [list N].  Asynchronous functions are modelled by their synchronous
    segments: every [await] is a point where the environment hands a result
    back, and other handlers may run in between. *)

From Stdlib Require Import ZArith NArith String Ascii List Bool Lia.
From Stdlib Require DecimalString.
From stdpp Require Import base option list gmap.

Set Warnings "-register-all".

Import ListNotations.
Local Open Scope Z_scope.

(* ===================================================================== *)
(** * JavaScript strings and the built-ins the sources use *)
(* ===================================================================== *)

Module JS.

Abbreviation jsstring := (list N).

(** Literals of the sources, written as Rocq strings (ASCII only). *)
Fixpoint lit (s : string) : jsstring :=
  match s with
  | EmptyString => []
  | String c r => N_of_ascii c :: lit r
  end.

Definition dquote : jsstring := [34%N].
Definition newline : jsstring := [10%N].

(** [a === b] for two strings. *)
Definition streq (a b : jsstring) : bool := bool_decide (a = b).

(** [s.length] *)
Definition len (s : jsstring) : Z := Z.of_nat (length s).

(** [String(n)] for an integer [n]. *)
Definition String_of_Z (n : Z) : jsstring :=
  lit (DecimalString.NilZero.string_of_int (Z.to_int n)).

(** Truthiness of a string: [!s] is true exactly for the empty string. *)
Definition truthy (s : jsstring) : bool :=
  match s with [] => false | _ => true end.

(** WhiteSpace and LineTerminator code points, as [String.prototype.trim]
    strips them. *)
Definition isWhiteSpace (c : N) : bool :=
  ((9 <=? c) && (c <=? 13) || (c =? 32) || (c =? 160) || (c =? 5760)
   || ((8192 <=? c) && (c <=? 8202)) || (c =? 8232) || (c =? 8233)
   || (c =? 8239) || (c =? 8287) || (c =? 12288) || (c =? 65279))%N.

Fixpoint dropWhile (p : N -> bool) (s : jsstring) : jsstring :=
  match s with
  | [] => []
  | c :: r => if p c then dropWhile p r else s
  end.

Definition trimStart (s : jsstring) : jsstring := dropWhile isWhiteSpace s.
Definition trimEnd (s : jsstring) : jsstring :=
  rev (dropWhile isWhiteSpace (rev s)).

(** [s.trim()] *)
Definition trim (s : jsstring) : jsstring := trimEnd (trimStart s).

(** [s.slice(start, end)] for integer arguments. *)
Definition clampIndex (n : Z) (i : Z) : Z :=
  if i <? 0 then Z.max (n + i) 0 else Z.min i n.

Definition slice (s : jsstring) (from to : Z) : jsstring :=
  let n := len s in
  let a := clampIndex n from in
  let b := clampIndex n to in
  take (Z.to_nat (b - a)) (drop (Z.to_nat a) s).

(** [s.slice(start)] *)
Definition sliceFrom (s : jsstring) (from : Z) : jsstring :=
  slice s from (len s).

(** [s.split(/\r?\n/g)]: a line feed, together with the carriage return
    right before it when there is one, separates two pieces.  A carriage
    return that no line feed follows stays in its piece.  The result is
    never empty: the empty string splits into one empty piece. *)
Definition isLF (c : N) : bool := (c =? 10)%N.
Definition isCR (c : N) : bool := (c =? 13)%N.
Definition headIsLF (s : jsstring) : bool :=
  match s with c :: _ => isLF c | [] => false end.

Fixpoint splitLines (s : jsstring) : list jsstring :=
  match s with
  | [] => [[]]
  | c :: r =>
      if isLF c then [] :: splitLines r
      else if isCR c && headIsLF r then splitLines r
      else match splitLines r with
           | p :: ps => (c :: p) :: ps
           | [] => [[c]]
           end
  end.

(** [a.join(sep)] *)
Fixpoint join (sep : jsstring) (a : list jsstring) : jsstring :=
  match a with
  | [] => []
  | [x] => x
  | x :: r => x ++ sep ++ join sep r
  end.

(** [s.includes(needle)] *)
Fixpoint startsWith (s needle : jsstring) : bool :=
  match needle, s with
  | [], _ => true
  | _ :: _, [] => false
  | n :: ns, c :: r => (c =? n)%N && startsWith r ns
  end.

Fixpoint includes (s needle : jsstring) : bool :=
  startsWith s needle ||
  match s with
  | [] => false
  | _ :: r => includes r needle
  end.

(** The lower-case form of a letter A to Z; other code units as they
    are.  A regular expression with the flag [i] and ASCII letters only
    matches a code unit exactly when this function identifies them. *)
Definition asciiLower (c : N) : N :=
  if ((65 <=? c) && (c <=? 90))%N then (c + 32)%N else c.

(** [s.endsWith(suffix)] *)
Definition endsWith (s suffix : jsstring) : bool :=
  startsWith (rev s) (rev suffix).

(** [a.find(p)] *)
Fixpoint find {A} (p : A -> bool) (a : list A) : option A :=
  match a with
  | [] => None
  | x :: r => if p x then Some x else find p r
  end.

(** [a.pop()]: the last element (when there is one) and the array
    without it. *)
Fixpoint pop {A} (a : list A) : option A * list A :=
  match a with
  | [] => (None, [])
  | [x] => (Some x, [])
  | x :: r => let '(l, r') := pop r in (l, x :: r')
  end.

End JS.

Import JS.

(** Results of operations that may throw or reject. *)
Inductive result (E A : Type) : Type :=
| Ok (a : A)
| Err (e : E).
Arguments Ok {E A} a.
Arguments Err {E A} e.

(* ===================================================================== *)
(** * Diff collector (diffCollector.ts) *)
(* ===================================================================== *)

Module DiffCollector.

Record DiffCollectResult := {
  diffText : jsstring;
  trackedDiff : jsstring;
  untrackedFiles : list jsstring;
  wasTruncated : bool
}.

(** The marker appended to a cut text: two line feeds and [[TRUNCATED]]. *)
Definition truncationMarker : jsstring :=
  newline ++ newline ++ lit "[TRUNCATED]".

(** [truncateDiffText]; the returned object [{ text, wasTruncated }] is
    the pair of its two fields. *)
Definition truncateDiffText (diffText : jsstring) (maxChars : Z)
  : jsstring * bool :=
  if len diffText <=? maxChars then (diffText, false)
  else (slice diffText 0 maxChars ++ truncationMarker, true).

(** What the git subprocess answers for an argument list: its standard
    output, or the message of the error it fails with. *)
Definition GitOracle := list jsstring -> result jsstring jsstring.

Inductive LogLine :=
| LogDiffHeadFailed (message : jsstring)
| LogUntrackedFailed (message : jsstring).

Section Collect.
Variable runGit : GitOracle.

Definition getTrackedDiff : list LogLine * result jsstring jsstring :=
  match runGit [lit "diff"; lit "HEAD"; lit "--"] with
  | Ok out => ([], Ok out)
  | Err e => ([LogDiffHeadFailed e], runGit [lit "diff"; lit "--"])
  end.

Definition getUntrackedFiles : result jsstring (list jsstring) :=
  match runGit [lit "ls-files"; lit "--others"; lit "--exclude-standard"] with
  | Ok stdout =>
      Ok (List.filter (fun line => 0 <? len line)
            (map trim (splitLines stdout)))
  | Err e => Err e
  end.

(** The sections of the composed text and their joining. *)
Definition sections (trackedDiff : jsstring) (untrackedFiles : list jsstring)
  : list jsstring :=
  (if 0 <? len (trim trackedDiff)
   then [lit "## Tracked Diff" ++ newline ++ trim trackedDiff] else [])
  ++
  (if 0 <? Z.of_nat (length untrackedFiles)
   then [lit "## Untracked Files" ++ newline ++
         join newline (map (fun file => lit "- " ++ file) untrackedFiles)]
   else []).

Definition compose (trackedDiff : jsstring) (untrackedFiles : list jsstring)
  : jsstring :=
  join (newline ++ newline) (sections trackedDiff untrackedFiles).

(** The part of [collectDiffForPrompt] after the git calls. *)
Definition buildResult (trackedDiff : jsstring) (untrackedFiles : list jsstring)
  (maxChars : Z) : DiffCollectResult :=
  let combined := compose trackedDiff untrackedFiles in
  if negb (truthy combined) then
    {| diffText := []; trackedDiff := trackedDiff;
       untrackedFiles := untrackedFiles; wasTruncated := false |}
  else
    let '(text, cut) := truncateDiffText combined maxChars in
    {| diffText := text; trackedDiff := trackedDiff;
       untrackedFiles := untrackedFiles; wasTruncated := cut |}.

Definition collectDiffForPrompt (includeUntracked : bool) (maxChars : Z)
  : list LogLine * result jsstring DiffCollectResult :=
  match getTrackedDiff with
  | (log, Err e) => (log, Err e)
  | (log, Ok tracked) =>
      let '(log', untracked) :=
        if includeUntracked then
          match getUntrackedFiles with
          | Ok files => ([], files)
          | Err e => ([LogUntrackedFailed e], [])
          end
        else ([], []) in
      (log ++ log', Ok (buildResult tracked untracked maxChars))
  end.
End Collect.

End DiffCollector.

(* ===================================================================== *)
(** * JSON values and [JSON.parse] *)
(* ===================================================================== *)

Module JSON.

(** A parsed JSON text.  Numbers keep their lexeme: the client never
    looks at a number's value. *)
Inductive value :=
| Null
| Bool (b : bool)
| Number (lexeme : jsstring)
| Str (s : jsstring)
| Array (items : list value)
| Object (members : list (jsstring * value)).

(** Own property of an object by name; of duplicate members the last one
    wins, as [JSON.parse] defines properties in the order of the text. *)
Fixpoint lookup (key : jsstring) (ms : list (jsstring * value)) : option value :=
  match ms with
  | [] => None
  | (k, v) :: r =>
      match lookup key r with
      | Some w => Some w
      | None => if streq k key then Some v else None
      end
  end.

(** [v.key] for a value that is not [null]: [None] is [undefined].  The
    names read by the client ([type], [item], [text]) are properties of
    objects only. *)
Definition get (v : value) (key : jsstring) : option value :=
  match v with
  | Object ms => lookup key ms
  | _ => None
  end.

Definition isWs (c : N) : bool :=
  ((c =? 32) || (c =? 9) || (c =? 10) || (c =? 13))%N.

Definition skipWs (s : jsstring) : jsstring := dropWhile isWs s.

Definition isDigit (c : N) : bool := ((48 <=? c) && (c <=? 57))%N.

Definition hexDigit (c : N) : option N :=
  if isDigit c then Some (c - 48)%N
  else if ((97 <=? c) && (c <=? 102))%N then Some (c - 87)%N
  else if ((65 <=? c) && (c <=? 70))%N then Some (c - 55)%N
  else None.

(** The characters of a string literal after its opening quote. *)
Fixpoint parseChars (s : jsstring) : option (jsstring * jsstring) :=
  match s with
  | [] => None
  | c :: r =>
      if (c =? 34)%N then Some ([], r)
      else if (c <? 32)%N then None
      else if (c =? 92)%N then
        match r with
        | e :: r1 =>
            let simple (u : N) :=
              match parseChars r1 with
              | Some (cs, rest) => Some (u :: cs, rest)
              | None => None
              end in
            if (e =? 34)%N then simple 34%N
            else if (e =? 92)%N then simple 92%N
            else if (e =? 47)%N then simple 47%N
            else if (e =? 98)%N then simple 8%N
            else if (e =? 102)%N then simple 12%N
            else if (e =? 110)%N then simple 10%N
            else if (e =? 114)%N then simple 13%N
            else if (e =? 116)%N then simple 9%N
            else if (e =? 117)%N then
              match r1 with
              | h1 :: h2 :: h3 :: h4 :: r2 =>
                  match hexDigit h1, hexDigit h2, hexDigit h3, hexDigit h4 with
                  | Some a, Some b, Some c', Some d =>
                      match parseChars r2 with
                      | Some (cs, rest) =>
                          Some ((a * 4096 + b * 256 + c' * 16 + d)%N :: cs, rest)
                      | None => None
                      end
                  | _, _, _, _ => None
                  end
              | _ => None
              end
            else None
        | [] => None
        end
      else
        match parseChars r with
        | Some (cs, rest) => Some (c :: cs, rest)
        | None => None
        end
  end.

Fixpoint spanDigits (s : jsstring) : jsstring * jsstring :=
  match s with
  | c :: r =>
      if isDigit c then let '(ds, rest) := spanDigits r in (c :: ds, rest)
      else ([], s)
  | [] => ([], [])
  end.

(** A number: an optional minus sign, an integer part without a leading
    zero, an optional fraction and an optional exponent. *)
Definition parseNumber (s : jsstring) : option (jsstring * jsstring) :=
  let '(sign, s1) :=
    match s with
    | c :: r => if (c =? 45)%N then ([c], r) else ([], s)
    | [] => ([], s)
    end in
  let intPart :=
    match s1 with
    | c :: r =>
        if (c =? 48)%N then Some ([c], r)
        else if isDigit c then Some (spanDigits s1)
        else None
    | [] => None
    end in
  match intPart with
  | None => None
  | Some (ip, s2) =>
      let frac :=
        match s2 with
        | c :: r =>
            if (c =? 46)%N then
              match spanDigits r with
              | ([], _) => None
              | (ds, rest) => Some (c :: ds, rest)
              end
            else Some ([], s2)
        | [] => Some ([], s2)
        end in
      match frac with
      | None => None
      | Some (fp, s3) =>
          let expo :=
            match s3 with
            | c :: r =>
                if ((c =? 101) || (c =? 69))%N then
                  let '(sg, r1) :=
                    match r with
                    | d :: r' =>
                        if ((d =? 43) || (d =? 45))%N then ([d], r') else ([], r)
                    | [] => ([], r)
                    end in
                  match spanDigits r1 with
                  | ([], _) => None
                  | (ds, rest) => Some (c :: sg ++ ds, rest)
                  end
                else Some ([], s3)
            | [] => Some ([], s3)
            end in
          match expo with
          | None => None
          | Some (ep, s4) => Some (sign ++ ip ++ fp ++ ep, s4)
          end
      end
  end.

Definition stripPrefix (p s : jsstring) : option jsstring :=
  if startsWith s p then Some (drop (length p) s) else None.

(** Recursive descent, bounded by [fuel]; [parse] gives it more than any
    nesting of the text can use. *)
Fixpoint parseValue (fuel : nat) (s : jsstring) : option (value * jsstring) :=
  match fuel with
  | O => None
  | S f =>
      match skipWs s with
      | [] => None
      | c :: r =>
          if (c =? 123)%N then
            match skipWs r with
            | 125%N :: r' => Some (Object [], r')
            | r1 =>
                match parseMembers f r1 with
                | Some (ms, rest) => Some (Object ms, rest)
                | None => None
                end
            end
          else if (c =? 91)%N then
            match skipWs r with
            | 93%N :: r' => Some (Array [], r')
            | r1 =>
                match parseElements f r1 with
                | Some (vs, rest) => Some (Array vs, rest)
                | None => None
                end
            end
          else if (c =? 34)%N then
            match parseChars r with
            | Some (cs, rest) => Some (Str cs, rest)
            | None => None
            end
          else
            match stripPrefix (lit "null") (c :: r),
                  stripPrefix (lit "true") (c :: r),
                  stripPrefix (lit "false") (c :: r) with
            | Some rest, _, _ => Some (Null, rest)
            | _, Some rest, _ => Some (Bool true, rest)
            | _, _, Some rest => Some (Bool false, rest)
            | _, _, _ =>
                match parseNumber (c :: r) with
                | Some (lx, rest) => Some (Number lx, rest)
                | None => None
                end
            end
      end
  end
with parseElements (fuel : nat) (s : jsstring) : option (list value * jsstring) :=
  match fuel with
  | O => None
  | S f =>
      match parseValue f s with
      | None => None
      | Some (v, r) =>
          match skipWs r with
          | 93%N :: r' => Some ([v], r')
          | 44%N :: r' =>
              match parseElements f r' with
              | Some (vs, rest) => Some (v :: vs, rest)
              | None => None
              end
          | _ => None
          end
      end
  end
with parseMembers (fuel : nat) (s : jsstring)
  : option (list (jsstring * value) * jsstring) :=
  match fuel with
  | O => None
  | S f =>
      match skipWs s with
      | 34%N :: r =>
          match parseChars r with
          | None => None
          | Some (k, r1) =>
              match skipWs r1 with
              | 58%N :: r2 =>
                  match parseValue f r2 with
                  | None => None
                  | Some (v, r3) =>
                      match skipWs r3 with
                      | 125%N :: r' => Some ([(k, v)], r')
                      | 44%N :: r' =>
                          match parseMembers f r' with
                          | Some (ms, rest) => Some ((k, v) :: ms, rest)
                          | None => None
                          end
                      | _ => None
                      end
                  end
              | _ => None
              end
          end
      | _ => None
      end
  end.

(** [JSON.parse(text)]: the value, or [None] where it throws a
    [SyntaxError]. *)
Definition parse (text : jsstring) : option value :=
  match parseValue (S (2 * length text)) text with
  | Some (v, rest) =>
      match skipWs rest with
      | [] => Some v
      | _ => None
      end
  | None => None
  end.

End JSON.

(* ===================================================================== *)
(** * Codex CLI client (codexCli.ts) *)
(* ===================================================================== *)

(** The two library functions the client calls on the subprocess output. *)
Record Builtins := {
  JSON_parse : jsstring -> option JSON.value;
  toLowerCase : jsstring -> jsstring
}.

(** The parts of the host the sources read: the platform, the functions
    of [path] and [fs] they call, and two environment variables.  A
    directory listing is the names of the entries, each with whether it is
    a directory, or [None] where [readdirSync] throws. *)
Record Host := {
  win32 : bool;
  pathNormalize : jsstring -> jsstring;
  pathJoin : list jsstring -> jsstring;
  isAbsolute : jsstring -> bool;
  existsSync : jsstring -> bool;
  readdirSync : jsstring -> option (list (jsstring * bool));
  envAPPDATA : option jsstring;
  envUSERPROFILE : option jsstring
}.

Module CodexCli.

Inductive ReasoningEffort := minimal | low | medium | high.

Definition effortName (e : ReasoningEffort) : jsstring :=
  match e with
  | minimal => lit "minimal"
  | low => lit "low"
  | medium => lit "medium"
  | high => lit "high"
  end.

Record CodexGenerateOptions := {
  commandPath : jsstring;
  model : jsstring;
  reasoningEffort : ReasoningEffort;
  prompt : jsstring;
  cwd : jsstring;
  timeoutMs : Z
}.

Inductive CodexCliErrorCode :=
| not_found
| timeout
| model_access
| process_failed
| parse_failed
| empty_response.

(** The argument list the child is spawned with. *)
Definition codexArgs (options : CodexGenerateOptions) : list jsstring :=
  [lit "exec"; lit "--json"; lit "-m"; model options; lit "-c";
   lit "model_reasoning_effort=" ++ dquote
     ++ effortName (reasoningEffort options) ++ dquote;
   prompt options].

Record CodexCliError := {
  code : CodexCliErrorCode;
  message : jsstring;
  details : option jsstring
}.

(** A value a promise is rejected with: a [CodexCliError], or any other
    error, known by its message. *)
Inductive Thrown :=
| Codex (e : CodexCliError)
| Other (message : jsstring).

(** An error of the process layer: its [code] (such as [ENOENT]) and its
    message. *)
Record Errno := {
  errnoCode : option jsstring;
  errnoMessage : jsstring
}.

Definition hasCode (e : Errno) (c : string) : bool :=
  match errnoCode e with
  | Some x => streq x (lit c)
  | None => false
  end.

(** [tail] *)
Definition tail (text : jsstring) (maxChars : Z) : jsstring :=
  if len text <=? maxChars then text
  else sliceFrom text (len text - maxChars).

Definition isQuote (c : N) : bool :=
  ((c =? 34) || (c =? 39) || (c =? 96))%N.

(** [s.replace(/^["'`]+|["'`]+$/g, '')].  The scan starts at index 0.
    There the first alternative takes the whole run of quote characters
    the string starts with, when it starts with one.  From then on only
    the second alternative can match, at the first index from which
    nothing but quote characters remain up to the end. *)
Fixpoint removeQuotesAtEnd (s : jsstring) : jsstring :=
  match s with
  | [] => []
  | c :: r =>
      if isQuote c && forallb isQuote r then []
      else c :: removeQuotesAtEnd r
  end.

Definition replaceQuotes (s : jsstring) : jsstring :=
  removeQuotesAtEnd (dropWhile isQuote s).

(** [normalizeGeneratedMessage] *)
Definition normalizeGeneratedMessage (raw : jsstring) : jsstring :=
  let firstLine :=
    match find (fun line => 0 <? len line) (map trim (splitLines raw)) with
    | Some line => line
    | None => []
    end in
  trim (replaceQuotes firstLine).

Inductive LogLine :=
| LogRunning (commandPath : jsstring)
| LogTimedOut (timeoutMs : Z)
| LogStderrTail (text : jsstring)
| LogStdoutTail (text : jsstring)
| LogCandidateNotAvailable (commandPath : jsstring).

(** What the child process does, as the events its handlers receive. *)
Inductive ProcEvent :=
| StdoutData (chunk : jsstring)
| StderrData (chunk : jsstring)
| ErrorEvent (e : Errno)
| CloseEvent (exitCode : option Z)
| TimerExpires.

(** The variables of the promise executor of one run.  [timerArmed] is
    the pending [setTimeout]; [promise] is the settlement of the returned
    promise, [None] while it is pending; [uncaught] records that a
    handler threw. *)
Record RunState := {
  stdoutBuffer : jsstring;
  stdoutRaw : jsstring;
  stderrRaw : jsstring;
  lastAgentMessage : option jsstring;
  timedOut : bool;
  settled : bool;
  timerArmed : bool;
  killed : bool;
  promise : option (result Thrown jsstring);
  uncaught : bool;
  log : list LogLine
}.

Definition initialState : RunState := {|
  stdoutBuffer := []; stdoutRaw := []; stderrRaw := [];
  lastAgentMessage := None; timedOut := false; settled := false;
  timerArmed := true; killed := false; promise := None;
  uncaught := false; log := []
|}.

Section Client.
Context (B : Builtins).
(** The spawn errors that mean the executable is missing: [ENOENT] in
    the single-command client, [ENOENT] and [EINVAL] in the client with
    candidates. *)
Variable isNotFoundError : Errno -> bool.
Variable options : CodexGenerateOptions.

(** [isModelAccessError] *)
Definition isModelAccessError (text : jsstring) : bool :=
  let lowered := toLowerCase B text in
  includes lowered (lit "does not exist or you do not have access")
  || includes lowered (lit "do not have access to it").

(** The test on a parsed event in [processStdoutLines]: the text of a
    completed agent message, [None] for any other event, and an error
    where reading [event.type] throws, which it does for [null]. *)
Definition agentMessageText (event : JSON.value) : result unit (option jsstring) :=
  match event with
  | JSON.Null => Err tt
  | _ =>
      match JSON.get event (lit "type") with
      | Some (JSON.Str t) =>
          if streq t (lit "item.completed") then
            match JSON.get event (lit "item") with
            | Some item =>
                match JSON.get item (lit "type") with
                | Some (JSON.Str it) =>
                    if streq it (lit "agent_message") then
                      match JSON.get item (lit "text") with
                      | Some (JSON.Str text) => Ok (Some text)
                      | _ => Ok None
                      end
                    else Ok None
                | _ => Ok None
                end
            | None => Ok None
            end
          else Ok None
      | _ => Ok None
      end
  end.

(** The loop over the complete lines: the last agent message seen, and
    whether the loop was left by an exception. *)
Fixpoint scanLines (lines : list jsstring) (last : option jsstring)
  : option jsstring * bool :=
  match lines with
  | [] => (last, false)
  | line :: rest =>
      let trimmed := trim line in
      if negb (truthy trimmed) then scanLines rest last
      else
        match JSON_parse B trimmed with
        | None => scanLines rest last
        | Some event =>
            match agentMessageText event with
            | Err _ => (last, true)
            | Ok (Some text) => scanLines rest (Some text)
            | Ok None => scanLines rest last
            end
        end
  end.

(** [processStdoutLines]; the boolean tells that it threw. *)
Definition processStdoutLines (chunk : jsstring) (st : RunState)
  : RunState * bool :=
  let raw := stdoutRaw st ++ chunk in
  let buffer := stdoutBuffer st ++ chunk in
  let '(lastPiece, lines) := pop (splitLines buffer) in
  let buffer' := match lastPiece with Some p => p | None => [] end in
  let '(last, threw) := scanLines lines (lastAgentMessage st) in
  ({| stdoutBuffer := buffer'; stdoutRaw := raw; stderrRaw := stderrRaw st;
      lastAgentMessage := last; timedOut := timedOut st;
      settled := settled st; timerArmed := timerArmed st;
      killed := killed st; promise := promise st;
      uncaught := uncaught st || threw; log := log st |}, threw).

Definition withPromise (r : result Thrown jsstring) (st : RunState) : RunState :=
  {| stdoutBuffer := stdoutBuffer st; stdoutRaw := stdoutRaw st;
     stderrRaw := stderrRaw st; lastAgentMessage := lastAgentMessage st;
     timedOut := timedOut st; settled := settled st;
     timerArmed := timerArmed st; killed := killed st;
     promise := match promise st with Some p => Some p | None => Some r end;
     uncaught := uncaught st; log := log st |}.

Definition withLog (l : list LogLine) (st : RunState) : RunState :=
  {| stdoutBuffer := stdoutBuffer st; stdoutRaw := stdoutRaw st;
     stderrRaw := stderrRaw st; lastAgentMessage := lastAgentMessage st;
     timedOut := timedOut st; settled := settled st;
     timerArmed := timerArmed st; killed := killed st;
     promise := promise st; uncaught := uncaught st;
     log := log st ++ l |}.

(** The first steps of [settle]: mark the run settled and clear the
    timer. *)
Definition markSettled (st : RunState) : RunState :=
  {| stdoutBuffer := stdoutBuffer st; stdoutRaw := stdoutRaw st;
     stderrRaw := stderrRaw st; lastAgentMessage := lastAgentMessage st;
     timedOut := timedOut st; settled := true;
     timerArmed := false; killed := killed st;
     promise := promise st; uncaught := uncaught st; log := log st |}.

Definition reject (c : CodexCliErrorCode) (msg : jsstring)
  (d : option jsstring) (st : RunState) : RunState :=
  withPromise (Err (Codex {| code := c; message := msg; details := d |})) st.

Definition notFoundMessage (path : jsstring) : jsstring :=
  lit "Codex CLI was not found at " ++ dquote ++ path ++ dquote ++ lit ".".

(** The callback of the [error] handler. *)
Definition onErrorSettled (path : jsstring) (e : Errno) (st : RunState) : RunState :=
  if isNotFoundError e then reject not_found (notFoundMessage path) None st
  else reject process_failed
         (lit "Failed to launch Codex CLI: " ++ errnoMessage e) None st.

Definition exitCodeText (exitCode : option Z) : jsstring :=
  match exitCode with
  | Some c => String_of_Z c
  | None => lit "null"
  end.

(** The callback of the [close] handler after the flush of the buffer. *)
Definition classifyClose (exitCode : option Z) (st : RunState) : RunState :=
  let st1 :=
    if 0 <? len (trim (stderrRaw st))
    then withLog [LogStderrTail (tail (trim (stderrRaw st)) 3000)] st
    else st in
  let st2 :=
    if 0 <? len (trim (stdoutRaw st1))
    then withLog [LogStdoutTail (tail (trim (stdoutRaw st1)) 3000)] st1
    else st1 in
  if timedOut st2 then
    reject timeout
      (lit "Codex generation timed out after " ++
       String_of_Z (timeoutMs options) ++ lit " ms.") None st2
  else if negb (bool_decide (exitCode = Some 0)) then
    let combined := stderrRaw st2 ++ newline ++ stdoutRaw st2 in
    if isModelAccessError combined then
      reject model_access
        (lit "Model access error for " ++ dquote ++ model options ++
         dquote ++ lit ".")
        (Some (tail combined 4000)) st2
    else
      reject process_failed
        (lit "Codex CLI exited with code " ++ exitCodeText exitCode ++ lit ".")
        (Some (tail combined 4000)) st2
  else
    match lastAgentMessage st2 with
    | None =>
        reject parse_failed
          (lit "No agent message was found in Codex JSON output.") None st2
    | Some msg =>
        if negb (truthy msg) then
          reject parse_failed
            (lit "No agent message was found in Codex JSON output.") None st2
        else
          let normalized := normalizeGeneratedMessage msg in
          if negb (truthy normalized) then
            reject empty_response
              (lit "Generated message is empty after normalization.") None st2
          else withPromise (Ok normalized) st2
    end.

(** The callback of the [close] handler.  An exception of the flush
    leaves it before any settlement of the promise. *)
Definition onCloseSettled (exitCode : option Z) (st : RunState) : RunState :=
  let '(st1, threw) :=
    if 0 <? len (trim (stdoutBuffer st))
    then processStdoutLines newline st
    else (st, false) in
  if threw then st1 else classifyClose exitCode st1.

(** One event of the child process, handled. *)
Definition handle (path : jsstring) (ev : ProcEvent) (st : RunState) : RunState :=
  match ev with
  | StdoutData chunk => fst (processStdoutLines chunk st)
  | StderrData chunk =>
      {| stdoutBuffer := stdoutBuffer st; stdoutRaw := stdoutRaw st;
         stderrRaw := stderrRaw st ++ chunk;
         lastAgentMessage := lastAgentMessage st; timedOut := timedOut st;
         settled := settled st; timerArmed := timerArmed st;
         killed := killed st; promise := promise st;
         uncaught := uncaught st; log := log st |}
  | ErrorEvent e =>
      if settled st then st else onErrorSettled path e (markSettled st)
  | CloseEvent exitCode =>
      if settled st then st else onCloseSettled exitCode (markSettled st)
  | TimerExpires =>
      if timerArmed st then
        {| stdoutBuffer := stdoutBuffer st; stdoutRaw := stdoutRaw st;
           stderrRaw := stderrRaw st;
           lastAgentMessage := lastAgentMessage st; timedOut := true;
           settled := settled st; timerArmed := false;
           killed := true; promise := promise st;
           uncaught := uncaught st;
           log := log st ++ [LogTimedOut (timeoutMs options)] |}
      else st
  end.

Definition runEvents (path : jsstring) (events : list ProcEvent) (st : RunState)
  : RunState :=
  fold_left (fun s ev => handle path ev s) events st.

End Client.

(** What happens when a command is spawned: [spawn] throws, or the child
    exists and its handlers receive a sequence of events. *)
Inductive Spawn :=
| SpawnThrows (e : Errno)
| Spawned (events : list ProcEvent).

(** What an [await] of a promise observes: its settlement, or [None] when
    it stays pending for ever. *)
Definition Awaited := option (result Thrown jsstring).

(** ** The client with a single command (src/codexCli.ts) *)

Definition isENOENT (e : Errno) : bool := hasCode e "ENOENT".

(** [generateCommitMessageWithCodex] of the single-command client.  An
    exception of [spawn] inside the promise executor rejects the promise
    with that error. *)
Definition generateCommitMessageWithCodex (B : Builtins)
  (options : CodexGenerateOptions) (world : Spawn)
  : list LogLine * Awaited :=
  match world with
  | SpawnThrows e =>
      ([LogRunning (commandPath options)], Some (Err (Other (errnoMessage e))))
  | Spawned events =>
      let st := runEvents B isENOENT options (commandPath options) events
                  initialState in
      (LogRunning (commandPath options) :: log st, promise st)
  end.

End CodexCli.

(** ** The client with command candidates (the later codexCli.ts) *)

Module CodexCliCandidates.
Import CodexCli.

(** [isNotFoundLikeSpawnError] *)
Definition isNotFoundLikeSpawnError (e : Errno) : bool :=
  hasCode e "ENOENT" || hasCode e "EINVAL".

Section Candidates.
Context (B : Builtins) (H : Host).

(** [uniqueCommandPaths] *)
Fixpoint uniqueFrom (seen : gset (list N)) (paths : list jsstring)
  : list jsstring :=
  match paths with
  | [] => []
  | commandPath :: rest =>
      let normalized :=
        if win32 H then toLowerCase B commandPath else commandPath in
      if bool_decide (normalized ∈ seen) then uniqueFrom seen rest
      else commandPath :: uniqueFrom ({[normalized]} ∪ seen) rest
  end.

Definition uniqueCommandPaths (paths : list jsstring) : list jsstring :=
  uniqueFrom ∅ paths.

(** [getBundledWindowsCodexCandidates] *)
Definition getBundledWindowsCodexCandidates : list jsstring :=
  match envUSERPROFILE H with
  | None => []
  | Some userProfile =>
      if negb (truthy userProfile) then []
      else
        let extensionRoots :=
          [pathJoin H [userProfile; lit ".vscode"; lit "extensions"];
           pathJoin H [userProfile; lit ".vscode-insiders"; lit "extensions"]] in
        flat_map
          (fun root =>
             if negb (existsSync H root) then []
             else
               match readdirSync H root with
               | None => []
               | Some directories =>
                   flat_map
                     (fun directory : jsstring * bool =>
                        let '(name, isDirectory) := directory in
                        if negb isDirectory then []
                        else if negb (startsWith name (lit "openai.chatgpt-"))
                        then []
                        else [pathJoin H [root; name; lit "bin";
                                          lit "windows-x86_64"; lit "codex.exe"]])
                     directories
               end)
          extensionRoots
  end.

(** The test [/\.(cmd|bat|ps1)$/i] and the text before the match. *)
Definition hasScriptExtension (commandPath : jsstring) : bool :=
  let lowered := map asciiLower commandPath in
  endsWith lowered (lit ".cmd") || endsWith lowered (lit ".bat")
  || endsWith lowered (lit ".ps1").

Definition withoutScriptExtension (commandPath : jsstring) : jsstring :=
  take (length commandPath - 4) commandPath.

(** [buildCommandCandidates] *)
Definition buildCommandCandidates (configuredCommandPath : jsstring)
  : list jsstring :=
  let commandPath := trim configuredCommandPath in
  let candidates :=
    [commandPath]
    ++ (if win32 H then
          (if hasScriptExtension commandPath then
             [withoutScriptExtension commandPath;
              withoutScriptExtension commandPath ++ lit ".exe"]
           else [])
          ++ match envAPPDATA H with
             | Some appData =>
                 if truthy appData then
                   [pathJoin H [appData; lit "npm"; lit "codex"];
                    pathJoin H [appData; lit "npm"; lit "codex.exe"]]
                 else []
             | None => []
             end
          ++ getBundledWindowsCodexCandidates
        else []) in
  let filtered :=
    List.filter
      (fun candidate =>
         truthy candidate &&
         (negb (isAbsolute H candidate) || existsSync H candidate))
      candidates in
  uniqueCommandPaths filtered.

Variable options : CodexGenerateOptions.

(** What each command does when spawned. *)
Variable world : jsstring -> Spawn.

(** [runCodexWithCommand] *)
Definition runCodexWithCommand (path : jsstring) : list LogLine * Awaited :=
  match world path with
  | SpawnThrows e =>
      ([LogRunning path],
       Some (Err (Codex
         (if isNotFoundLikeSpawnError e then
            {| code := not_found;
               message := lit "Codex CLI was not found or not executable at "
                          ++ dquote ++ path ++ dquote ++ lit ".";
               details := Some (errnoMessage e) |}
          else
            {| code := process_failed;
               message := lit "Failed to launch Codex CLI: " ++ errnoMessage e;
               details := None |}))))
  | Spawned events =>
      let st := runEvents B isNotFoundLikeSpawnError options path events
                  initialState in
      (LogRunning path :: log st, promise st)
  end.

(** The loop of [generateCommitMessageWithCodex] over the candidates
    and the statements after it. *)
Fixpoint tryCandidates (commandCandidates : list jsstring)
  (lastNotFoundError : option CodexCliError) : list LogLine * Awaited :=
  match commandCandidates with
  | [] =>
      match lastNotFoundError with
      | Some e => ([], Some (Err (Codex e)))
      | None =>
          ([], Some (Err (Codex
             {| code := not_found;
                message := notFoundMessage (commandPath options);
                details :=
                  Some (lit "No executable candidate could be resolved.") |})))
      end
  | path :: rest =>
      match runCodexWithCommand path with
      | (l, Some (Err (Codex e))) =>
          match code e with
          | not_found =>
              let '(l', r) := tryCandidates rest (Some e) in
              (l ++ LogCandidateNotAvailable path :: l', r)
          | _ => (l, Some (Err (Codex e)))
          end
      | (l, r) => (l, r)
      end
  end.

(** [generateCommitMessageWithCodex] *)
Definition generateCommitMessageWithCodex : list LogLine * Awaited :=
  tryCandidates (buildCommandCandidates (commandPath options)) None.

End Candidates.

(** The commands a log shows as run, in order. *)
Definition attempted (l : list LogLine) : list jsstring :=
  omap (fun line => match line with LogRunning p => Some p | _ => None end) l.

(** A settlement that makes the loop go on to the next candidate. *)
Definition failsNotFound (r : Awaited) : bool :=
  match r with
  | Some (Err (Codex e)) =>
      match code e with not_found => true | _ => false end
  | _ => false
  end.

End CodexCliCandidates.

(** ** The generated message as the specification words it *)

(** These definitions follow the specification, not the sources: the
    stream of events on the standard output, the last completed agent
    message among them, and the normal form of its text, once as the
    specification words it (one layer of quote characters goes) and once
    as its wording has to be amended (every quote character at either end
    goes). *)
Module GeneratedMessageSpec.
Import CodexCli.

(** An object shaped as [{ type: "item.completed", item: { type:
    "agent_message", text: string } }] is significant, and its text is the
    message; every other value is ignored. *)
Definition completedAgentMessage (event : JSON.value) : option jsstring :=
  match event with
  | JSON.Object members =>
      match JSON.lookup (lit "type") members, JSON.lookup (lit "item") members with
      | Some (JSON.Str t), Some (JSON.Object item) =>
          match JSON.lookup (lit "type") item, JSON.lookup (lit "text") item with
          | Some (JSON.Str it), Some (JSON.Str text) =>
              if streq t (lit "item.completed")
                 && streq it (lit "agent_message")
              then Some text else None
          | _, _ => None
          end
      | _, _ => None
      end
  | _ => None
  end.

(** The events of a newline-delimited stream: one per line that is not
    blank and parses; lines that do not parse are skipped. *)
Definition eventsOfLines (B : Builtins) (lines : list jsstring) : list JSON.value :=
  omap (fun line =>
          if truthy (trim line) then JSON_parse B (trim line) else None)
    lines.

Definition streamEvents (B : Builtins) (stdout : jsstring) : list JSON.value :=
  eventsOfLines B (splitLines stdout).

(** Only the last completed agent message matters. *)
Definition lastCompletedAgentMessage (B : Builtins) (stdout : jsstring)
  : option jsstring :=
  last (omap completedAgentMessage (streamEvents B stdout)).

(** The first line of a text that is not blank. *)
Definition firstNonBlankLine (text : jsstring) : jsstring :=
  match find (fun line => truthy (trim line)) (splitLines text) with
  | Some line => line
  | None => []
  end.

(** One layer of quote characters, as the specification words it: the
    one quote character a text starts with, when it starts with one, and
    the one it ends with, when it ends with one. *)
Definition stripLeadingQuote (s : jsstring) : jsstring :=
  match s with
  | c :: r => if isQuote c then r else s
  | [] => []
  end.

Definition stripOneQuoteLayer (s : jsstring) : jsstring :=
  rev (stripLeadingQuote (rev (stripLeadingQuote s))).

(** The normal form as the specification words it: the first non-blank
    line, without its surrounding whitespace and without one layer of
    quote characters. *)
Definition normalizedAsWorded (text : jsstring) : jsstring :=
  trim (stripOneQuoteLayer (trim (firstNonBlankLine text))).

(** The amended wording: every quote character a text starts with and
    every quote character it ends with, however many and of whatever
    kind. *)
Definition stripQuoteRuns (s : jsstring) : jsstring :=
  rev (dropWhile isQuote (rev (dropWhile isQuote s))).

(** The normal form of the amended wording: the first non-blank line,
    without its surrounding whitespace, without the quote characters it
    then starts and ends with, and without the whitespace that surrounded
    the text inside the quotes. *)
Definition normalized (text : jsstring) : jsstring :=
  trim (stripQuoteRuns (trim (firstNonBlankLine text))).

(** The standard output of a sequence of events of the child. *)
Definition stdoutOf (events : list ProcEvent) : jsstring :=
  concat (omap (fun ev => match ev with StdoutData c => Some c | _ => None end)
            events).

(** The events in which the child only writes. *)
Definition isOutput (ev : ProcEvent) : bool :=
  match ev with
  | StdoutData _ | StderrData _ => true
  | _ => false
  end.

Definition lastOr (o : option jsstring) (l : list jsstring) : option jsstring :=
  match last l with Some m => Some m | None => o end.

(** No event of the stream is the value [null]. *)
Abbreviation noNull := (Forall (fun ev : JSON.value => ev <> JSON.Null)).

(** A run that has read the standard output [T] and is still open: the
    buffer holds the last piece of [T], and the message remembered is the
    last completed one among the complete lines of [T]. *)
Definition reading (B : Builtins) (st : RunState) (T : jsstring) : Prop :=
  exists b ls,
    pop (splitLines T) = (Some b, ls)
    /\ stdoutBuffer st = b
    /\ lastAgentMessage st = last (omap completedAgentMessage (eventsOfLines B ls))
    /\ settled st = false /\ promise st = None /\ uncaught st = false.

End GeneratedMessageSpec.

(* ===================================================================== *)
(** * Prompt builder (prompt.ts) *)
(* ===================================================================== *)

Module Prompt.

Definition buildCommitMessagePrompt (diffText : jsstring) : jsstring :=
  join newline
    [ lit "You generate git commit messages.";
      lit "Create a single commit message line from the provided diff.";
      lit "";
      lit "Strict output rules:";
      lit "- Output exactly one line.";
      lit "- Japanese only.";
      lit "- 30 to 50 characters.";
      lit "- No markdown.";
      lit "- No quotes.";
      lit "- No bullets.";
      lit "- No prefixes like feat/fix/chore.";
      lit "- Focus on concrete code changes.";
      lit "";
      lit "Return only the final commit message line.";
      lit "";
      lit "<diff>";
      diffText;
      lit "</diff>" ].

End Prompt.

(* ===================================================================== *)
(** * Extension: settings, pending state, commit gate, orchestrator *)
(* ===================================================================== *)

Module Extension.

Record GitBranch := {
  name : option jsstring;
  commit : option jsstring
}.

Record GitCommit := {
  hash : jsstring;
  message : jsstring
}.

(** A repository object is known by the path of its root. *)
Record GitRepository := {
  rootFsPath : jsstring
}.

Record PendingGeneratedCommit := {
  pendingMessage : jsstring;
  createdAt : Z
}.

Record ExtensionSettings := {
  model : jsstring;
  reasoningEffort : CodexCli.ReasoningEffort;
  includeUntracked : bool;
  diffMaxChars : Z;
  timeoutSeconds : Z;
  codexCommandPath : jsstring;
  autoCommitAfterGenerate : bool;
  pushRemote : jsstring;
  pushBranch : jsstring
}.

(** The configured values; [None] where a setting is not configured and
    [config.get] answers its default. *)
Record Configuration := {
  cfgModel : option jsstring;
  cfgReasoningEffort : option jsstring;
  cfgIncludeUntracked : option bool;
  cfgDiffMaxChars : option Z;
  cfgTimeoutSeconds : option Z;
  cfgCodexCommandPath : option jsstring;
  cfgAutoCommitAfterGenerate : option bool;
  cfgPushRemote : option jsstring;
  cfgPushBranch : option jsstring
}.

Definition configGet {A} (v : option A) (default : A) : A :=
  match v with Some x => x | None => default end.

Definition parseReasoningEffort (raw : jsstring) : CodexCli.ReasoningEffort :=
  if streq raw (lit "minimal") then CodexCli.minimal
  else if streq raw (lit "low") then CodexCli.low
  else if streq raw (lit "medium") then CodexCli.medium
  else CodexCli.high.

(** [getSettings] *)
Definition getSettings (config : Configuration) : ExtensionSettings := {|
  model := configGet (cfgModel config) (lit "gpt-5.3-codex");
  reasoningEffort :=
    parseReasoningEffort (configGet (cfgReasoningEffort config) (lit "high"));
  includeUntracked := configGet (cfgIncludeUntracked config) true;
  diffMaxChars := Z.max 1000 (configGet (cfgDiffMaxChars config) 12000);
  timeoutSeconds := Z.max 10 (configGet (cfgTimeoutSeconds config) 90);
  codexCommandPath := configGet (cfgCodexCommandPath config) (lit "codex");
  autoCommitAfterGenerate := configGet (cfgAutoCommitAfterGenerate config) true;
  pushRemote := configGet (cfgPushRemote config) (lit "origin");
  pushBranch := configGet (cfgPushBranch config) (lit "main")
|}.

(** [firstLine] *)
Definition firstLine (text : jsstring) : jsstring :=
  match splitLines text with
  | l :: _ => trim l
  | [] => []
  end.

(** A case-insensitive test for one of several literal phrases, as the
    regular expressions of [isNoChangesCommitError] and of the push
    failure classification make it: only the letters A to Z differ from
    their lower-case forms. *)
Definition testAny (phrases : list string) (text : jsstring) : bool :=
  existsb (fun p => includes (map asciiLower text) (lit p)) phrases.

Definition isRejectedPush (message : jsstring) : bool :=
  testAny ["rejected"; "non-fast-forward"; "failed to push";
           "cannot lock ref"; "updates were rejected"]%string message.

(** [isNoChangesCommitError] *)
Definition isNoChangesCommitError (message : jsstring) : bool :=
  testAny ["nothing to commit"; "no changes added"; "working tree clean";
           "empty commit message"]%string message.

(** The messages shown to the user, by their kind and the values they
    interpolate. *)
Inductive Notification :=
| WarnNoRepository
| ErrDiffCollection (message : jsstring)
| InfoNoDiff
| InfoMessageEntered (remote branch : jsstring)
| WarnNothingToCommit
| ErrCodexNotFound
| ErrCodexTimeout (seconds : Z)
| ErrModelAccess (model : jsstring)
| ErrNoCommitMessage
| ErrCodexFailed (message : jsstring)
| ErrUnexpected (message : jsstring)
| WarnLatestCommitUnavailable
| InfoMessageMismatch
| InfoBranchMismatch (current target : jsstring)
| InfoPushed (remote branch : jsstring)
| ErrPushRejected (message : jsstring)
| ErrPushFailed (message : jsstring).

(** The lines appended to the output channel. *)
Inductive Line :=
| LineDiff (l : DiffCollector.LogLine)
| LineCodex (l : CodexCli.LogLine)
| LineDiffCollectFailed (message : jsstring)
| LineTruncated (maxChars : Z)
| LineGenerated (message : jsstring)
| LineAutoCommitStarted
| LineStaging (repositoryPath : jsstring)
| LineAutoCommitCompleted
| LineErrorDetails (error : CodexCli.Thrown)
| LineAutoCommitSkipped (message : jsstring)
| LineCodexError (code : CodexCli.CodexCliErrorCode) (message : jsstring)
| LineCodexDetails (details : jsstring)
| LineUnexpected (message : jsstring)
| LineHeadUnavailable
| LineMessageMismatch (latest generated : jsstring)
| LineBranchMismatch (current target : jsstring)
| LineExecutingPush (remote branch : jsstring)
| LinePushSucceeded
| LinePushFailed (message : jsstring).

(** What the extension does to the world, in order. *)
Inductive Effect :=
| Notify (n : Notification)
| AppendLine (l : Line)
| CallGetCommit (repository : GitRepository) (ref : jsstring)
| CallPush (repository : GitRepository) (remoteName branchName : jsstring)
    (setUpstream : bool)
| CallCollectDiff (repositoryPath : jsstring)
| CallBuildPrompt (diffText : jsstring)
| CallGenerate (prompt : jsstring)
| SetInputBox (repository : GitRepository) (value : jsstring)
| CallStageAll (repositoryPath : jsstring)
| CallCommit (repository : GitRepository) (message : jsstring).

(** The state shared by all handlers: the map of [PendingCommitState],
    the set [pushInFlight], and the effects so far. *)
Record Store := {
  pendingByRepository : gmap (list N) PendingGeneratedCommit;
  pushInFlight : gset (list N);
  trace : list Effect
}.

Definition emit (es : list Effect) (σ : Store) : Store :=
  {| pendingByRepository := pendingByRepository σ;
     pushInFlight := pushInFlight σ;
     trace := trace σ ++ es |}.

Section WithHost.
Context (B : Builtins) (H : Host).

(** [normalizeFsPath] and [repositoryKey] *)
Definition normalizeFsPath (fsPath : jsstring) : jsstring :=
  let normalized := pathNormalize H fsPath in
  if win32 H then toLowerCase B normalized else normalized.

Definition repositoryKey (repository : GitRepository) : jsstring :=
  normalizeFsPath (rootFsPath repository).

(** ** Pending-state registry (state.ts) *)

Definition pendingSet (repository : GitRepository)
  (pending : PendingGeneratedCommit) (σ : Store) : Store :=
  {| pendingByRepository :=
       <[repositoryKey repository := pending]> (pendingByRepository σ);
     pushInFlight := pushInFlight σ;
     trace := trace σ |}.

Definition pendingGet (repository : GitRepository) (σ : Store)
  : option PendingGeneratedCommit :=
  pendingByRepository σ !! repositoryKey repository.

Definition pendingClear (repository : GitRepository) (σ : Store) : Store :=
  {| pendingByRepository :=
       delete (repositoryKey repository) (pendingByRepository σ);
     pushInFlight := pushInFlight σ;
     trace := trace σ |}.

Definition inFlightAdd (key : jsstring) (σ : Store) : Store :=
  {| pendingByRepository := pendingByRepository σ;
     pushInFlight := {[key]} ∪ pushInFlight σ;
     trace := trace σ |}.

Definition inFlightDelete (key : jsstring) (σ : Store) : Store :=
  {| pendingByRepository := pendingByRepository σ;
     pushInFlight := pushInFlight σ ∖ {[key]};
     trace := trace σ |}.

(** ** Commit-event gate: [handleCommitEvent] *)

(** Where one call of [handleCommitEvent] stands: not started, waiting
    at one of its three [await]s with its local variables, or
    returned. *)
Inductive GateTask :=
| GateStart (repository : GitRepository) (showSkipNotification : bool)
| AwaitHeadCommit (repository : GitRepository) (showSkipNotification : bool)
    (pending : PendingGeneratedCommit) (key : jsstring)
    (settings : ExtensionSettings)
| AwaitHashCommit (repository : GitRepository) (showSkipNotification : bool)
    (pending : PendingGeneratedCommit) (key : jsstring)
    (settings : ExtensionSettings) (headCommit : jsstring)
| AwaitPush (repository : GitRepository) (key : jsstring)
    (settings : ExtensionSettings)
| GateReturned.

(** What the environment hands to a segment when it runs: the
    configuration, the settlement of the awaited [getCommit] or [push],
    and [repository.state.HEAD] as it is then. *)
Record Answer := {
  configuration : Configuration;
  commitResult : result jsstring GitCommit;
  HEAD : option GitBranch;
  pushResult : result jsstring unit
}.

(** The [finally] block. *)
Definition gateFinally (repository : GitRepository) (key : jsstring)
  (σ : Store) : GateTask * Store :=
  (GateReturned, inFlightDelete key (pendingClear repository σ)).

(** The [catch] block, then the [finally] block. *)
Definition gateCatch (repository : GitRepository) (key : jsstring)
  (message : jsstring) (σ : Store) : GateTask * Store :=
  gateFinally repository key
    (emit [Notify (if isRejectedPush message
                   then ErrPushRejected message
                   else ErrPushFailed message);
           AppendLine (LinePushFailed message)] σ).

Definition orUnknown (s : jsstring) : jsstring :=
  if truthy s then s else lit "unknown".

Definition when (b : bool) (es : list Effect) : list Effect :=
  if b then es else [].

(** From the resolved commit to the call of [push]. *)
Definition gateCheck (repository : GitRepository) (show : bool)
  (pending : PendingGeneratedCommit) (key : jsstring)
  (settings : ExtensionSettings) (latestCommit : GitCommit)
  (head : option GitBranch) (σ : Store) : GateTask * Store :=
  let latestMessage := firstLine (message latestCommit) in
  if negb (streq latestMessage (trim (pendingMessage pending))) then
    gateFinally repository key
      (emit (AppendLine (LineMessageMismatch latestMessage
                           (pendingMessage pending))
             :: when show [Notify InfoMessageMismatch]) σ)
  else
    let currentBranchName :=
      match head with
      | Some b => match name b with Some n => n | None => [] end
      | None => []
      end in
    if negb (streq currentBranchName (pushBranch settings)) then
      gateFinally repository key
        (emit (when show
                 [Notify (InfoBranchMismatch (orUnknown currentBranchName)
                            (pushBranch settings))]
               ++ [AppendLine (LineBranchMismatch
                                 (orUnknown currentBranchName)
                                 (pushBranch settings))]) σ)
    else
      (AwaitPush repository key settings,
       emit [AppendLine (LineExecutingPush (pushRemote settings)
                           (pushBranch settings));
             CallPush repository (pushRemote settings)
               (pushBranch settings) false] σ).

(** One synchronous segment of [handleCommitEvent]. *)
Definition gateStep (a : Answer) (t : GateTask) (σ : Store)
  : GateTask * Store :=
  match t with
  | GateStart repository show =>
      match pendingGet repository σ with
      | None => (GateReturned, σ)
      | Some pending =>
          let key := repositoryKey repository in
          if bool_decide (key ∈ pushInFlight σ) then (GateReturned, σ)
          else
            (AwaitHeadCommit repository show pending key
               (getSettings (configuration a)),
             emit [CallGetCommit repository (lit "HEAD")]
               (inFlightAdd key σ))
      end
  | AwaitHeadCommit repository show pending key settings =>
      match commitResult a with
      | Ok latestCommit =>
          gateCheck repository show pending key settings latestCommit
            (HEAD a) σ
      | Err _ =>
          let headCommit :=
            match HEAD a with
            | Some b => commit b
            | None => None
            end in
          match headCommit with
          | Some h =>
              if truthy h then
                (AwaitHashCommit repository show pending key settings h,
                 emit [CallGetCommit repository h] σ)
              else
                gateFinally repository key
                  (emit (AppendLine LineHeadUnavailable
                         :: when show [Notify WarnLatestCommitUnavailable]) σ)
          | None =>
              gateFinally repository key
                (emit (AppendLine LineHeadUnavailable
                       :: when show [Notify WarnLatestCommitUnavailable]) σ)
          end
      end
  | AwaitHashCommit repository show pending key settings _ =>
      match commitResult a with
      | Ok latestCommit =>
          gateCheck repository show pending key settings latestCommit
            (HEAD a) σ
      | Err message => gateCatch repository key message σ
      end
  | AwaitPush repository key settings =>
      match pushResult a with
      | Ok _ =>
          gateFinally repository key
            (emit [Notify (InfoPushed (pushRemote settings)
                             (pushBranch settings));
                   AppendLine LinePushSucceeded] σ)
      | Err message => gateCatch repository key message σ
      end
  | GateReturned => (GateReturned, σ)
  end.

(** *** One call of the gate, run to its return *)

(** The repository as one call of the gate finds it: what [getCommit]
    answers for a reference, [repository.state.HEAD], and how a [push]
    ends. *)
Record GateWorld := {
  gateConfiguration : Configuration;
  getCommit : jsstring -> result jsstring GitCommit;
  stateHEAD : option GitBranch;
  push : result jsstring unit
}.

Definition answerFor (w : GateWorld) (t : GateTask) : Answer := {|
  configuration := gateConfiguration w;
  commitResult :=
    match t with
    | AwaitHashCommit _ _ _ _ _ headCommit => getCommit w headCommit
    | _ => getCommit w (lit "HEAD")
    end;
  HEAD := stateHEAD w;
  pushResult := push w
|}.

Fixpoint runGate (segments : nat) (w : GateWorld) (t : GateTask) (σ : Store)
  : GateTask * Store :=
  match segments with
  | O => (t, σ)
  | S n =>
      match t with
      | GateReturned => (t, σ)
      | _ =>
          let '(t', σ') := gateStep (answerFor w t) t σ in
          runGate n w t' σ'
      end
  end.

(** [handleCommitEvent], from its call to its return: it has no more
    than four segments. *)
Definition handleCommitEvent (w : GateWorld) (repository : GitRepository)
  (showSkipNotification : bool) (σ : Store) : GateTask * Store :=
  runGate 4 w (GateStart repository showSkipNotification) σ.

(** The commit the gate compares with, as its third step resolves it. *)
Definition resolveLatestCommit (w : GateWorld) : option GitCommit :=
  match getCommit w (lit "HEAD") with
  | Ok c => Some c
  | Err _ =>
      match stateHEAD w with
      | Some b =>
          match commit b with
          | Some h =>
              if truthy h then
                match getCommit w h with
                | Ok c => Some c
                | Err _ => None
                end
              else None
          | None => None
          end
      | None => None
      end
  end.

(** [head?.name ?? ''] *)
Definition currentBranchName (w : GateWorld) : jsstring :=
  match stateHEAD w with
  | Some b => match name b with Some n => n | None => [] end
  | None => []
  end.

(** *** Calls of the gate that overlap *)

(** Commit notifications start calls of the gate at any time, and the
    segments of the calls under way run in any order, each with what
    the environment answers then. *)
Inductive sysStep : list GateTask * Store -> list GateTask * Store -> Prop :=
| NotifyCommit ts σ repository show :
    sysStep (ts, σ) (ts ++ [GateStart repository show], σ)
| RunSegment l1 t l2 σ a t' σ' :
    gateStep a t σ = (t', σ') ->
    sysStep (l1 ++ t :: l2, σ) (l1 ++ t' :: l2, σ').

(** The same, as a function of what happens: a commit notification, or
    the next segment of the call at an index with the answer it gets. *)
Inductive Happening :=
| Notified (repository : GitRepository) (showSkipNotification : bool)
| Resumed (index : nat) (a : Answer).

Definition happen (sys : list GateTask * Store) (h : Happening)
  : list GateTask * Store :=
  let '(ts, σ) := sys in
  match h with
  | Notified repository show => (ts ++ [GateStart repository show], σ)
  | Resumed i a =>
      match ts !! i with
      | Some t => let '(t', σ') := gateStep a t σ in (<[i := t']> ts, σ')
      | None => (ts, σ)
      end
  end.

Definition happenAll (hs : list Happening) (sys : list GateTask * Store)
  : list GateTask * Store :=
  fold_left happen hs sys.

(** The calls of [push] for the repository of a key. *)
Definition isPushFor (key : jsstring) (e : Effect) : bool :=
  match e with
  | CallPush repository _ _ _ => streq (repositoryKey repository) key
  | _ => false
  end.

Definition pushCount (key : jsstring) (es : list Effect) : nat :=
  length (List.filter (isPushFor key) es).

(** The calls of [push] among some effects, for any repository. *)
Definition isPush (e : Effect) : bool :=
  match e with
  | CallPush _ _ _ _ => true
  | _ => false
  end.

Definition pushCalls (es : list Effect) : list Effect := List.filter isPush es.

(** A call of the gate holds the guard of a key from the segment that adds
    the key to [pushInFlight] up to its return; before the call of [push]
    it may still push. *)
Definition holdsGuard (key : jsstring) (t : GateTask) : bool :=
  match t with
  | AwaitHeadCommit _ _ _ k _ => streq k key
  | AwaitHashCommit _ _ _ k _ _ => streq k key
  | AwaitPush _ k _ => streq k key
  | _ => false
  end.

Definition mayStillPush (key : jsstring) (t : GateTask) : bool :=
  match t with
  | AwaitHeadCommit _ _ _ k _ => streq k key
  | AwaitHashCommit _ _ _ k _ _ => streq k key
  | _ => false
  end.

(** The local variable [key] of a call is the key of its repository. *)
Definition keyOfRepository (t : GateTask) : Prop :=
  match t with
  | AwaitHeadCommit repository _ _ k _ => k = repositoryKey repository
  | AwaitHashCommit repository _ _ k _ _ => k = repositoryKey repository
  | AwaitPush repository k _ => k = repositoryKey repository
  | _ => True
  end.

Definition countIf {A} (f : A -> bool) (l : list A) : nat :=
  length (List.filter f l).

(** What the gate compares: the commit resolved, its first line against
    the pending message, the current branch against the target branch. *)
Definition gateMatches (w : GateWorld) (pending : PendingGeneratedCommit) : Prop :=
  exists latestCommit,
    resolveLatestCommit w = Some latestCommit
    /\ firstLine (message latestCommit) = trim (pendingMessage pending)
    /\ currentBranchName w = pushBranch (getSettings (gateConfiguration w)).

(** The call [push(settings.pushRemote, settings.pushBranch, false)]. *)
Definition thePush (w : GateWorld) (repository : GitRepository) : Effect :=
  let settings := getSettings (gateConfiguration w) in
  CallPush repository (pushRemote settings) (pushBranch settings) false.



(** What one segment can do to the guard, the pending entry and the pushes
    of a key. *)
Inductive SegmentKind (k : jsstring) (t : GateTask) (σ : Store)
  (t' : GateTask) (σ' : Store) : Prop :=
| Elsewhere :
    holdsGuard k t = false -> holdsGuard k t' = false ->
    pendingByRepository σ' !! k = pendingByRepository σ !! k ->
    (k ∈ pushInFlight σ' <-> k ∈ pushInFlight σ) ->
    pushCount k (trace σ') = pushCount k (trace σ) ->
    SegmentKind k t σ t' σ'
| Acquires :
    holdsGuard k t = false -> mayStillPush k t' = true ->
    is_Some (pendingByRepository σ !! k) ->
    k ∉ pushInFlight σ -> k ∈ pushInFlight σ' ->
    pushCount k (trace σ') = pushCount k (trace σ) ->
    SegmentKind k t σ t' σ'
| Continues :
    mayStillPush k t = true -> mayStillPush k t' = true ->
    (k ∈ pushInFlight σ' <-> k ∈ pushInFlight σ) ->
    pushCount k (trace σ') = pushCount k (trace σ) ->
    SegmentKind k t σ t' σ'
| Pushes :
    mayStillPush k t = true ->
    holdsGuard k t' = true -> mayStillPush k t' = false ->
    (k ∈ pushInFlight σ' <-> k ∈ pushInFlight σ) ->
    pushCount k (trace σ') = S (pushCount k (trace σ)) ->
    SegmentKind k t σ t' σ'
| Releases :
    holdsGuard k t = true -> holdsGuard k t' = false ->
    pendingByRepository σ' !! k = None ->
    pushCount k (trace σ') = pushCount k (trace σ) ->
    SegmentKind k t σ t' σ'.

(** The invariant of overlapping calls, for one key: at most one call
    holds the guard, the guard is in [pushInFlight] while a call holds it,
    and either no push was called since the start, or one was: then no
    call may still push, and the pending entry is gone as soon as no call
    holds the guard. *)
Definition onePush (k : jsstring) (n0 : nat) (sys : list GateTask * Store) : Prop :=
  let ts := fst sys in
  let σ := snd sys in
  Forall (keyOfRepository) ts
  /\ (countIf (holdsGuard k) ts <= 1)%nat
  /\ ((1 <= countIf (holdsGuard k) ts)%nat -> k ∈ pushInFlight σ)
  /\ (pushCount k (trace σ) = n0
      \/ (pushCount k (trace σ) = S n0
          /\ countIf (mayStillPush k) ts = 0%nat
          /\ (countIf (holdsGuard k) ts = 0%nat ->
              pendingByRepository σ !! k = None))).

(** ** Orchestrator: [handleGenerateCommand] *)

(** What one run of the command finds: the repository resolved for its
    argument, the configuration, the answers of git to the collector,
    the client, the clock, how staging and the commit end, and the
    repository as the gate finds it afterwards. *)
Record CommandWorld := {
  resolveRepository : option GitRepository;
  commandConfiguration : Configuration;
  runGit : DiffCollector.GitOracle;
  generate : CodexCli.CodexGenerateOptions ->
             list CodexCli.LogLine * CodexCli.Awaited;
  now : Z;
  stageAll : result jsstring unit;
  commitOutcome : result jsstring unit;
  gateWorld : GateWorld
}.

Inductive Completion :=
| Returned
| NeverReturns.

Definition thrownMessage (e : CodexCli.Thrown) : jsstring :=
  match e with
  | CodexCli.Codex c => CodexCli.message c
  | CodexCli.Other m => m
  end.

(** The [catch] block of [handleGenerateCommand]. *)
Definition commandCatch (repository : GitRepository)
  (settings : ExtensionSettings) (error : CodexCli.Thrown) (σ : Store)
  : Store :=
  let σ1 := pendingClear repository σ in
  let errorMessage := thrownMessage error in
  let σ2 := emit [AppendLine (LineErrorDetails error)] σ1 in
  if isNoChangesCommitError errorMessage then
    emit [Notify WarnNothingToCommit;
          AppendLine (LineAutoCommitSkipped errorMessage)] σ2
  else
    match error with
    | CodexCli.Codex c =>
        emit ([Notify
                 match CodexCli.code c with
                 | CodexCli.not_found => ErrCodexNotFound
                 | CodexCli.timeout => ErrCodexTimeout (timeoutSeconds settings)
                 | CodexCli.model_access => ErrModelAccess (model settings)
                 | CodexCli.parse_failed => ErrNoCommitMessage
                 | CodexCli.empty_response => ErrNoCommitMessage
                 | CodexCli.process_failed =>
                     ErrCodexFailed (CodexCli.message c)
                 end;
               AppendLine (LineCodexError (CodexCli.code c)
                             (CodexCli.message c))]
              ++ match CodexCli.details c with
                 | Some d =>
                     if truthy d then [AppendLine (LineCodexDetails d)]
                     else []
                 | None => []
                 end) σ2
    | CodexCli.Other _ =>
        emit [AppendLine (LineUnexpected errorMessage);
              Notify (ErrUnexpected errorMessage)] σ2
    end.

(** The options [handleGenerateCommand] calls the client with. *)
Definition generateOptions (settings : ExtensionSettings)
  (repositoryPath prompt : jsstring) : CodexCli.CodexGenerateOptions :=
  let timeoutMs := timeoutSeconds settings * 1000 in
  {| CodexCli.commandPath := codexCommandPath settings;
     CodexCli.model := model settings;
     CodexCli.reasoningEffort := reasoningEffort settings;
     CodexCli.prompt := prompt;
     CodexCli.cwd := repositoryPath;
     CodexCli.timeoutMs := timeoutMs |}.

(** The calls of the prompt builder and of the generator among some
    effects. *)
Definition isGenerationCall (e : Effect) : bool :=
  match e with
  | CallBuildPrompt _ | CallGenerate _ => true
  | _ => false
  end.

(** [handleGenerateCommand] *)
Definition handleGenerateCommand (w : CommandWorld) (σ : Store)
  : Completion * Store :=
  match resolveRepository w with
  | None => (Returned, emit [Notify WarnNoRepository] σ)
  | Some repository =>
      let settings := getSettings (commandConfiguration w) in
      let repositoryPath := rootFsPath repository in
      let '(diffLog, diffResult) :=
        DiffCollector.collectDiffForPrompt (runGit w)
          (includeUntracked settings) (diffMaxChars settings) in
      let σ1 :=
        emit (CallCollectDiff repositoryPath
              :: map (fun l => AppendLine (LineDiff l)) diffLog) σ in
      match diffResult with
      | Err message =>
          (Returned,
           emit [AppendLine (LineDiffCollectFailed message);
                 Notify (ErrDiffCollection message)] σ1)
      | Ok diffResult =>
          if negb (truthy (trim (DiffCollector.diffText diffResult))) then
            (Returned, emit [Notify InfoNoDiff] σ1)
          else
            let σ2 :=
              emit (when (DiffCollector.wasTruncated diffResult)
                      [AppendLine (LineTruncated (diffMaxChars settings))]) σ1 in
            let prompt :=
              Prompt.buildCommitMessagePrompt
                (DiffCollector.diffText diffResult) in
            let '(codexLog, awaited) :=
              generate w (generateOptions settings repositoryPath prompt) in
            let σ3 :=
              emit (CallBuildPrompt (DiffCollector.diffText diffResult)
                    :: CallGenerate prompt
                    :: map (fun l => AppendLine (LineCodex l)) codexLog) σ2 in
            match awaited with
            | None => (NeverReturns, σ3)
            | Some (Err error) =>
                (Returned, commandCatch repository settings error σ3)
            | Some (Ok message) =>
                let σ4 :=
                  emit [AppendLine (LineGenerated message)]
                    (pendingSet repository
                       {| pendingMessage := message; createdAt := now w |}
                       (emit [SetInputBox repository message] σ3)) in
                if negb (autoCommitAfterGenerate settings) then
                  (Returned,
                   emit [Notify (InfoMessageEntered (pushRemote settings)
                                   (pushBranch settings))] σ4)
                else
                  let σ5 :=
                    emit [AppendLine LineAutoCommitStarted;
                          AppendLine (LineStaging repositoryPath);
                          CallStageAll repositoryPath] σ4 in
                  match stageAll w with
                  | Err m =>
                      (Returned,
                       commandCatch repository settings (CodexCli.Other m) σ5)
                  | Ok _ =>
                      let σ6 := emit [CallCommit repository message] σ5 in
                      match commitOutcome w with
                      | Err m =>
                          (Returned,
                           commandCatch repository settings
                             (CodexCli.Other m) σ6)
                      | Ok _ =>
                          (Returned,
                           snd (handleCommitEvent (gateWorld w) repository true
                                  (emit [AppendLine LineAutoCommitCompleted]
                                     σ6)))
                      end
                  end
            end
      end
  end.

(** The ways the command fails once a diff that is not empty was
    collected: the generator rejects, staging fails, or the commit fails. *)
Inductive CommandFailure (w : CommandWorld) (repository : GitRepository)
  (diffResult : DiffCollector.DiffCollectResult) : CodexCli.Thrown -> Prop :=
| GeneratorFails log error :
    generate w
      (generateOptions (getSettings (commandConfiguration w))
         (rootFsPath repository)
         (Prompt.buildCommitMessagePrompt (DiffCollector.diffText diffResult)))
      = (log, Some (Err error)) ->
    CommandFailure w repository diffResult error
| StagingFails log message error :
    generate w
      (generateOptions (getSettings (commandConfiguration w))
         (rootFsPath repository)
         (Prompt.buildCommitMessagePrompt (DiffCollector.diffText diffResult)))
      = (log, Some (Ok message)) ->
    autoCommitAfterGenerate (getSettings (commandConfiguration w)) = true ->
    stageAll w = Err error ->
    CommandFailure w repository diffResult (CodexCli.Other error)
| CommitFails log message error :
    generate w
      (generateOptions (getSettings (commandConfiguration w))
         (rootFsPath repository)
         (Prompt.buildCommitMessagePrompt (DiffCollector.diffText diffResult)))
      = (log, Some (Ok message)) ->
    autoCommitAfterGenerate (getSettings (commandConfiguration w)) = true ->
    stageAll w = Ok tt ->
    commitOutcome w = Err error ->
    CommandFailure w repository diffResult (CodexCli.Other error).

End WithHost.

End Extension.

(* ===================================================================== *)
(** * The command paths compared and the outputs of a run *)
(* ===================================================================== *)

Module CommandPaths.
(** The form under which [uniqueCommandPaths] compares two paths: the
    local [normalized] of its loop. *)
Definition comparisonForm (B : Builtins) (H : Host) (commandPath : jsstring)
  : jsstring :=
  if win32 H then toLowerCase B commandPath else commandPath.
End CommandPaths.

Module ProcessOutput.
Import CodexCli.

(** The standard error output of a sequence of events of the child. *)
Definition stderrOf (events : list ProcEvent) : jsstring :=
  concat (omap (fun ev => match ev with StderrData c => Some c | _ => None end)
            events).

(** What the child wrote after its last line feed: the content of
    [stdoutBuffer] when the child closes. *)
Definition unterminatedLine (stdout : jsstring) : jsstring :=
  match fst (pop (splitLines stdout)) with
  | Some b => b
  | None => []
  end.

(** [stdoutRaw] after the flush of the close handler: the call
    [processStdoutLines('\n')], made when the buffer is not blank, appends
    its line feed to [stdoutRaw] too. *)
Definition flushedStdout (stdout : jsstring) : jsstring :=
  if 0 <? len (trim (unterminatedLine stdout)) then stdout ++ newline
  else stdout.

(** The events whose handlers go through [settle]. *)
Definition settles (ev : ProcEvent) : bool :=
  match ev with
  | ErrorEvent _ | CloseEvent _ => true
  | _ => false
  end.

Definition isTimedOutLine (l : LogLine) : bool :=
  match l with
  | LogTimedOut _ => true
  | _ => false
  end.

(** The error a run is rejected with when its process fails to start. *)
Definition launchError (isNotFoundError : Errno -> bool) (path : jsstring)
  (e : Errno) : CodexCliError :=
  if isNotFoundError e then
    {| code := not_found; message := notFoundMessage path; details := None |}
  else
    {| code := process_failed;
       message := lit "Failed to launch Codex CLI: " ++ errnoMessage e;
       details := None |}.

(** The error a run is rejected with when its process ends with an exit
    code other than 0, or by a signal. *)
Definition exitError (B : Builtins) (options : CodexGenerateOptions)
  (exitCode : option Z) (combined : jsstring) : CodexCliError :=
  if isModelAccessError B combined then
    {| code := model_access;
       message := lit "Model access error for " ++ dquote ++ model options
                  ++ dquote ++ lit ".";
       details := Some (tail combined 4000) |}
  else
    {| code := process_failed;
       message := lit "Codex CLI exited with code " ++ exitCodeText exitCode
                  ++ lit ".";
       details := Some (tail combined 4000) |}.

(** What holds of the variables of a run whatever happened: the timer is
    cleared once the run is settled or has timed out, the promise is
    settled only by [settle], the child is killed exactly when the run
    timed out, which is logged once, and a run resolved with a message did
    not time out. *)
Definition consistent (st : RunState) : Prop :=
  (settled st = true -> timerArmed st = false)
  /\ (promise st <> None -> settled st = true)
  /\ killed st = timedOut st
  /\ (timedOut st = true -> timerArmed st = false)
  /\ length (List.filter isTimedOutLine (log st))
     = (if timedOut st then 1%nat else 0%nat)
  /\ (forall m, promise st = Some (Ok m) ->
        timedOut st = false /\ m <> []
        /\ exists raw, m = normalizeGeneratedMessage raw).

End ProcessOutput.

(* ===================================================================== *)
(** * Instances for the examples *)
(* ===================================================================== *)

(** Built-ins with the parser above and a lower-casing of the letters A to
    Z, which is what [toLowerCase] does to ASCII text. *)
Definition asciiBuiltins : Builtins := {|
  JSON_parse := JSON.parse;
  toLowerCase := map asciiLower
|}.

(** A POSIX host whose paths are already normal and whose commands all
    exist. *)
Definition posixHost : Host := {|
  win32 := false;
  pathNormalize := fun p => p;
  pathJoin := join (lit "/");
  isAbsolute := fun p => startsWith p (lit "/");
  existsSync := fun _ => true;
  readdirSync := fun _ => None;
  envAPPDATA := None;
  envUSERPROFILE := None
|}.

(** JSON texts of the examples are written with an apostrophe wherever the
    text has a double quote. *)
Definition jsonText (s : string) : jsstring :=
  map (fun c => if (c =? 39)%N then 34%N else c) (lit s).

(** A Windows host with an npm directory under [APPDATA] and no bundled
    executable. *)
Definition windowsHost : Host := {|
  win32 := true;
  pathNormalize := fun p => p;
  pathJoin := join (lit "\");
  isAbsolute := fun p => includes p (lit ":\");
  existsSync := fun p => negb (includes p (lit ".vscode"));
  readdirSync := fun _ => None;
  envAPPDATA := Some (lit "C:\Users\dev\AppData\Roaming");
  envUSERPROFILE := Some (lit "C:\Users\dev")
|}.

Definition exampleOptions : CodexCli.CodexGenerateOptions := {|
  CodexCli.commandPath := lit "codex";
  CodexCli.model := lit "gpt-5.3-codex";
  CodexCli.reasoningEffort := CodexCli.high;
  CodexCli.prompt := Prompt.buildCommitMessagePrompt (lit "+added line");
  CodexCli.cwd := lit "/work/repo";
  CodexCli.timeoutMs := 90000
|}.

(** The spawn error of a missing executable. *)
Definition enoent : CodexCli.Errno := {|
  CodexCli.errnoCode := Some (lit "ENOENT");
  CodexCli.errnoMessage := lit "spawn codex ENOENT"
|}.

(** A completed agent message on one line of the output. *)
Definition agentMessageLine : jsstring :=
  jsonText "{'type':'item.completed','item':{'type':'agent_message','text':'  fix: bar  \n'}}"
  ++ newline.

(** A machine where the configured command is missing, the first fallback
    cannot be started, and the second fallback answers. *)
Definition fallbackWorld (path : jsstring) : CodexCli.Spawn :=
  if streq path (lit "codex") then
    CodexCli.Spawned [CodexCli.ErrorEvent enoent; CodexCli.CloseEvent (Some (-2))]
  else if streq path (lit "C:\Users\dev\AppData\Roaming\npm\codex") then
    CodexCli.SpawnThrows {| CodexCli.errnoCode := Some (lit "EINVAL");
                            CodexCli.errnoMessage := lit "spawn EINVAL" |}
  else
    CodexCli.Spawned [CodexCli.StdoutData agentMessageLine;
                      CodexCli.CloseEvent (Some 0)].

(** A machine where no command can be found. *)
Definition missingWorld (path : jsstring) : CodexCli.Spawn :=
  CodexCli.Spawned [CodexCli.ErrorEvent enoent; CodexCli.CloseEvent (Some (-2))].

(** A git that answers every diff request with [diff] and the listing of
    untracked files with [listing]. *)
Definition gitAnswering (diff listing : jsstring) : DiffCollector.GitOracle :=
  fun args =>
    match args with
    | verb :: _ => if streq verb (lit "diff") then Ok diff else Ok listing
    | [] => Err (lit "usage")
    end.

(** The repository, the pending message and the worlds of the gate
    scenarios. *)
Definition exampleRepository : Extension.GitRepository :=
  {| Extension.rootFsPath := lit "/work/repo" |}.

Definition exampleMessage : jsstring :=
  [0x5DEE; 0x5206; 0x3092; 0x6574; 0x7406; 0x3057; 0x30D5; 0x30A1; 0x30A4;
   0x30EB; 0x69CB; 0x6210; 0x3092; 0x66F4; 0x65B0]%N.

Definition examplePending : Extension.PendingGeneratedCommit :=
  {| Extension.pendingMessage := exampleMessage;
     Extension.createdAt := 1767225600000 |}.

Definition armedStore : Extension.Store :=
  {| Extension.pendingByRepository := {[ lit "/work/repo" := examplePending ]};
     Extension.pushInFlight := ∅;
     Extension.trace := [] |}.

Definition defaultConfiguration : Extension.Configuration :=
  {| Extension.cfgModel := None; Extension.cfgReasoningEffort := None;
     Extension.cfgIncludeUntracked := None; Extension.cfgDiffMaxChars := None;
     Extension.cfgTimeoutSeconds := None; Extension.cfgCodexCommandPath := None;
     Extension.cfgAutoCommitAfterGenerate := None;
     Extension.cfgPushRemote := None; Extension.cfgPushBranch := None |}.

(** A repository whose latest commit has [firstLineOfCommit] as the first
    line of its message and whose current branch is [branch]. *)
Definition repositoryWorld (firstLineOfCommit branch : jsstring)
  : Extension.GateWorld :=
  {| Extension.gateConfiguration := defaultConfiguration;
     Extension.getCommit := fun ref =>
       if streq ref (lit "HEAD") then
         Ok {| Extension.hash := lit "4f2a9c1";
               Extension.message :=
                 firstLineOfCommit ++ newline ++ newline ++ lit "details" |}
       else Err (lit "unknown revision");
     Extension.stateHEAD :=
       Some {| Extension.name := Some branch;
               Extension.commit := Some (lit "4f2a9c1") |};
     Extension.push := Ok tt |}.

Definition matchingWorld : Extension.GateWorld :=
  repositoryWorld exampleMessage (lit "main").

(** What the environment answers to the segments of a call in
    [matchingWorld]. *)
Definition matchingAnswer : Extension.Answer :=
  {| Extension.configuration := defaultConfiguration;
     Extension.commitResult := Extension.getCommit matchingWorld (lit "HEAD");
     Extension.HEAD := Extension.stateHEAD matchingWorld;
     Extension.pushResult := Ok tt |}.

(** Two commit notifications for one commit: the listener's and the
    command's own call.  The first call acquires the guard, the second
    returns at once, the first goes on to push. *)
Definition twoNotifications : list Extension.Happening :=
  [Extension.Notified exampleRepository false;
   Extension.Notified exampleRepository true;
   Extension.Resumed 0 matchingAnswer;
   Extension.Resumed 1 matchingAnswer;
   Extension.Resumed 0 matchingAnswer;
   Extension.Resumed 0 matchingAnswer].

(** Runs of the command: one that finds nothing to commit from, and one
    whose generator cannot be found. *)
Definition commandWorld (git : DiffCollector.GitOracle)
  (child : CodexCli.Spawn) : Extension.CommandWorld :=
  {| Extension.resolveRepository := Some exampleRepository;
     Extension.commandConfiguration := defaultConfiguration;
     Extension.runGit := git;
     Extension.generate := fun options =>
       CodexCli.generateCommitMessageWithCodex asciiBuiltins options child;
     Extension.now := 1767225600000;
     Extension.stageAll := Ok tt;
     Extension.commitOutcome := Ok tt;
     Extension.gateWorld := matchingWorld |}.

Definition nothingToDoWorld : Extension.CommandWorld :=
  commandWorld (gitAnswering [] []) (CodexCli.Spawned []).

Definition generatorMissingWorld : Extension.CommandWorld :=
  commandWorld (gitAnswering (lit "+added line") [])
    (CodexCli.Spawned [CodexCli.ErrorEvent enoent;
                       CodexCli.CloseEvent (Some (-2))]).

(* ===================================================================== *)
(** * Properties of the string built-ins *)
(* ===================================================================== *)

Section StringFacts.
Import JS.

Lemma len_nonneg (s : jsstring) : 0 <= len s.
Proof. unfold len. lia. Qed.

Lemma len_app (a b : jsstring) : len (a ++ b) = len a + len b.
Proof. unfold len. rewrite length_app. lia. Qed.

Lemma len_nil_iff (s : jsstring) : len s = 0 <-> s = [].
Proof.
  unfold len. split.
  - destruct s; [reflexivity | simpl; lia].
  - intros ->. reflexivity.
Qed.

Lemma truthy_len (s : jsstring) : truthy s = (0 <? len s).
Proof. destruct s; unfold len; simpl; [reflexivity |]. symmetry. apply Z.ltb_lt. lia. Qed.

(** A prefix cut inside the string has exactly the length asked for. *)
Lemma len_slice_prefix (s : jsstring) (n : Z) :
  0 <= n <= len s -> len (slice s 0 n) = n.
Proof.
  intros Hn. unfold slice, clampIndex.
  assert (H0 : (0 <? 0) = false) by reflexivity. rewrite H0.
  destruct (n <? 0) eqn:Hneg; [apply Z.ltb_lt in Hneg; lia |].
  rewrite Z.min_l by lia. rewrite Z.min_l by (apply len_nonneg).
  simpl. rewrite drop_0. unfold len in *.
  rewrite length_take. lia.
Qed.

(** A cut at or beyond the end returns the whole string. *)
Lemma slice_prefix_all (s : jsstring) (n : Z) :
  len s <= n -> slice s 0 n = s.
Proof.
  intros Hn. unfold slice, clampIndex.
  assert (H0 : (0 <? 0) = false) by reflexivity. rewrite H0.
  pose proof (len_nonneg s).
  destruct (n <? 0) eqn:Hneg; [apply Z.ltb_lt in Hneg; lia |].
  rewrite Z.min_r by lia. rewrite Z.min_l by lia.
  simpl. rewrite drop_0. unfold len. rewrite Z.sub_0_r, Nat2Z.id.
  apply firstn_all.
Qed.

End StringFacts.

(* ===================================================================== *)
(** * Properties of the diff collector *)
(* ===================================================================== *)

Section DiffCollectorFacts.
Import DiffCollector.

Lemma truncationMarker_length : len truncationMarker = 13.
Proof. reflexivity. Qed.

(** A text over a non-negative cap is cut to the cap and marked. *)
Lemma truncateDiffText_over (diffText : jsstring) (maxChars : Z) :
  0 <= maxChars -> maxChars < len diffText ->
  truncateDiffText diffText maxChars
    = (slice diffText 0 maxChars ++ truncationMarker, true)
  /\ len (slice diffText 0 maxChars) = maxChars.
Proof.
  intros H0 Hlt. unfold truncateDiffText.
  destruct (len diffText <=? maxChars) eqn:E; [apply Z.leb_le in E; lia |].
  split; [reflexivity |]. apply len_slice_prefix. lia.
Qed.

(** A text at or under the cap is returned as it is. *)
Lemma truncateDiffText_under (diffText : jsstring) (maxChars : Z) :
  len diffText <= maxChars ->
  truncateDiffText diffText maxChars = (diffText, false).
Proof.
  intros Hle. unfold truncateDiffText.
  destruct (len diffText <=? maxChars) eqn:E; [reflexivity |].
  apply Z.leb_gt in E. lia.
Qed.

Lemma buildResult_inputs tracked files maxChars :
  trackedDiff (buildResult tracked files maxChars) = tracked
  /\ untrackedFiles (buildResult tracked files maxChars) = files.
Proof.
  unfold buildResult.
  destruct (negb (truthy (compose tracked files))); simpl; [auto |].
  destruct (truncateDiffText _ maxChars); simpl; auto.
Qed.

(** The result of a collection is built from the tracked diff and the
    untracked files it reports. *)
Lemma collectDiffForPrompt_result runGit includeUntracked maxChars log r :
  collectDiffForPrompt runGit includeUntracked maxChars = (log, Ok r) ->
  r = buildResult (trackedDiff r) (untrackedFiles r) maxChars.
Proof.
  unfold collectDiffForPrompt.
  destruct (getTrackedDiff runGit) as [l [tracked | e]]; [| discriminate].
  destruct (if includeUntracked then _ else _) as [l' files].
  intros [= <- <-].
  destruct (buildResult_inputs tracked files maxChars) as [-> ->].
  reflexivity.
Qed.

Lemma buildResult_spec tracked files maxChars :
  0 <= maxChars ->
  let combined := compose tracked files in
  let r := buildResult tracked files maxChars in
  (maxChars < len combined ->
     diffText r = slice combined 0 maxChars ++ truncationMarker
     /\ len (slice combined 0 maxChars) = maxChars
     /\ wasTruncated r = true)
  /\ (len combined <= maxChars ->
        diffText r = combined /\ wasTruncated r = false).
Proof.
  intros H0 combined r. subst r. unfold buildResult. fold combined.
  destruct (truthy combined) eqn:T; simpl.
  - split.
    + intros Hlt.
      destruct (truncateDiffText_over combined maxChars H0 Hlt) as [-> Hl].
      simpl. auto.
    + intros Hle. rewrite (truncateDiffText_under combined maxChars Hle).
      simpl. auto.
  - assert (combined = []) as -> by (destruct combined; [reflexivity | discriminate]).
    split; [unfold len; simpl; lia | auto].
Qed.

End DiffCollectorFacts.

(** C4.  Whatever git answers, a collection that succeeds under a cap that
    is not negative returns, when the text composed from its tracked diff
    and untracked files is longer than the cap, a text of exactly the cap
    plus the length of the truncation marker with [wasTruncated] true, and
    otherwise the composed text unchanged with [wasTruncated] false.  So
    does [truncateDiffText] for every text. *)
Theorem collector_truncation
  (runGit : DiffCollector.GitOracle) (includeUntracked : bool) (maxChars : Z)
  (log : list DiffCollector.LogLine) (r : DiffCollector.DiffCollectResult) :
  0 <= maxChars ->
  DiffCollector.collectDiffForPrompt runGit includeUntracked maxChars = (log, Ok r) ->
  let combined :=
    DiffCollector.compose (DiffCollector.trackedDiff r)
      (DiffCollector.untrackedFiles r) in
  (maxChars < len combined ->
     len (DiffCollector.diffText r)
       = maxChars + len DiffCollector.truncationMarker
     /\ DiffCollector.wasTruncated r = true)
  /\ (len combined <= maxChars ->
        DiffCollector.diffText r = combined
        /\ DiffCollector.wasTruncated r = false)
  /\ (forall text,
        (maxChars < len text ->
           len (fst (DiffCollector.truncateDiffText text maxChars))
             = maxChars + len DiffCollector.truncationMarker
           /\ snd (DiffCollector.truncateDiffText text maxChars) = true)
        /\ (len text <= maxChars ->
              DiffCollector.truncateDiffText text maxChars = (text, false))).
Proof.
  intros H0 Hc combined.
  pose proof (collectDiffForPrompt_result _ _ _ _ _ Hc) as Hr.
  destruct (buildResult_spec (DiffCollector.trackedDiff r)
              (DiffCollector.untrackedFiles r) maxChars H0) as [Hover Hunder].
  fold combined in Hover, Hunder. rewrite <- Hr in Hover, Hunder.
  split; [| split].
  - intros Hlt. destruct (Hover Hlt) as (Ht & Hl & Hw).
    split; [| exact Hw]. rewrite Ht, len_app, Hl. reflexivity.
  - exact Hunder.
  - intros text. split.
    + intros Hlt. destruct (truncateDiffText_over text maxChars H0 Hlt) as [-> Hl].
      cbn [fst snd]. rewrite len_app, Hl. auto.
    + apply truncateDiffText_under.
Qed.

Lemma collector_truncation_witness :
  let git := gitAnswering (lit "+added line") (lit "notes.txt") in
  let r := {| DiffCollector.diffText :=
                lit "## Tracked Diff" ++ newline ++ lit "+add"
                ++ DiffCollector.truncationMarker;
              DiffCollector.trackedDiff := lit "+added line";
              DiffCollector.untrackedFiles := [lit "notes.txt"];
              DiffCollector.wasTruncated := true |} in
  DiffCollector.collectDiffForPrompt git true 20 = ([], Ok r)
  /\ len (DiffCollector.diffText r) = 20 + len DiffCollector.truncationMarker
  /\ DiffCollector.wasTruncated r = true.
Proof.
  intros git r.
  assert (Hc : DiffCollector.collectDiffForPrompt git true 20 = ([], Ok r))
    by (vm_compute; reflexivity).
  split; [exact Hc |].
  apply (proj1 (collector_truncation git true 20 [] r ltac:(lia) Hc)).
  vm_compute. reflexivity.
Defined.

(** C5, as stated, fails: under the smallest budget the settings allow, a
    tracked diff of a thousand characters gives a [diffText] of 1013
    characters. *)
Lemma collector_exceeds_budget :
  exists log r,
    DiffCollector.collectDiffForPrompt
      (gitAnswering (repeat 97%N 1000) []) false 1000 = (log, Ok r)
    /\ DiffCollector.wasTruncated r = true
    /\ len (DiffCollector.diffText r) = 1013
    /\ ~ len (DiffCollector.diffText r) <= 1000.
Proof.
  exists [], (DiffCollector.buildResult (repeat 97%N 1000) [] 1000).
  split; [vm_compute; reflexivity |].
  split; [vm_compute; reflexivity |].
  assert (E : len (DiffCollector.diffText
                     (DiffCollector.buildResult (repeat 97%N 1000) [] 1000)) = 1013)
    by (vm_compute; reflexivity).
  split; [exact E | rewrite E; lia].
Qed.

(** C5, amended.  Under a budget that is not negative, the [diffText] of a
    collection is never longer than the budget plus the truncation marker:
    a cut text is the first [maxChars] characters of the composed text
    followed by the marker, and a text that was not cut is within the
    budget. *)
Theorem collector_budget
  (runGit : DiffCollector.GitOracle) (includeUntracked : bool) (maxChars : Z)
  (log : list DiffCollector.LogLine) (r : DiffCollector.DiffCollectResult) :
  0 <= maxChars ->
  DiffCollector.collectDiffForPrompt runGit includeUntracked maxChars = (log, Ok r) ->
  let combined :=
    DiffCollector.compose (DiffCollector.trackedDiff r)
      (DiffCollector.untrackedFiles r) in
  len (DiffCollector.diffText r) <= maxChars + len DiffCollector.truncationMarker
  /\ (DiffCollector.wasTruncated r = true ->
        DiffCollector.diffText r
          = slice combined 0 maxChars ++ DiffCollector.truncationMarker
        /\ len (slice combined 0 maxChars) = maxChars)
  /\ (DiffCollector.wasTruncated r = false ->
        len (DiffCollector.diffText r) <= maxChars).
Proof.
  intros H0 Hc combined.
  pose proof (collectDiffForPrompt_result _ _ _ _ _ Hc) as Hr.
  destruct (buildResult_spec (DiffCollector.trackedDiff r)
              (DiffCollector.untrackedFiles r) maxChars H0) as [Hover Hunder].
  fold combined in Hover, Hunder. rewrite <- Hr in Hover, Hunder.
  rewrite truncationMarker_length.
  destruct (Z_lt_le_dec maxChars (len combined)) as [Hlt | Hle].
  - destruct (Hover Hlt) as (Ht & Hl & Hw).
    split; [| split].
    + rewrite Ht, len_app, Hl, truncationMarker_length. lia.
    + intros _. split; [exact Ht | exact Hl].
    + rewrite Hw. discriminate.
  - destruct (Hunder Hle) as (Ht & Hw).
    split; [| split].
    + rewrite Ht. lia.
    + rewrite Hw. discriminate.
    + intros _. rewrite Ht. exact Hle.
Qed.

Lemma collector_budget_witness :
  let git := gitAnswering (repeat 97%N 1000) [] in
  let r := DiffCollector.buildResult (repeat 97%N 1000) [] 1000 in
  0 <= 1000
  /\ DiffCollector.collectDiffForPrompt git false 1000 = ([], Ok r)
  /\ len (DiffCollector.diffText r) <= 1000 + len DiffCollector.truncationMarker.
Proof.
  intros git r.
  assert (Hc : DiffCollector.collectDiffForPrompt git false 1000 = ([], Ok r))
    by (vm_compute; reflexivity).
  split; [lia |]. split; [exact Hc |].
  exact (proj1 (collector_budget git false 1000 [] r ltac:(lia) Hc)).
Defined.

(* ===================================================================== *)
(** * Properties of line splitting and of the normal form *)
(* ===================================================================== *)

Section SplitFacts.

Lemma pop_snoc {A} (ls : list A) (b : A) : pop (ls ++ [b]) = (Some b, ls).
Proof.
  induction ls as [| x ls IH]; [reflexivity |].
  simpl. rewrite IH. destruct (ls ++ [b]) eqn:E; [| reflexivity].
  destruct ls; discriminate.
Qed.

Lemma pop_inv {A} (l ls : list A) (b : A) : pop l = (Some b, ls) -> l = ls ++ [b].
Proof.
  revert ls. induction l as [| x l IH]; intros ls; [discriminate |].
  simpl. destruct l as [| y l'].
  - intros [= <- <-]. reflexivity.
  - destruct (pop (y :: l')) as [o r] eqn:E. intros [= -> <-].
    simpl. f_equal. apply IH. reflexivity.
Qed.

Lemma splitLines_nonempty (s : jsstring) : splitLines s <> [].
Proof.
  induction s as [| c r IH]; [discriminate |].
  simpl. destruct (isLF c); [discriminate |].
  destruct (isCR c && headIsLF r); [exact IH |].
  destruct (splitLines r); discriminate.
Qed.

Lemma pop_splitLines (s : jsstring) :
  exists b ls, pop (splitLines s) = (Some b, ls).
Proof.
  pose proof (splitLines_nonempty s) as Hne.
  destruct (splitLines s) as [| p ps] using rev_ind; [contradiction |].
  exists p, ps. apply pop_snoc.
Qed.

(** A text without a separator is its own single piece. *)
Lemma splitLines_single (r p : jsstring) : splitLines r = [p] -> p = r.
Proof.
  revert p. induction r as [| x r IH]; intros p; simpl.
  - intros [= <-]. reflexivity.
  - destruct (isLF x).
    + intros [= _ E]. destruct (splitLines_nonempty r E).
    + destruct (isCR x && headIsLF r) eqn:E.
      * destruct r as [| y r']; [rewrite andb_false_r in E; discriminate |].
        simpl in E. apply andb_prop in E as [_ E].
        simpl. rewrite E. intros [= _ E']. destruct (splitLines_nonempty r' E').
      * destruct (splitLines r) as [| q qs] eqn:Er; [intros [= <-] |].
        -- destruct (splitLines_nonempty r Er).
        -- intros [= <- ->]. f_equal. apply IH. reflexivity.
Qed.

Lemma headIsLF_app (r c : jsstring) : r <> [] -> headIsLF (r ++ c) = headIsLF r.
Proof. destruct r; [contradiction | reflexivity]. Qed.

(** Splitting a text that grows: the complete lines stay, and the last
    piece is split again with what was added. *)
Lemma splitLines_app (s c b : jsstring) (ls : list jsstring) :
  pop (splitLines s) = (Some b, ls) ->
  splitLines (s ++ c) = ls ++ splitLines (b ++ c).
Proof.
  revert b ls. induction s as [| a r IH]; intros b ls.
  - simpl. intros [= <- <-]. reflexivity.
  - destruct (pop_splitLines r) as (b' & ls' & Hr).
    specialize (IH b' ls' Hr).
    cbn [splitLines app]. destruct (isLF a) eqn:Ea.
    + apply pop_inv in Hr. rewrite Hr at 1.
      change ([] :: (ls' ++ [b'])) with (([] :: ls') ++ [b']).
      rewrite pop_snoc. intros [= <- <-]. rewrite IH. reflexivity.
    + destruct r as [| y r'].
      * simpl in Hr. injection Hr as <- <-.
        rewrite andb_false_r. simpl. intros [= <- <-]. simpl.
        rewrite Ea. reflexivity.
      * rewrite (headIsLF_app (y :: r') c) by discriminate.
        destruct (isCR a && headIsLF (y :: r')) eqn:Ec.
        -- rewrite Hr. intros [= <- <-]. exact IH.
        -- rewrite IH. pose proof (pop_inv _ _ _ Hr) as Hsl.
           rewrite Hsl. destruct ls' as [| l1 ls''].
           ++ cbn [app]. cbn [pop]. intros [= <- <-].
              apply (splitLines_single (y :: r') b') in Hsl. subst b'.
              cbn [app splitLines]. rewrite Ea.
              change (y :: r' ++ c) with ((y :: r') ++ c).
              rewrite (headIsLF_app (y :: r') c) by discriminate.
              rewrite Ec. reflexivity.
           ++ cbn [app].
              change ((a :: l1) :: ls'' ++ [b']) with (((a :: l1) :: ls'') ++ [b']).
              rewrite pop_snoc. intros [= <- <-]. reflexivity.
Qed.


(** The last piece of a split has no separator in it. *)
Lemma last_piece_single (s b : jsstring) (ls : list jsstring) :
  pop (splitLines s) = (Some b, ls) -> splitLines b = [b].
Proof.
  intros Hp. pose proof (splitLines_app s [] b ls Hp) as Ha.
  rewrite !app_nil_r in Ha. rewrite (pop_inv _ _ _ Hp) in Ha.
  apply app_inv_head in Ha. symmetry. exact Ha.
Qed.

(** The flush of the close handler: a line feed after the last piece makes
    it a complete line, without the carriage return it may end with. *)
Lemma splitLines_flush (b : jsstring) :
  splitLines b = [b] ->
  exists b', splitLines (b ++ newline) = [b'; []]
             /\ (b' = b \/ b = b' ++ [13%N]).
Proof.
  induction b as [| x r IH]; intros Hb.
  - exists []. split; [reflexivity | left; reflexivity].
  - cbn [splitLines] in Hb. cbn [app splitLines].
    destruct (isLF x) eqn:Ex.
    + injection Hb as Hb. discriminate.
    + destruct (isCR x && headIsLF r) eqn:Ec.
      * destruct r as [| y r']; [rewrite andb_false_r in Ec; discriminate |].
        apply andb_prop in Ec as [_ Ey]. simpl in Ey.
        cbn [splitLines] in Hb. rewrite Ey in Hb.
        injection Hb as _ Hb. destruct (splitLines_nonempty r' Hb).
      * destruct (splitLines r) as [| q qs] eqn:Er;
          [destruct (splitLines_nonempty r Er) |].
        injection Hb as -> ->.
        destruct (IH eq_refl) as (r' & Hr' & Hcase).
        destruct r as [| y r''].
        -- simpl. destruct (isCR x) eqn:Ecr.
           ++ exists []. split; [reflexivity |]. right.
              apply N.eqb_eq in Ecr. subst x. reflexivity.
           ++ simpl. exists [x]. split; [reflexivity | left; reflexivity].
        -- change (y :: r'' ++ newline) with ((y :: r'') ++ newline).
           rewrite (headIsLF_app (y :: r'') newline) by discriminate.
           rewrite Ec, Hr'. exists (x :: r'). split; [reflexivity |].
           destruct Hcase as [-> | ->]; [left | right]; reflexivity.
Qed.

Lemma dropWhile_snoc (p : N -> bool) (l : jsstring) (c : N) :
  p c = true ->
  dropWhile p (l ++ [c]) = if forallb p l then [] else dropWhile p l ++ [c].
Proof.
  intros Hc. induction l as [| x l IH]; simpl.
  - rewrite Hc. reflexivity.
  - destruct (p x); [exact IH | reflexivity].
Qed.

Lemma dropWhile_all (p : N -> bool) (l : jsstring) :
  forallb p l = true -> dropWhile p l = [].
Proof.
  induction l as [| x l IH]; simpl; [reflexivity |].
  destruct (p x); [exact IH | discriminate].
Qed.

Lemma trimEnd_snoc_ws (s : jsstring) (c : N) :
  isWhiteSpace c = true -> trimEnd (s ++ [c]) = trimEnd s.
Proof.
  intros Hc. unfold trimEnd. rewrite rev_app_distr. simpl. rewrite Hc.
  reflexivity.
Qed.

Lemma trim_snoc_ws (s : jsstring) (c : N) :
  isWhiteSpace c = true -> trim (s ++ [c]) = trim s.
Proof.
  intros Hc. unfold trim, trimStart. rewrite (dropWhile_snoc _ _ _ Hc).
  destruct (forallb isWhiteSpace s) eqn:E.
  - rewrite (dropWhile_all _ _ E). reflexivity.
  - apply trimEnd_snoc_ws, Hc.
Qed.

End SplitFacts.

Section NormalizeFacts.
Import CodexCli GeneratedMessageSpec.

Lemma forallb_rev' (p : N -> bool) (l : jsstring) :
  forallb p (rev l) = forallb p l.
Proof.
  induction l as [| x l IH]; [reflexivity |].
  simpl. rewrite forallb_app, IH. simpl. rewrite andb_true_r. apply andb_comm.
Qed.

Lemma dropWhile_snoc_any (p : N -> bool) (l : jsstring) (c : N) :
  dropWhile p (l ++ [c])
    = if forallb p l then (if p c then [] else [c]) else dropWhile p l ++ [c].
Proof.
  induction l as [| x l IH]; simpl; [reflexivity |].
  destruct (p x); [exact IH | reflexivity].
Qed.

(** The scan of the second alternative removes the quote characters the
    text ends with. *)
Lemma removeQuotesAtEnd_spec (s : jsstring) :
  removeQuotesAtEnd s = rev (dropWhile isQuote (rev s)).
Proof.
  induction s as [| c r IH]; [reflexivity |].
  cbn [removeQuotesAtEnd rev]. rewrite dropWhile_snoc_any, forallb_rev'.
  destruct (forallb isQuote r) eqn:E.
  - destruct (isQuote c); [reflexivity |].
    simpl. rewrite IH, dropWhile_all by (rewrite forallb_rev'; exact E).
    reflexivity.
  - rewrite andb_false_r, rev_app_distr, IH. reflexivity.
Qed.

Lemma replaceQuotes_spec (s : jsstring) : replaceQuotes s = stripQuoteRuns s.
Proof. unfold replaceQuotes, stripQuoteRuns. apply removeQuotesAtEnd_spec. Qed.

Lemma find_trimmed (lines : list jsstring) :
  find (fun line => 0 <? len line) (map trim lines)
    = option_map trim (find (fun line => truthy (trim line)) lines).
Proof.
  induction lines as [| l lines IH]; [reflexivity |].
  simpl. rewrite truthy_len. destruct (0 <? len (trim l)); [reflexivity | exact IH].
Qed.

(** The code's normal form is the one the specification words. *)
Lemma normalizeGeneratedMessage_spec (raw : jsstring) :
  normalizeGeneratedMessage raw = normalized raw.
Proof.
  unfold normalizeGeneratedMessage, normalized, firstNonBlankLine.
  rewrite find_trimmed, replaceQuotes_spec.
  destruct (find _ (splitLines raw)); reflexivity.
Qed.

(** No piece of a split has a line feed in it. *)
Lemma splitLines_no_LF (s : jsstring) :
  Forall (fun p => forallb (fun c => negb (isLF c)) p = true) (splitLines s).
Proof.
  induction s as [| c r IH]; [repeat constructor |].
  cbn [splitLines]. destruct (isLF c) eqn:Ec; [constructor; [reflexivity | exact IH] |].
  destruct (isCR c && headIsLF r); [exact IH |].
  destruct (splitLines r) as [| p ps]; [repeat constructor; cbn; rewrite Ec; reflexivity |].
  apply Forall_cons in IH as [Hp Hps].
  constructor; [cbn; rewrite Ec; exact Hp | exact Hps].
Qed.

Lemma forallb_dropWhile (q p : N -> bool) (l : jsstring) :
  forallb q l = true -> forallb q (dropWhile p l) = true.
Proof.
  induction l as [| x l IH]; [reflexivity |].
  cbn [dropWhile]. destruct (p x); [| auto].
  cbn [forallb]. intros Hq. apply andb_prop in Hq as [_ Hq]. auto.
Qed.

Lemma forallb_trim (q : N -> bool) (l : jsstring) :
  forallb q l = true -> forallb q (trim l) = true.
Proof.
  intros Hq. unfold trim, trimEnd, trimStart.
  rewrite forallb_rev'. apply forallb_dropWhile.
  rewrite forallb_rev'. apply forallb_dropWhile, Hq.
Qed.

Lemma find_in {A} (p : A -> bool) (l : list A) (x : A) :
  find p l = Some x -> In x l.
Proof.
  induction l as [| y l IH]; [discriminate |].
  cbn [find]. destruct (p y); [intros [= ->]; left; reflexivity | right; auto].
Qed.

(** The normal form is a single line. *)
Lemma normalized_single_line (text : jsstring) :
  forallb (fun c => negb (isLF c)) (normalized text) = true.
Proof.
  unfold normalized, stripQuoteRuns.
  apply forallb_trim. rewrite forallb_rev'. apply forallb_dropWhile.
  rewrite forallb_rev'. apply forallb_dropWhile, forallb_trim.
  unfold firstNonBlankLine.
  destruct (find _ (splitLines text)) as [line |] eqn:E; [| reflexivity].
  apply find_in in E.
  pose proof (splitLines_no_LF text) as Hall.
  rewrite List.Forall_forall in Hall. apply Hall, E.
Qed.

Lemma dropWhile_idem (p : N -> bool) (l : jsstring) :
  dropWhile p (dropWhile p l) = dropWhile p l.
Proof.
  induction l as [| x l IH]; [reflexivity |].
  cbn [dropWhile]. destruct (p x) eqn:E; [exact IH |].
  cbn [dropWhile]. rewrite E. reflexivity.
Qed.

(** Trimming is idempotent: a trimmed text has no whitespace around it. *)
Lemma trim_idem (s : jsstring) : trim (trim s) = trim s.
Proof.
  unfold trim. set (y := trimStart s).
  assert (Hy : y = [] \/ exists c r, y = c :: r /\ isWhiteSpace c = false).
  { subst y. unfold trimStart. induction s as [| x s IH]; [left; reflexivity |].
    cbn [dropWhile]. destruct (isWhiteSpace x) eqn:E; [exact IH |].
    right. eauto. }
  clearbody y.
  assert (Hs : trimStart (trimEnd y) = trimEnd y).
  { destruct Hy as [-> | (c & r & -> & Hc)]; [reflexivity |].
    unfold trimEnd. cbn [rev]. rewrite dropWhile_snoc_any, Hc.
    destruct (forallb isWhiteSpace (rev r)).
    - cbn. rewrite Hc. reflexivity.
    - rewrite rev_app_distr. cbn [rev app]. unfold trimStart. cbn [dropWhile].
      rewrite Hc. reflexivity. }
  rewrite Hs. unfold trimEnd. rewrite rev_involutive, dropWhile_idem.
  reflexivity.
Qed.

Lemma normalized_trimmed (text : jsstring) :
  trim (normalized text) = normalized text.
Proof. unfold normalized. apply trim_idem. Qed.

End NormalizeFacts.

Section StreamFacts.
Import CodexCli GeneratedMessageSpec.
Context (B : Builtins) (isNotFoundError : Errno -> bool)
  (options : CodexGenerateOptions).

Lemma agentMessageText_spec (event : JSON.value) :
  event <> JSON.Null ->
  agentMessageText event = Ok (completedAgentMessage event).
Proof.
  intros Hn. destruct event as [| b | n | s | items | members];
    try reflexivity; [contradiction |].
  unfold agentMessageText, completedAgentMessage, JSON.get.
  generalize (lit "type") (lit "item") (lit "text") (lit "item.completed")
    (lit "agent_message").
  intros kType kItem kText vCompleted vAgent.
  destruct (JSON.lookup kType members) as [[| | | t | |] |]; try reflexivity.
  destruct (JSON.lookup kItem members) as [[| | | | | item] |];
    destruct (streq t vCompleted); try reflexivity;
    destruct (JSON.lookup kType item) as [[| | | it | |] |]; try reflexivity;
    destruct (streq it vAgent); try reflexivity;
    destruct (JSON.lookup kText item) as [[| | | text | |] |]; reflexivity.
Qed.

Lemma eventsOfLines_cons (line : jsstring) (lines : list jsstring) :
  eventsOfLines B (line :: lines)
    = match (if truthy (trim line) then JSON_parse B (trim line) else None) with
      | Some ev => ev :: eventsOfLines B lines
      | None => eventsOfLines B lines
      end.
Proof. reflexivity. Qed.

Lemma eventsOfLines_app (l1 l2 : list jsstring) :
  eventsOfLines B (l1 ++ l2) = eventsOfLines B l1 ++ eventsOfLines B l2.
Proof. unfold eventsOfLines. apply omap_app. Qed.

(** Over lines none of which parses to [null], the loop does not throw and
    keeps the last completed agent message. *)
Lemma scanLines_spec (lines : list jsstring) (seen : option jsstring) :
  Forall (fun ev => ev <> JSON.Null) (eventsOfLines B lines) ->
  scanLines B lines seen
    = (lastOr seen (omap completedAgentMessage (eventsOfLines B lines)), false).
Proof.
  revert seen. induction lines as [| line lines IH]; intros seen Hall.
  - reflexivity.
  - rewrite eventsOfLines_cons in *. cbn [scanLines].
    destruct (truthy (trim line)); cbn [negb].
    + destruct (JSON_parse B (trim line)) as [ev |].
      * apply Forall_cons in Hall as [Hev Hall].
        rewrite (agentMessageText_spec ev Hev). cbn [omap list_omap].
        destruct (completedAgentMessage ev) as [text |].
        -- rewrite (IH _ Hall). unfold lastOr. rewrite last_cons.
           destruct (last _); reflexivity.
        -- apply IH, Hall.
      * apply IH, Hall.
    + apply IH, Hall.
Qed.

Lemma reading_initial : reading B initialState [].
Proof. exists [], []. repeat split. Qed.

(** The complete lines of what was written so far stay lines of the
    stream, whatever is written later. *)
Lemma complete_lines_prefix (T R b : jsstring) (ls : list jsstring) :
  pop (splitLines T) = (Some b, ls) ->
  streamEvents B (T ++ R)
    = eventsOfLines B ls ++ eventsOfLines B (splitLines (b ++ R)).
Proof.
  intros Hp. unfold streamEvents.
  rewrite (splitLines_app T R b ls Hp). apply eventsOfLines_app.
Qed.

Lemma reading_stdout (st : RunState) (T c R : jsstring) (path : jsstring) :
  reading B st T ->
  noNull (streamEvents B ((T ++ c) ++ R)) ->
  reading B (handle B isNotFoundError options path (StdoutData c) st) (T ++ c).
Proof.
  intros (b & ls & Hpop & Hbuf & Hlast & Hs & Hp & Hu) Hnn.
  destruct (pop_splitLines (b ++ c)) as (b' & ls' & Hp').
  assert (Hpop' : pop (splitLines (T ++ c)) = (Some b', ls ++ ls')).
  { rewrite (splitLines_app T c b ls Hpop), (pop_inv _ _ _ Hp'), app_assoc.
    apply pop_snoc. }
  rewrite (complete_lines_prefix (T ++ c) R b' (ls ++ ls') Hpop') in Hnn.
  apply Forall_app in Hnn as [Hnn _].
  rewrite eventsOfLines_app in Hnn. apply Forall_app in Hnn as [_ Hnn'].
  exists b', (ls ++ ls'). split; [exact Hpop' |].
  cbn [handle]. unfold processStdoutLines. rewrite Hbuf, Hp'.
  rewrite (scanLines_spec ls' _ Hnn'). cbn.
  repeat split; try assumption.
  - rewrite Hlast, eventsOfLines_app, omap_app, last_app. reflexivity.
  - rewrite Hu. reflexivity.
Qed.

Lemma reading_stderr (st : RunState) (T c : jsstring) (path : jsstring) :
  reading B st T ->
  reading B (handle B isNotFoundError options path (StderrData c) st) T.
Proof.
  intros (b & ls & H). exists b, ls. exact H.
Qed.

(** Chunk boundaries do not matter: after any sequence of writes, the
    buffer holds the last piece of everything written, and the message
    remembered is the last completed one among the complete lines.  [R] is
    what the child writes afterwards. *)
Lemma reading_writes (events : list ProcEvent) (st : RunState)
  (T R path : jsstring) :
  reading B st T ->
  forallb isOutput events = true ->
  noNull (streamEvents B ((T ++ stdoutOf events) ++ R)) ->
  reading B (runEvents B isNotFoundError options path events st)
    (T ++ stdoutOf events).
Proof.
  revert st T. induction events as [| ev events IH]; intros st T Hr Ho Hnn.
  - unfold stdoutOf. simpl. rewrite app_nil_r. exact Hr.
  - cbn [forallb] in Ho. apply andb_prop in Ho as [Hev Ho].
    cbn [runEvents fold_left]. destruct ev; try discriminate.
    + change (stdoutOf (StdoutData chunk :: events))
        with (chunk ++ stdoutOf events) in *.
      rewrite (app_assoc T) in *.
      apply (IH _ (T ++ chunk)); [| exact Ho | exact Hnn].
      apply (reading_stdout st T chunk (stdoutOf events ++ R)).
      * exact Hr.
      * rewrite app_assoc. exact Hnn.
    + change (stdoutOf (StderrData chunk :: events)) with (stdoutOf events) in *.
      apply (IH _ T); [| exact Ho | exact Hnn].
      apply reading_stderr, Hr.
Qed.

Lemma reading_runEvents (events : list ProcEvent) (st : RunState)
  (T path : jsstring) :
  reading B st T ->
  forallb isOutput events = true ->
  noNull (streamEvents B (T ++ stdoutOf events)) ->
  reading B (runEvents B isNotFoundError options path events st)
    (T ++ stdoutOf events).
Proof.
  intros Hr Ho Hnn. apply (reading_writes events st T []); [assumption .. |].
  rewrite app_nil_r. exact Hnn.
Qed.

(** The expiry of the timer touches neither the buffer nor the message. *)
Lemma reading_timer (st : RunState) (T path : jsstring) :
  reading B st T ->
  reading B (handle B isNotFoundError options path TimerExpires st) T.
Proof.
  intros (b & ls & H). exists b, ls. cbn [handle].
  destruct (timerArmed st); exact H.
Qed.

Lemma eventsOfLines_trim (b b' : jsstring) :
  trim b' = trim b -> eventsOfLines B [b'] = eventsOfLines B [b].
Proof. intros E. unfold eventsOfLines. simpl. rewrite E. reflexivity. Qed.

Lemma normalized_nil : normalized [] = [].
Proof. reflexivity. Qed.

(** Writes leave the timer as it is. *)
Lemma outputs_frame (events : list ProcEvent) (st : RunState) (path : jsstring) :
  forallb isOutput events = true ->
  timedOut (runEvents B isNotFoundError options path events st) = timedOut st
  /\ timerArmed (runEvents B isNotFoundError options path events st)
     = timerArmed st.
Proof.
  revert st. induction events as [| ev events IH]; intros st Ho; [auto |].
  cbn [forallb] in Ho. apply andb_prop in Ho as [Hev Ho].
  unfold runEvents in *. cbn [fold_left].
  destruct (IH (handle B isNotFoundError options path ev st) Ho) as [-> ->].
  destruct ev; try discriminate; [| auto].
  cbn [handle]. unfold processStdoutLines.
  destruct (pop _) as [lastPiece lines]. destruct (scanLines _ _ _). auto.
Qed.

(** The flush of the close handler, after a stream without [null] was
    read: it does not throw, and the message remembered after it is the
    last completed agent message of the whole stream. *)
Lemma close_flush (st : RunState) (T : jsstring) (exitCode : option Z) :
  reading B st T ->
  noNull (streamEvents B T) ->
  exists st1,
    onCloseSettled B options exitCode (markSettled st)
      = classifyClose B options exitCode st1
    /\ lastAgentMessage st1 = lastCompletedAgentMessage B T
    /\ timedOut st1 = timedOut st
    /\ promise st1 = None.
Proof.
  intros (b & ls & Hpop & Hbuf & Hlast & Hs & Hp & Hu) Hnn.
  pose proof (pop_inv _ _ _ Hpop) as Hsl.
  pose proof (last_piece_single T b ls Hpop) as Hpiece.
  unfold lastCompletedAgentMessage, streamEvents in *. rewrite Hsl in *.
  rewrite eventsOfLines_app in *. apply Forall_app in Hnn as [_ Hnb].
  rewrite omap_app, last_app, <- Hlast.
  unfold onCloseSettled.
  change (stdoutBuffer (markSettled st)) with (stdoutBuffer st). rewrite Hbuf.
  destruct (0 <? len (trim b)) eqn:Eb.
  - destruct (splitLines_flush b Hpiece) as (b' & Hfl & Hcase).
    assert (Htrim : trim b' = trim b).
    { destruct Hcase as [-> | ->]; [reflexivity |].
      symmetry. apply trim_snoc_ws. reflexivity. }
    unfold processStdoutLines.
    change (stdoutBuffer (markSettled st)) with (stdoutBuffer st).
    rewrite Hbuf, Hfl. cbn [pop].
    change (lastAgentMessage (markSettled st)) with (lastAgentMessage st).
    rewrite <- (eventsOfLines_trim b b' Htrim) in Hnb |- *.
    rewrite (scanLines_spec [b'] _ Hnb).
    eexists. split; [reflexivity |]. cbn. auto.
  - exists (markSettled st). split; [reflexivity |].
    assert (Hev : eventsOfLines B [b] = []).
    { unfold eventsOfLines. simpl. rewrite truthy_len, Eb. reflexivity. }
    rewrite Hev. cbn. auto.
Qed.

(** A close with exit code 0 after the stream was read: the promise is
    resolved with the normal form of the last completed agent message. *)
Lemma close_resolves (st : RunState) (T path m : jsstring) :
  reading B st T ->
  timedOut st = false ->
  noNull (streamEvents B T) ->
  lastCompletedAgentMessage B T = Some m ->
  normalized m <> [] ->
  promise (handle B isNotFoundError options path (CloseEvent (Some 0)) st)
    = Some (Ok (normalized m)).
Proof.
  intros Hr Ht Hnn Hm Hne.
  destruct (close_flush st T (Some 0) Hr Hnn) as (st' & Hflush & Hl' & Ht' & Hp').
  destruct Hr as (b & ls & _ & _ & _ & Hs & _).
  cbn [handle]. rewrite Hs, Hflush. rewrite Hm in Hl'. rewrite Ht in Ht'.
  unfold classifyClose.
  set (st1 := if 0 <? len (trim (stderrRaw st')) then _ else st').
  assert (H1 : timedOut st1 = false /\ promise st1 = None
                /\ lastAgentMessage st1 = Some m)
    by (subst st1; destruct (0 <? len (trim (stderrRaw st'))); simpl; auto).
  clearbody st1. destruct H1 as (Ht1 & Hp1 & Hl1).
  set (st2 := if 0 <? len (trim (stdoutRaw st1)) then _ else st1).
  assert (H2 : timedOut st2 = false /\ promise st2 = None
                /\ lastAgentMessage st2 = Some m)
    by (subst st2; destruct (0 <? len (trim (stdoutRaw st1))); simpl; auto).
  clearbody st2. destruct H2 as (Ht2 & Hp2 & Hl2).
  rewrite Ht2, Hl2. cbn [bool_decide negb].
  rewrite bool_decide_eq_true_2 by reflexivity. cbn [negb].
  rewrite normalizeGeneratedMessage_spec.
  destruct m as [| c m']; [contradiction |]. cbn [truthy negb].
  destruct (normalized (c :: m')) eqn:En; [contradiction |].
  cbn [truthy negb]. unfold withPromise. simpl. rewrite Hp2. reflexivity.
Qed.

End StreamFacts.

(* ===================================================================== *)
(** * Properties of the Codex CLI client *)
(* ===================================================================== *)

Section CandidateFacts.
Import CodexCli CodexCliCandidates.
Context (B : Builtins) (options : CodexGenerateOptions) (world : jsstring -> Spawn).

Local Abbreviation run := (runCodexWithCommand B options world).
Local Abbreviation try := (tryCandidates B options world).

Lemma attempted_skip (l l' : list LogLine) (p : jsstring) :
  attempted (l ++ LogCandidateNotAvailable p :: l') = attempted l ++ attempted l'.
Proof. unfold attempted. rewrite omap_app. reflexivity. Qed.

(** Every run logs its command first and no other command. *)
Lemma attempted_run (path : jsstring) : attempted (fst (run path)) = [path].
Proof.
  unfold runCodexWithCommand.
  destruct (world path) as [e | events]; [reflexivity |].
  simpl. f_equal.
  set (st0 := initialState).
  assert (H0 : attempted (log st0) = []) by reflexivity.
  clearbody st0. revert st0 H0.
  induction events as [| ev events IH]; intros st0 H0; [exact H0 |].
  simpl. apply IH.
  destruct ev; simpl; try exact H0.
  - unfold processStdoutLines.
    destruct (pop _) as [lastPiece lines]. destruct (scanLines _ _ _). exact H0.
  - destruct (settled st0); [exact H0 |].
    unfold onErrorSettled. destruct (isNotFoundLikeSpawnError e); exact H0.
  - destruct (settled st0); [exact H0 |].
    unfold onCloseSettled.
    assert (Hflush : forall st, attempted (log st) = [] ->
              attempted (log (fst (processStdoutLines B newline st))) = []).
    { intros st Hst. unfold processStdoutLines.
      destruct (pop _) as [lastPiece lines]. destruct (scanLines _ _ _). exact Hst. }
    assert (Hclass : forall st, attempted (log st) = [] ->
              attempted (log (classifyClose B options exitCode st)) = []).
    { intros st Hst. unfold classifyClose.
      set (st1 := if 0 <? len (trim (stderrRaw st)) then _ else st).
      assert (H1 : attempted (log st1) = []).
      { subst st1. destruct (0 <? len (trim (stderrRaw st))); [| exact Hst].
        simpl. unfold attempted in *. rewrite omap_app, Hst. reflexivity. }
      clearbody st1.
      set (st2 := if 0 <? len (trim (stdoutRaw st1)) then _ else st1).
      assert (H2 : attempted (log st2) = []).
      { subst st2. destruct (0 <? len (trim (stdoutRaw st1))); [| exact H1].
        simpl. unfold attempted in *. rewrite omap_app, H1. reflexivity. }
      clearbody st2.
      destruct (timedOut st2); [exact H2 |].
      destruct (negb _).
      - destruct (isModelAccessError _ _); exact H2.
      - destruct (lastAgentMessage st2) as [msg |]; [| exact H2].
        destruct (negb (truthy msg)); [exact H2 |].
        destruct (negb (truthy _)); exact H2. }
    destruct (0 <? len (trim (stdoutBuffer (markSettled st0)))).
    + specialize (Hflush (markSettled st0) H0).
      destruct (processStdoutLines B newline (markSettled st0)) as [st1 threw].
      simpl in Hflush. destruct threw; [exact Hflush | apply Hclass, Hflush].
    + apply Hclass, H0.
  - destruct (timerArmed st0); [| exact H0].
    simpl. unfold attempted in *. rewrite omap_app, H0. reflexivity.
Qed.

(** The loop stops at the first candidate whose run does not fail with
    [not-found]: that run's settlement is the result, and no later
    candidate is run. *)
Lemma tryCandidates_stops (pre : list jsstring) (c : jsstring)
  (post : list jsstring) (lastNotFoundError : option CodexCliError) :
  Forall (fun p => failsNotFound (snd (run p)) = true) pre ->
  failsNotFound (snd (run c)) = false ->
  snd (try (pre ++ c :: post) lastNotFoundError) = snd (run c)
  /\ attempted (fst (try (pre ++ c :: post) lastNotFoundError)) = pre ++ [c].
Proof.
  intros Hpre Hc. revert lastNotFoundError.
  induction Hpre as [| p pre Hp Hpre IH]; intros lastNotFoundError; simpl.
  - pose proof (attempted_run c) as Ha.
    destruct (run c) as [l r]. simpl in *.
    destruct r as [[m | [e | o]] |]; try (split; [reflexivity | exact Ha]).
    unfold failsNotFound in Hc.
    destruct (code e); try discriminate; (split; [reflexivity | exact Ha]).
  - pose proof (attempted_run p) as Ha.
    destruct (run p) as [l r]. simpl in *.
    destruct r as [[m | [e | o]] |]; try discriminate.
    unfold failsNotFound in Hp.
    destruct (code e); try discriminate.
    specialize (IH (Some e)).
    destruct (try (pre ++ c :: post) (Some e)) as [l' r']. simpl in *.
    destruct IH as [-> IHa]. split; [reflexivity |].
    rewrite attempted_skip, Ha, IHa. reflexivity.
Qed.

(** When every candidate fails with [not-found], all of them are run in
    order, and the error of the last one run is the result; if there is no
    candidate at all, the result is the error remembered before the loop,
    or the error of the statement after it. *)
Lemma tryCandidates_exhausted (cands : list jsstring)
  (lastNotFoundError : option CodexCliError) :
  Forall (fun p => failsNotFound (snd (run p)) = true) cands ->
  snd (try cands lastNotFoundError)
    = match last cands with
      | Some c => snd (run c)
      | None => snd (try [] lastNotFoundError)
      end
  /\ attempted (fst (try cands lastNotFoundError)) = cands.
Proof.
  intros Hall. revert lastNotFoundError.
  induction Hall as [| p cands Hp Hall IH]; intros lastNotFoundError.
  - simpl. split; [reflexivity |].
    destruct lastNotFoundError; reflexivity.
  - pose proof (attempted_run p) as Ha.
    cbn [tryCandidates].
    destruct (run p) as [l r] eqn:Hrun. simpl in *.
    destruct r as [[m | [e | o]] |]; try discriminate.
    unfold failsNotFound in Hp.
    destruct (code e) eqn:Hcode; try discriminate.
    specialize (IH (Some e)).
    destruct (try cands (Some e)) as [l' r'] eqn:Htry. simpl in *.
    destruct IH as [-> IHa]. split.
    + destruct cands as [| c' cands'].
      * simpl. rewrite Hrun. reflexivity.
      * rewrite last_cons_cons.
        destruct (last (c' :: cands')) eqn:E; [reflexivity |].
        apply last_None in E. discriminate.
    + rewrite attempted_skip, Ha, IHa. reflexivity.
Qed.

End CandidateFacts.

(** C3, as stated, fails: where none of three candidates can be found, the
    error given to the caller is the one of the last candidate run, not the
    one of the first. *)
Lemma candidates_surface_last_error :
  let run := CodexCliCandidates.runCodexWithCommand asciiBuiltins
               exampleOptions missingWorld in
  let cands := CodexCliCandidates.buildCommandCandidates asciiBuiltins
                 windowsHost (CodexCli.commandPath exampleOptions) in
  let surfaced := snd (CodexCliCandidates.generateCommitMessageWithCodex
                         asciiBuiltins windowsHost exampleOptions missingWorld) in
  cands = [lit "codex";
           lit "C:\Users\dev\AppData\Roaming\npm\codex";
           lit "C:\Users\dev\AppData\Roaming\npm\codex.exe"]
  /\ Forall (fun p => CodexCliCandidates.failsNotFound (snd (run p)) = true) cands
  /\ surfaced = snd (run (lit "C:\Users\dev\AppData\Roaming\npm\codex.exe"))
  /\ surfaced <> snd (run (lit "codex")).
Proof.
  intros run cands surfaced.
  assert (Hc : cands = [lit "codex";
                        lit "C:\Users\dev\AppData\Roaming\npm\codex";
                        lit "C:\Users\dev\AppData\Roaming\npm\codex.exe"])
    by (vm_compute; reflexivity).
  split; [exact Hc |]. split; [| split].
  - rewrite Hc. repeat constructor.
  - vm_compute. reflexivity.
  - vm_compute. discriminate.
Qed.

(** C3, amended.  Over any list of candidates the loop goes on to the next
    candidate only after a failure of kind [not-found].  The first
    candidate whose run ends in any other way (a message, an error of
    another kind, or no settlement) ends the attempt with that run's
    outcome, and no later candidate is run.  If every candidate fails with
    [not-found], every candidate has been run, in order, and the error
    given to the caller is the [not-found] error of the last of them. *)
Theorem candidates_fall_through
  (B : Builtins) (options : CodexCli.CodexGenerateOptions)
  (world : jsstring -> CodexCli.Spawn) (cands : list jsstring) :
  let run := CodexCliCandidates.runCodexWithCommand B options world in
  let outcome := CodexCliCandidates.tryCandidates B options world cands None in
  (forall pre c post,
      cands = pre ++ c :: post ->
      Forall (fun p => CodexCliCandidates.failsNotFound (snd (run p)) = true) pre ->
      CodexCliCandidates.failsNotFound (snd (run c)) = false ->
      snd outcome = snd (run c)
      /\ CodexCliCandidates.attempted (fst outcome) = pre ++ [c])
  /\ (Forall (fun p => CodexCliCandidates.failsNotFound (snd (run p)) = true) cands ->
      CodexCliCandidates.attempted (fst outcome) = cands
      /\ forall c, last cands = Some c -> snd outcome = snd (run c)).
Proof.
  intros run outcome. split.
  - intros pre c post -> Hpre Hc.
    apply (tryCandidates_stops B options world pre c post None Hpre Hc).
  - intros Hall.
    destruct (tryCandidates_exhausted B options world cands None Hall) as [Hr Ha].
    split; [exact Ha |].
    intros c Hlast. subst outcome. rewrite Hr, Hlast. reflexivity.
Qed.

Lemma candidates_fall_through_witness :
  let run := CodexCliCandidates.runCodexWithCommand asciiBuiltins
               exampleOptions fallbackWorld in
  let cands := [lit "codex";
                lit "C:\Users\dev\AppData\Roaming\npm\codex";
                lit "C:\Users\dev\AppData\Roaming\npm\codex.exe"] in
  let outcome := CodexCliCandidates.tryCandidates asciiBuiltins exampleOptions
                   fallbackWorld cands None in
  Forall (fun p => CodexCliCandidates.failsNotFound (snd (run p)) = true)
    [lit "codex"; lit "C:\Users\dev\AppData\Roaming\npm\codex"]
  /\ CodexCliCandidates.failsNotFound
       (snd (run (lit "C:\Users\dev\AppData\Roaming\npm\codex.exe"))) = false
  /\ snd outcome = Some (Ok (lit "fix: bar"))
  /\ CodexCliCandidates.attempted (fst outcome) = cands.
Proof.
  intros run cands outcome.
  assert (Hpre : Forall (fun p => CodexCliCandidates.failsNotFound (snd (run p)) = true)
                   [lit "codex"; lit "C:\Users\dev\AppData\Roaming\npm\codex"]).
  { constructor; [vm_compute; reflexivity |].
    constructor; [vm_compute; reflexivity | constructor]. }
  assert (Hc : CodexCliCandidates.failsNotFound
                 (snd (run (lit "C:\Users\dev\AppData\Roaming\npm\codex.exe"))) = false)
    by (vm_compute; reflexivity).
  split; [exact Hpre |]. split; [exact Hc |].
  destruct (proj1 (candidates_fall_through asciiBuiltins exampleOptions
                     fallbackWorld cands)
              [lit "codex"; lit "C:\Users\dev\AppData\Roaming\npm\codex"]
              (lit "C:\Users\dev\AppData\Roaming\npm\codex.exe") []
              eq_refl Hpre Hc) as [Hs Ha].
  split; [| exact Ha].
  fold run in Hs. fold outcome in Hs. rewrite Hs. vm_compute. reflexivity.
Defined.

Section CloseFacts.
Import CodexCli.
Context (B : Builtins) (isNotFoundError : Errno -> bool)
  (options : CodexGenerateOptions).

(** What [processStdoutLines] leaves as it was. *)
Lemma processStdoutLines_frame (chunk : jsstring) (st : RunState) :
  let r := processStdoutLines B chunk st in
  timedOut (fst r) = timedOut st
  /\ settled (fst r) = settled st
  /\ timerArmed (fst r) = timerArmed st
  /\ promise (fst r) = promise st
  /\ stderrRaw (fst r) = stderrRaw st
  /\ stdoutRaw (fst r) = stdoutRaw st ++ chunk
  /\ log (fst r) = log st
  /\ uncaught (fst r) = (uncaught st || snd r)%bool.
Proof.
  unfold processStdoutLines.
  destruct (pop _) as [lastPiece lines]. destruct (scanLines _ _ _) as [l t].
  simpl. repeat split.
Qed.

Lemma classifyClose_timedOut (exitCode : option Z) (st : RunState) :
  timedOut st = true -> promise st = None ->
  exists d,
    promise (classifyClose B options exitCode st)
      = Some (Err (Codex {| code := timeout;
                            message := lit "Codex generation timed out after "
                                       ++ String_of_Z (timeoutMs options)
                                       ++ lit " ms.";
                            details := d |})).
Proof.
  intros Ht Hp. unfold classifyClose.
  set (st1 := if 0 <? len (trim (stderrRaw st)) then _ else st).
  assert (H1 : timedOut st1 = true /\ promise st1 = None)
    by (subst st1; destruct (0 <? len (trim (stderrRaw st))); simpl; auto).
  clearbody st1. destruct H1 as [Ht1 Hp1].
  set (st2 := if 0 <? len (trim (stdoutRaw st1)) then _ else st1).
  assert (H2 : timedOut st2 = true /\ promise st2 = None)
    by (subst st2; destruct (0 <? len (trim (stdoutRaw st1))); simpl; auto).
  clearbody st2. destruct H2 as [Ht2 Hp2].
  rewrite Ht2. exists None. unfold reject, withPromise. simpl. rewrite Hp2.
  reflexivity.
Qed.

(** Where the flush of the buffer returns, a close after the timer has
    expired rejects with [timeout], whatever was written, whatever the exit
    code, and whether or not an agent message was seen. *)
Lemma close_after_timeout (path : jsstring) (exitCode : option Z) (st : RunState) :
  settled st = false -> timedOut st = true -> promise st = None ->
  uncaught (handle B isNotFoundError options path (CloseEvent exitCode) st)
    = false ->
  exists e,
    promise (handle B isNotFoundError options path (CloseEvent exitCode) st)
      = Some (Err (Codex e))
    /\ code e = timeout.
Proof.
  intros Hs Ht Hp. simpl. rewrite Hs. unfold onCloseSettled.
  destruct (0 <? len (trim (stdoutBuffer (markSettled st)))).
  - pose proof (processStdoutLines_frame newline (markSettled st)) as Hf.
    destruct (processStdoutLines B newline (markSettled st)) as [st1 threw].
    simpl in Hf. destruct Hf as (Ht1 & _ & _ & Hp1 & _ & _ & _ & Hu1).
    rewrite Ht in Ht1. rewrite Hp in Hp1.
    destruct threw.
    + intros Hu. rewrite Hu1 in Hu. destruct (uncaught st); discriminate Hu.
    + intros _.
      destruct (classifyClose_timedOut exitCode st1 Ht1 Hp1) as [d Hd].
      eexists. split; [exact Hd | reflexivity].
  - intros _.
    destruct (classifyClose_timedOut exitCode (markSettled st) Ht Hp) as [d Hd].
    eexists. split; [exact Hd | reflexivity].
Qed.

(** A close after the timer has expired, at the end of a stream without
    [null]: the promise is rejected with [timeout]. *)
Lemma close_times_out (st : RunState) (T path : jsstring) (exitCode : option Z) :
  GeneratedMessageSpec.reading B st T ->
  timedOut st = true ->
  GeneratedMessageSpec.noNull (GeneratedMessageSpec.streamEvents B T) ->
  exists e,
    promise (handle B isNotFoundError options path (CloseEvent exitCode) st)
      = Some (Err (Codex e))
    /\ code e = timeout.
Proof.
  intros Hr Ht Hnn.
  destruct (close_flush B options st T exitCode Hr Hnn)
    as (st1 & Hflush & _ & Ht1 & Hp1).
  destruct Hr as (b & ls & _ & _ & _ & Hs & _).
  cbn [handle]. rewrite Hs, Hflush. rewrite Ht in Ht1.
  destruct (classifyClose_timedOut exitCode st1 Ht1 Hp1) as [d Hd].
  eexists. split; [exact Hd | reflexivity].
Qed.

(** X18 (the timeout of [runCodexWithCommand]).  The claim about the
    timeout, where it holds.  The child writes
    anything but a line that is the value [null], in any chunks, before and
    after the timer expires; when it then closes, with whatever exit code
    and whether or not an agent message was completed, the client fails
    with [timeout]. *)
Lemma timeout_rejects (before after : list ProcEvent) (exitCode : option Z)
  (path : jsstring) :
  forallb GeneratedMessageSpec.isOutput before = true ->
  forallb GeneratedMessageSpec.isOutput after = true ->
  GeneratedMessageSpec.noNull
    (GeneratedMessageSpec.streamEvents B
       (GeneratedMessageSpec.stdoutOf before
        ++ GeneratedMessageSpec.stdoutOf after)) ->
  exists e,
    promise (runEvents B isNotFoundError options path
               (before ++ TimerExpires :: after ++ [CloseEvent exitCode])
               initialState)
      = Some (Err (Codex e))
    /\ code e = timeout.
Proof.
  intros Hb Ha Hnn.
  unfold runEvents. rewrite fold_left_app. cbn [fold_left].
  rewrite fold_left_app. cbn [fold_left].
  fold (runEvents B isNotFoundError options path before initialState).
  set (st1 := runEvents B isNotFoundError options path before initialState).
  assert (Hr1 : GeneratedMessageSpec.reading B st1
                  ([] ++ GeneratedMessageSpec.stdoutOf before)).
  { apply (reading_writes B isNotFoundError options before initialState []
             (GeneratedMessageSpec.stdoutOf after));
      [apply reading_initial | exact Hb | exact Hnn]. }
  destruct (outputs_frame B isNotFoundError options before initialState path Hb)
    as [_ Ha1]. fold st1 in Ha1. cbn in Ha1, Hr1.
  set (st2 := handle B isNotFoundError options path TimerExpires st1).
  assert (Hr2 : GeneratedMessageSpec.reading B st2
                  (GeneratedMessageSpec.stdoutOf before))
    by apply reading_timer, Hr1.
  assert (Ht2 : timedOut st2 = true)
    by (subst st2; cbn [handle]; rewrite Ha1; reflexivity).
  fold (runEvents B isNotFoundError options path after st2).
  set (st3 := runEvents B isNotFoundError options path after st2).
  apply (close_times_out st3
           (GeneratedMessageSpec.stdoutOf before
            ++ GeneratedMessageSpec.stdoutOf after)).
  - apply reading_runEvents; assumption.
  - destruct (outputs_frame B isNotFoundError options after st2 path Ha)
      as [Ht3 _]. fold st3 in Ht3. rewrite Ht3. exact Ht2.
  - exact Hnn.
Qed.

End CloseFacts.

(** C6, on the input where the code departs from it.  The child writes the
    four characters [null] without a line end, the timer expires and kills
    it, and it closes.  The close handler flushes the buffer first; the
    flushed line parses to [null], reading [event.type] throws, and the
    handler is left before the test of [timedOut]: the promise is never
    rejected, and the run is marked settled, so nothing settles it
    later.  Both clients behave so.  Where the flush returns, the claim
    holds: see [close_after_timeout] and [timeout_rejects]. *)
Theorem timeout_lost_when_flush_throws :
  let events := [CodexCli.StdoutData (lit "null");
                 CodexCli.TimerExpires;
                 CodexCli.CloseEvent None] in
  let final := CodexCli.runEvents asciiBuiltins CodexCli.isENOENT exampleOptions
                 (CodexCli.commandPath exampleOptions) events
                 CodexCli.initialState in
  CodexCli.timedOut final = true
  /\ CodexCli.killed final = true
  /\ CodexCli.settled final = true
  /\ CodexCli.uncaught final = true
  /\ CodexCli.promise final = None
  /\ snd (CodexCli.generateCommitMessageWithCodex asciiBuiltins exampleOptions
            (CodexCli.Spawned events)) = None
  /\ snd (CodexCliCandidates.generateCommitMessageWithCodex asciiBuiltins
            posixHost exampleOptions (fun _ => CodexCli.Spawned events)) = None.
Proof. vm_compute. repeat split. Qed.

(** C7, as stated, fails: the client does not stop at one layer of quote
    characters.  A completed agent message whose text is [fix: bar] inside
    two double quotes at each end is resolved as [fix: bar]; with one
    layer stripped, two quote characters would be left around it.  The
    replacement of [normalizeGeneratedMessage] takes every quote character
    at either end. *)
Lemma agent_message_loses_every_layer :
  let line := jsonText
    "{'type':'item.completed','item':{'type':'agent_message','text':'\'\'fix: bar\'\''}}" in
  let events := [CodexCli.StdoutData (line ++ newline)] in
  let m := jsonText "''fix: bar''" in
  GeneratedMessageSpec.lastCompletedAgentMessage asciiBuiltins
    (GeneratedMessageSpec.stdoutOf events) = Some m
  /\ GeneratedMessageSpec.normalizedAsWorded m = jsonText "'fix: bar'"
  /\ snd (CodexCli.generateCommitMessageWithCodex asciiBuiltins exampleOptions
            (CodexCli.Spawned (events ++ [CodexCli.CloseEvent (Some 0)])))
     = Some (Ok (lit "fix: bar"))
  /\ CodexCli.normalizeGeneratedMessage m = lit "fix: bar"
  /\ CodexCli.normalizeGeneratedMessage m
     <> GeneratedMessageSpec.normalizedAsWorded m.
Proof.
  cbv zeta. split; [vm_compute; reflexivity |].
  split; [vm_compute; reflexivity |]. split; [vm_compute; reflexivity |].
  split; [vm_compute; reflexivity |]. vm_compute. discriminate.
Qed.

(** C7, amended.  Let the child write, in chunks cut anywhere, a
    newline-delimited stream of JSON events (none of them the value
    [null]) whose last completed agent message has the text [m], and then
    close with exit code 0.  If the normal form of [m] is not empty, the
    client resolves with exactly that normal form: the first non-blank
    line of [m], with its surrounding whitespace stripped, every quote
    character it then starts with and every quote character it then ends
    with stripped (the whole run at each end, of whatever kinds, and not
    one layer only), and the whitespace that was inside the quotes
    stripped.  [normalizeGeneratedMessage] computes that normal form for
    every text, and the normal form is a single line without whitespace
    around it. *)
Theorem agent_message_normalized
  (B : Builtins) (options : CodexCli.CodexGenerateOptions)
  (events : list CodexCli.ProcEvent) (m : jsstring) :
  forallb GeneratedMessageSpec.isOutput events = true ->
  GeneratedMessageSpec.noNull
    (GeneratedMessageSpec.streamEvents B (GeneratedMessageSpec.stdoutOf events)) ->
  GeneratedMessageSpec.lastCompletedAgentMessage B
    (GeneratedMessageSpec.stdoutOf events) = Some m ->
  GeneratedMessageSpec.normalized m <> [] ->
  snd (CodexCli.generateCommitMessageWithCodex B options
         (CodexCli.Spawned (events ++ [CodexCli.CloseEvent (Some 0)])))
    = Some (Ok (GeneratedMessageSpec.normalized m))
  /\ (forall world path,
        world path = CodexCli.Spawned (events ++ [CodexCli.CloseEvent (Some 0)]) ->
        snd (CodexCliCandidates.runCodexWithCommand B options world path)
          = Some (Ok (GeneratedMessageSpec.normalized m)))
  /\ (forall raw,
        CodexCli.normalizeGeneratedMessage raw
          = GeneratedMessageSpec.normalized raw
        /\ forallb (fun c => negb (isLF c))
             (CodexCli.normalizeGeneratedMessage raw) = true
        /\ trim (CodexCli.normalizeGeneratedMessage raw)
           = CodexCli.normalizeGeneratedMessage raw).
Proof.
  intros Ho Hnn Hm Hne.
  assert (Hrun : forall isNotFoundError path,
             CodexCli.promise
               (CodexCli.runEvents B isNotFoundError options path
                  (events ++ [CodexCli.CloseEvent (Some 0)])
                  CodexCli.initialState)
             = Some (Ok (GeneratedMessageSpec.normalized m))).
  { intros isNotFoundError path.
    unfold CodexCli.runEvents. rewrite fold_left_app. cbn [fold_left].
    apply (close_resolves B isNotFoundError options _
             (GeneratedMessageSpec.stdoutOf events)); try assumption.
    - apply (reading_runEvents B isNotFoundError options events
               CodexCli.initialState []);
        [apply reading_initial | exact Ho | exact Hnn].
    - apply (outputs_frame B isNotFoundError options events
               CodexCli.initialState path Ho). }
  split; [| split].
  - cbn [CodexCli.generateCommitMessageWithCodex snd]. apply Hrun.
  - intros world path Hw. unfold CodexCliCandidates.runCodexWithCommand.
    rewrite Hw. cbn [snd]. apply Hrun.
  - intros raw. rewrite normalizeGeneratedMessage_spec.
    split; [reflexivity |].
    split; [apply normalized_single_line | apply normalized_trimmed].
Qed.

Lemma agent_message_normalized_witness :
  let line := jsonText
    "{'type':'item.completed','item':{'type':'agent_message','text':'  `fix: bar`  \nmore'}}" in
  let events := [CodexCli.StdoutData (jsonText "{'type':'turn.started'}" ++ newline
                                      ++ take 30 line);
                 CodexCli.StderrData (lit "warming up");
                 CodexCli.StdoutData (drop 30 line)] in
  let m := lit "  `fix: bar`  " ++ newline ++ lit "more" in
  GeneratedMessageSpec.lastCompletedAgentMessage asciiBuiltins
    (GeneratedMessageSpec.stdoutOf events) = Some m
  /\ GeneratedMessageSpec.normalized m = lit "fix: bar"
  /\ snd (CodexCli.generateCommitMessageWithCodex asciiBuiltins exampleOptions
            (CodexCli.Spawned (events ++ [CodexCli.CloseEvent (Some 0)])))
     = Some (Ok (lit "fix: bar")).
Proof.
  intros line events m.
  assert (Hm : GeneratedMessageSpec.lastCompletedAgentMessage asciiBuiltins
                 (GeneratedMessageSpec.stdoutOf events) = Some m)
    by (vm_compute; reflexivity).
  assert (Hn : GeneratedMessageSpec.normalized m = lit "fix: bar")
    by (vm_compute; reflexivity).
  split; [exact Hm |]. split; [exact Hn |].
  rewrite <- Hn.
  apply (proj1 (agent_message_normalized asciiBuiltins exampleOptions events m
                  ltac:(vm_compute; reflexivity)
                  ltac:(vm_compute; repeat constructor; discriminate)
                  Hm ltac:(rewrite Hn; discriminate))).
Defined.

(** The quote characters that go: every one at either end, two layers or
    more and of mixed kinds; quote characters that whitespace separates
    from the ends stay, also when the last trim leaves them outermost, and
    a quote character that ends the text goes though none opens it. *)
Example quote_layers :
  CodexCli.normalizeGeneratedMessage (jsonText "''fix: bar''") = lit "fix: bar"
  /\ CodexCli.normalizeGeneratedMessage (jsonText "'`fix: bar`'") = lit "fix: bar"
  /\ CodexCli.normalizeGeneratedMessage (jsonText "' fix: bar '") = lit "fix: bar"
  /\ CodexCli.normalizeGeneratedMessage (jsonText "' `fix: bar` '")
     = lit "`fix: bar`"
  /\ CodexCli.normalizeGeneratedMessage (jsonText "say 'hi'") = jsonText "say 'hi".
Proof. vm_compute. repeat split. Qed.


(* ===================================================================== *)
(** * Properties of the commit-event gate *)
(* ===================================================================== *)

Section GateFacts.
Import Extension.
Context (B : Builtins) (host : Host).

Lemma streq_true (a b : jsstring) : streq a b = true <-> a = b.
Proof. unfold streq. apply bool_decide_eq_true. Qed.

Lemma streq_false (a b : jsstring) : streq a b = false <-> a <> b.
Proof. unfold streq. apply bool_decide_eq_false. Qed.



Lemma trace_finally repository key σ :
  trace (snd (gateFinally B host repository key σ)) = trace σ.
Proof. reflexivity. Qed.

Lemma trace_emit es σ : trace (emit es σ) = trace σ ++ es.
Proof. reflexivity. Qed.

Lemma resolveLatestCommit_head w c :
  getCommit w (lit "HEAD") = Ok c -> resolveLatestCommit w = Some c.
Proof. intros E. unfold resolveLatestCommit. rewrite E. reflexivity. Qed.

Lemma runGate_returned n w σ : runGate B host n w GateReturned σ = (GateReturned, σ).
Proof. destruct n; reflexivity. Qed.

Lemma runGate_step n w t σ :
  t <> GateReturned ->
  runGate B host (S n) w t σ
    = runGate B host n w (fst (gateStep B host (answerFor w t) t σ))
        (snd (gateStep B host (answerFor w t) t σ)).
Proof.
  intros Ht. cbn [runGate].
  destruct t; try contradiction; destruct (gateStep _ _ _ _ _); reflexivity.
Qed.

Ltac gate_leaf :=
  eexists _, _; split; [reflexivity |];
  split; [cbn [trace emit gateFinally gateCatch snd inFlightDelete pendingClear
               inFlightAdd];
          rewrite <- ?app_assoc; reflexivity |].

(** From the resolved commit on: the comparison of the message, the
    comparison of the branch, the push and the end of the call. *)
Lemma check_then_push (w : GateWorld) (repository : GitRepository) (show : bool)
  (pending : PendingGeneratedCommit) (key : jsstring) (c : GitCommit)
  (σ : Store) (n : nat) :
  let settings := getSettings (gateConfiguration w) in
  let r := gateCheck B host repository show pending key settings c (stateHEAD w) σ in
  exists σ' es,
    runGate B host (S n) w (fst r) (snd r) = (GateReturned, σ')
    /\ trace σ' = trace σ ++ es
    /\ (firstLine (message c) = trim (pendingMessage pending)
        /\ currentBranchName w = pushBranch settings ->
        pushCalls es
          = [CallPush repository (pushRemote settings) (pushBranch settings) false])
    /\ (~ (firstLine (message c) = trim (pendingMessage pending)
           /\ currentBranchName w = pushBranch settings) ->
        pushCalls es = []).
Proof.
  intros settings r. subst r. unfold gateCheck. fold (currentBranchName w).
  destruct (streq (firstLine (message c)) (trim (pendingMessage pending)))
    eqn:Emsg; cbn [negb].
  - destruct (streq (currentBranchName w) (pushBranch settings)) eqn:Ebr;
      cbn [negb].
    + cbn [fst snd]. rewrite runGate_step by discriminate.
      cbn [gateStep answerFor pushResult].
      destruct (push w) as [u | e]; cbn [gateFinally gateCatch fst snd];
        rewrite runGate_returned; gate_leaf;
        (split; [intros _; reflexivity |]);
        intros Hn; exfalso; apply Hn;
        apply streq_true in Emsg, Ebr; auto.
    + cbn [fst snd gateFinally]. rewrite runGate_returned. gate_leaf. split.
      * intros [_ Hb]. apply streq_false in Ebr. contradiction.
      * intros _. destruct show; reflexivity.
  - cbn [fst snd gateFinally]. rewrite runGate_returned. gate_leaf. split.
    + intros [Hm _]. apply streq_false in Emsg. contradiction.
    + intros _. destruct show; reflexivity.
Qed.

(** A call of the gate that finds a pending message and the guard free:
    it pushes exactly when message and branch match. *)
Lemma gate_pushes_when_ready (w : GateWorld) (repository : GitRepository)
  (show : bool) (σ : Store) (pending : PendingGeneratedCommit) :
  pendingGet B host repository σ = Some pending ->
  repositoryKey B host repository ∉ pushInFlight σ ->
  exists σ' es,
    handleCommitEvent B host w repository show σ = (GateReturned, σ')
    /\ trace σ' = trace σ ++ es
    /\ (gateMatches w pending -> pushCalls es = [thePush w repository])
    /\ (~ gateMatches w pending -> pushCalls es = []).
Proof.
  intros Hpending Hfree.
  unfold handleCommitEvent. rewrite runGate_step by discriminate.
  cbn [gateStep]. rewrite Hpending, bool_decide_eq_false_2 by exact Hfree.
  cbn [fst snd]. rewrite runGate_step by discriminate.
  cbn [gateStep answerFor commitResult HEAD pushResult configuration].
  unfold gateMatches, resolveLatestCommit, thePush.
  set (settings := getSettings (gateConfiguration w)).
  set (σ1 := emit _ (inFlightAdd _ σ)).
  assert (Hσ1 : trace σ1 = trace σ ++ [CallGetCommit repository (lit "HEAD")])
    by reflexivity.
  clearbody σ1.
  destruct (getCommit w (lit "HEAD")) as [c | e] eqn:Ehead.
  - destruct (check_then_push w repository show pending
                (repositoryKey B host repository) c σ1 1)
      as (σ' & es & Hrun & Htr & Hyes & Hno).
    fold settings in Hrun, Hyes, Hno.
    exists σ', (CallGetCommit repository (lit "HEAD") :: es).
    split; [exact Hrun |]. split; [rewrite Htr, Hσ1, <- app_assoc; reflexivity |].
    split.
    + intros (c' & [= <-] & Hm & Hb). cbn. apply Hyes. auto.
    + intros Hn. cbn. apply Hno. intros [Hm Hb]. apply Hn. exists c. auto.
  - destruct (stateHEAD w) as [[hname [h |]] |] eqn:Ehd; cbn [commit].
    + destruct (truthy h) eqn:Eh.
      * cbn [fst snd]. rewrite runGate_step by discriminate.
        cbn [gateStep answerFor commitResult HEAD pushResult].
        set (σ2 := emit _ σ1).
        assert (Hσ2 : trace σ2 = trace σ ++ [CallGetCommit repository (lit "HEAD");
                                              CallGetCommit repository h]).
        { subst σ2. rewrite trace_emit, Hσ1, <- app_assoc. reflexivity. }
        clearbody σ2.
        destruct (getCommit w h) as [c | e'] eqn:Ehash.
        -- destruct (check_then_push w repository show pending
                       (repositoryKey B host repository) c σ2 0)
             as (σ' & es & Hrun & Htr & Hyes & Hno).
           fold settings in Hrun, Hyes, Hno.
           exists σ', ([CallGetCommit repository (lit "HEAD");
                        CallGetCommit repository h] ++ es).
           split; [exact Hrun |].
           split; [rewrite Htr, Hσ2, <- app_assoc; reflexivity |].
           split.
           ++ intros (c' & [= <-] & Hm & Hb). cbn. apply Hyes. auto.
           ++ intros Hn. cbn. apply Hno. intros [Hm Hb]. apply Hn. exists c. auto.
        -- cbn [gateCatch gateFinally fst snd]. rewrite runGate_returned.
           eexists _, _. split; [reflexivity |].
           split; [cbn [trace inFlightDelete pendingClear];
                   rewrite trace_emit, Hσ2, <- app_assoc; reflexivity |].
           split; [intros (c' & [=] & _) | intros _; reflexivity].
      * cbn [gateFinally fst snd]. rewrite runGate_returned.
        eexists _, _. split; [reflexivity |].
        split; [cbn [trace inFlightDelete pendingClear];
                rewrite trace_emit, Hσ1, <- app_assoc; reflexivity |].
        split; [intros (c' & [=] & _) | intros _; destruct show; reflexivity].
    + cbn [gateFinally fst snd]. rewrite runGate_returned.
      eexists _, _. split; [reflexivity |].
      split; [cbn [trace inFlightDelete pendingClear];
              rewrite trace_emit, Hσ1, <- app_assoc; reflexivity |].
      split; [intros (c' & [=] & _) | intros _; destruct show; reflexivity].
    + cbn [gateFinally fst snd]. rewrite runGate_returned.
      eexists _, _. split; [reflexivity |].
      split; [cbn [trace inFlightDelete pendingClear];
              rewrite trace_emit, Hσ1, <- app_assoc; reflexivity |].
      split; [intros (c' & [=] & _) | intros _; destruct show; reflexivity].
Qed.




(** A call that finds no pending entry, or the guard held, returns at once
    and changes nothing. *)
Lemma gate_noop (a : Answer) (repository : GitRepository) (show : bool) (σ : Store) :
  pendingGet B host repository σ = None
  \/ repositoryKey B host repository ∈ pushInFlight σ ->
  gateStep B host a (GateStart repository show) σ = (GateReturned, σ).
Proof.
  intros Hc. cbn [gateStep].
  destruct (pendingGet B host repository σ) as [p |]; [| reflexivity].
  destruct Hc as [Hc | Hc]; [discriminate |].
  rewrite bool_decide_eq_true_2 by exact Hc. reflexivity.
Qed.

(** C1.  Every call of the gate returns.  A call that finds a pending
    message for the repository and its guard free calls [push] exactly
    when the commit it resolves (the one [HEAD] names, else the one of the
    last known head hash) has a message whose trimmed first line is equal
    to the trimmed pending message and the current branch name is equal to
    the configured target branch.  Then it calls it once, with the
    configured remote and branch and without setting an upstream.  In every
    other case it does not call it: not when the message or the branch
    differs, not when no commit can be resolved, and a call that finds no
    pending message or finds the guard held has no effect at all. *)
Theorem gate_pushes_iff_match (w : GateWorld) (repository : GitRepository)
  (show : bool) (σ : Store) :
  exists σ' es,
    handleCommitEvent B host w repository show σ = (GateReturned, σ')
    /\ trace σ' = trace σ ++ es
    /\ (forall pending,
          pendingGet B host repository σ = Some pending ->
          repositoryKey B host repository ∉ pushInFlight σ ->
          (gateMatches w pending <-> pushCalls es = [thePush w repository])
          /\ (~ gateMatches w pending <-> pushCalls es = []))
    /\ (pendingGet B host repository σ = None
        \/ repositoryKey B host repository ∈ pushInFlight σ ->
        es = []).
Proof.
  destruct (pendingGet B host repository σ) as [p |] eqn:Hp.
  - destruct (decide (repositoryKey B host repository ∈ pushInFlight σ))
      as [Hin | Hout].
    + exists σ, []. unfold handleCommitEvent.
      rewrite runGate_step by discriminate.
      rewrite (gate_noop _ repository show σ) by (right; exact Hin).
      cbn [fst snd]. rewrite runGate_returned, app_nil_r.
      split; [reflexivity |]. split; [reflexivity |].
      split; [intros pending _ Hn; contradiction | reflexivity].
    + destruct (gate_pushes_when_ready w repository show σ p Hp Hout)
        as (σ' & es & Hrun & Htr & Hyes & Hno).
      exists σ', es. split; [exact Hrun |]. split; [exact Htr |].
      split.
      * intros pending [= <-] _.
        assert (Hdec : gateMatches w p \/ ~ gateMatches w p).
        { unfold gateMatches.
          destruct (resolveLatestCommit w) as [c |];
            [| right; intros (c' & [=] & _)].
          destruct (decide (firstLine (message c) = trim (pendingMessage p)))
            as [Hm | Hm];
            [| right; intros (c' & [= <-] & Hm' & _); contradiction].
          destruct (decide (currentBranchName w
                            = pushBranch (getSettings (gateConfiguration w))))
            as [Hb | Hb];
            [left; eauto | right; intros (c' & _ & _ & Hb'); contradiction]. }
        split; split.
        -- exact Hyes.
        -- intros Hpush. destruct Hdec as [Hd | Hd]; [exact Hd |].
           rewrite (Hno Hd) in Hpush. discriminate.
        -- exact Hno.
        -- intros Hnone Hd. rewrite (Hyes Hd) in Hnone. discriminate.
      * intros [Hn | Hin]; [discriminate | contradiction].
  - exists σ, []. unfold handleCommitEvent.
    rewrite runGate_step by discriminate.
    rewrite (gate_noop _ repository show σ) by (left; exact Hp).
    cbn [fst snd]. rewrite runGate_returned, app_nil_r.
    split; [reflexivity |]. split; [reflexivity |].
    split; [intros pending [=] | reflexivity].
Qed.



(** *** Overlapping calls *)

Lemma mayStillPush_holdsGuard k t :
  mayStillPush k t = true -> holdsGuard k t = true.
Proof. destruct t; cbn; auto; discriminate. Qed.

Lemma countIf_app {A} (f : A -> bool) (l1 l2 : list A) :
  countIf f (l1 ++ l2) = (countIf f l1 + countIf f l2)%nat.
Proof. unfold countIf. rewrite List.filter_app, length_app. reflexivity. Qed.

Lemma countIf_cons {A} (f : A -> bool) (x : A) (l : list A) :
  countIf f (x :: l) = ((if f x then 1 else 0) + countIf f l)%nat.
Proof. unfold countIf. cbn. destruct (f x); reflexivity. Qed.

Lemma countIf_le {A} (f g : A -> bool) (l : list A) :
  (forall x, f x = true -> g x = true) -> (countIf f l <= countIf g l)%nat.
Proof.
  intros Hfg. induction l as [| x l IH]; [reflexivity |].
  rewrite !countIf_cons. specialize (Hfg x).
  destruct (f x), (g x); try lia; discriminate (Hfg eq_refl).
Qed.

Lemma pushCount_app k es1 es2 :
  pushCount B host k (es1 ++ es2) = (pushCount B host k es1 + pushCount B host k es2)%nat.
Proof. unfold pushCount. rewrite List.filter_app, length_app. reflexivity. Qed.

Lemma pushCount_emit_none k es σ :
  List.filter (isPushFor B host k) es = [] ->
  pushCount B host k (trace (emit es σ)) = pushCount B host k (trace σ).
Proof.
  intros Hes. rewrite trace_emit, pushCount_app. unfold pushCount at 2.
  rewrite Hes. cbn. lia.
Qed.

Lemma kind_finally k repository key σ es t :
  key = repositoryKey B host repository ->
  holdsGuard k t = streq key k ->
  List.filter (isPushFor B host k) es = [] ->
  SegmentKind B host k t σ GateReturned
    (snd (gateFinally B host repository key (emit es σ))).
Proof.
  intros Hkey Hg Hes. destruct (streq key k) eqn:E.
  - apply streq_true in E. subst k. apply Releases; [exact Hg | reflexivity | |].
    + cbn. rewrite Hkey. apply lookup_delete_eq.
    + cbn [gateFinally snd inFlightDelete pendingClear trace].
      apply pushCount_emit_none, Hes.
  - apply streq_false in E. apply Elsewhere; [exact Hg | reflexivity | | |].
    + cbn. rewrite <- Hkey. apply lookup_delete_ne. exact E.
    + cbn. set_solver.
    + cbn [gateFinally snd inFlightDelete pendingClear trace].
      apply pushCount_emit_none, Hes.
Qed.

Lemma kind_continue k key σ es t t' :
  holdsGuard k t = streq key k -> mayStillPush k t = streq key k ->
  holdsGuard k t' = streq key k -> mayStillPush k t' = streq key k ->
  List.filter (isPushFor B host k) es = [] ->
  SegmentKind B host k t σ t' (emit es σ).
Proof.
  intros Hg Hm Hg' Hm' Hes. destruct (streq key k) eqn:E.
  - apply Continues; [exact Hm | exact Hm' | reflexivity |].
    apply pushCount_emit_none, Hes.
  - apply Elsewhere; [exact Hg | exact Hg' | reflexivity | reflexivity |].
    apply pushCount_emit_none, Hes.
Qed.

Lemma kind_push k repository key settings σ line t :
  key = repositoryKey B host repository ->
  holdsGuard k t = streq key k -> mayStillPush k t = streq key k ->
  SegmentKind B host k t σ (AwaitPush repository key settings)
    (emit [AppendLine line;
           CallPush repository (pushRemote settings) (pushBranch settings) false] σ).
Proof.
  intros Hkey Hg Hm. destruct (streq key k) eqn:E.
  - apply Pushes; [exact Hm | cbn; exact E | reflexivity | reflexivity |].
    rewrite trace_emit, pushCount_app. unfold pushCount at 2. cbn.
    rewrite <- Hkey, E. cbn. lia.
  - apply Elsewhere; [exact Hg | cbn; exact E | reflexivity | reflexivity |].
    apply pushCount_emit_none. cbn. rewrite <- Hkey, E. reflexivity.
Qed.

Lemma kind_check k repository show pending key settings c head σ t :
  key = repositoryKey B host repository ->
  holdsGuard k t = streq key k -> mayStillPush k t = streq key k ->
  let r := gateCheck B host repository show pending key settings c head σ in
  keyOfRepository B host (fst r) /\ SegmentKind B host k t σ (fst r) (snd r).
Proof.
  intros Hkey Hg Hm. unfold gateCheck.
  destruct (negb (streq _ _)).
  { split; [exact I |]. apply kind_finally; [exact Hkey | exact Hg |].
    destruct show; reflexivity. }
  destruct (negb (streq _ _)).
  { split; [exact I |]. apply kind_finally; [exact Hkey | exact Hg |].
    destruct show; reflexivity. }
  split; [exact Hkey |]. apply kind_push; assumption.
Qed.

(** Every segment is of one of the five kinds, for every key. *)
Lemma segment_kind (k : jsstring) (a : Answer) (t : GateTask) (σ : Store) :
  keyOfRepository B host t ->
  keyOfRepository B host (fst (gateStep B host a t σ))
  /\ SegmentKind B host k t σ (fst (gateStep B host a t σ)) (snd (gateStep B host a t σ)).
Proof.
  intros Hk.
  destruct t as [repository show | repository show pending key settings
                 | repository show pending key settings h
                 | repository key settings |]; cbn [gateStep].
  - destruct (pendingGet B host repository σ) as [p |] eqn:Hp;
      [| split; [exact I | apply Elsewhere; reflexivity]].
    destruct (bool_decide _) eqn:Hin;
      [split; [exact I | apply Elsewhere; reflexivity] |].
    apply bool_decide_eq_false in Hin.
    split; [reflexivity |]. cbn [fst snd].
    destruct (streq (repositoryKey B host repository) k) eqn:E.
    + apply streq_true in E. subst k.
      apply Acquires; [reflexivity | cbn; apply streq_true; reflexivity | | | |].
      * rewrite <- not_eq_None_Some. unfold pendingGet in Hp. congruence.
      * exact Hin.
      * cbn. set_solver.
      * apply (pushCount_emit_none _ _ (inFlightAdd _ σ)). reflexivity.
    + apply Elsewhere; [reflexivity | cbn; exact E | reflexivity | |].
      * apply streq_false in E. cbn. set_solver.
      * apply (pushCount_emit_none _ _ (inFlightAdd _ σ)). reflexivity.
  - cbn in Hk. destruct (commitResult a) as [c | e].
    + apply kind_check; [exact Hk | reflexivity | reflexivity].
    + destruct (match HEAD a with Some b => commit b | None => None end)
        as [h |]; [destruct (truthy h) |].
      * split; [exact Hk |]. cbn [fst snd].
        apply (kind_continue k key); reflexivity.
      * split; [exact I |]. apply kind_finally;
          [exact Hk | reflexivity | destruct show; reflexivity].
      * split; [exact I |]. apply kind_finally;
          [exact Hk | reflexivity | destruct show; reflexivity].
  - cbn in Hk. destruct (commitResult a) as [c | e].
    + apply kind_check; [exact Hk | reflexivity | reflexivity].
    + split; [exact I |]. apply kind_finally; [exact Hk | reflexivity |].
      destruct (isRejectedPush e); reflexivity.
  - cbn in Hk. destruct (pushResult a) as [u | e]; (split; [exact I |]).
    + apply kind_finally; [exact Hk | reflexivity | reflexivity].
    + apply kind_finally; [exact Hk | reflexivity |].
      destruct (isRejectedPush e); reflexivity.
  - split; [exact I | apply Elsewhere; reflexivity].
Qed.

Lemma onePush_step (k : jsstring) (n0 : nat) (sys sys' : list GateTask * Store) :
  sysStep B host sys sys' -> onePush B host k n0 sys -> onePush B host k n0 sys'.
Proof.
  intros Hstep Hinv.
  destruct Hstep as [ts σ repository show | l1 t l2 σ a t' σ' Hs];
    unfold onePush in *; cbn [fst snd] in *;
    destruct Hinv as (Hwf & Hone & Hguard & Hcount).
  - split; [apply Forall_app; split; [exact Hwf | repeat constructor] |].
    rewrite !countIf_app. cbn. rewrite !Nat.add_0_r. auto.
  - apply Forall_app in Hwf as [Hwf1 Hwf2].
    apply Forall_cons in Hwf2 as [Hwft Hwf2].
    destruct (segment_kind k a t σ Hwft) as [Hwft' Hkind].
    rewrite Hs in Hwft', Hkind. cbn [fst snd] in Hwft', Hkind.
    split; [apply Forall_app; split; [exact Hwf1 | constructor; assumption] |].
    rewrite !countIf_app, !countIf_cons in *.
    pose proof (countIf_le (mayStillPush k) (holdsGuard k) l1
                  (mayStillPush_holdsGuard k)) as Hle1.
    pose proof (countIf_le (mayStillPush k) (holdsGuard k) l2
                  (mayStillPush_holdsGuard k)) as Hle2.
    assert (Hf : forall u, holdsGuard k u = false -> mayStillPush k u = false).
    { intros u Hu. destruct (mayStillPush k u) eqn:E; [| reflexivity].
      rewrite (mayStillPush_holdsGuard k u E) in Hu. discriminate. }
    destruct Hkind as [Hg Hg' Hp Hin Hpc | Hg Hm' Hp Hout Hin' Hpc
                       | Hm Hm' Hin Hpc | Hm Hg' Hm' Hin Hpc | Hg Hg' Hp Hpc].
    + rewrite Hg, (Hf t Hg) in *. rewrite Hg', (Hf t' Hg'), Hpc, Hp, Hin. auto.
    + rewrite Hg, (Hf t Hg) in *.
      rewrite Hm', (mayStillPush_holdsGuard k t' Hm'), Hpc.
      assert (Hz : (countIf (holdsGuard k) l1 + (0 + countIf (holdsGuard k) l2)
                    = 0)%nat).
      { destruct (countIf (holdsGuard k) l1
                  + (0 + countIf (holdsGuard k) l2))%nat eqn:E; [reflexivity |].
        exfalso. apply Hout, Hguard. lia. }
      split; [lia |]. split; [intros _; exact Hin' |].
      destruct Hcount as [Hc | (Hc & _ & Hnone)]; [left; exact Hc |].
      rewrite (Hnone Hz) in Hp. destruct Hp as [x Hx]. discriminate.
    + rewrite Hm, (mayStillPush_holdsGuard k t Hm) in *.
      rewrite Hm', (mayStillPush_holdsGuard k t' Hm'), Hpc, Hin.
      split; [exact Hone |]. split; [exact Hguard |].
      destruct Hcount as [Hc | (_ & Hz & _)]; [left; exact Hc | lia].
    + rewrite Hm, (mayStillPush_holdsGuard k t Hm) in *.
      rewrite Hm', Hg', Hpc, Hin.
      split; [exact Hone |]. split; [exact Hguard |].
      destruct Hcount as [Hc | (_ & Hz & _)]; [| lia].
      right. split; [lia |]. split; lia.
    + rewrite Hg in *. rewrite Hg', (Hf t' Hg'), Hpc, Hp.
      split; [lia |]. split; [lia |].
      destruct Hcount as [Hc | (Hc & Hz & _)]; [left; exact Hc |].
      right. split; [exact Hc |]. split; [| reflexivity].
      destruct (mayStillPush k t); lia.
Qed.

(** What the scheduler function does are steps of the relation. *)
Lemma happen_sysStep (sys : list GateTask * Store) (h : Happening) :
  rtc (sysStep B host) sys (happen B host sys h).
Proof.
  destruct sys as [ts σ]. destruct h as [repository show | i a]; cbn [happen].
  - apply rtc_once, NotifyCommit.
  - destruct (ts !! i) as [t |] eqn:Ht; [| apply rtc_refl].
    destruct (gateStep B host a t σ) as [t' σ'] eqn:Hs.
    apply rtc_once.
    rewrite <- (take_drop_middle ts i t Ht) at 1.
    rewrite (insert_take_drop ts i t') by (apply lookup_lt_Some in Ht; exact Ht).
    apply (RunSegment B host _ t _ σ a t' σ' Hs).
Qed.

Lemma happenAll_rtc (hs : list Happening) (sys : list GateTask * Store) :
  rtc (sysStep B host) sys (happenAll B host hs sys).
Proof.
  revert sys. induction hs as [| h hs IH]; intros sys; [apply rtc_refl |].
  cbn [happenAll fold_left]. eapply rtc_trans; [apply happen_sysStep | apply IH].
Qed.

Lemma onePush_rtc (k : jsstring) (n0 : nat) (sys sys' : list GateTask * Store) :
  rtc (sysStep B host) sys sys' -> onePush B host k n0 sys -> onePush B host k n0 sys'.
Proof.
  induction 1 as [sys | sys mid sys' Hstep Hrtc IH]; intros Hinv; [exact Hinv |].
  apply IH, (onePush_step k n0 sys mid Hstep Hinv).
Qed.

(** C8.  A commit notification that arrives while the guard of its
    repository is held returns without any effect.  And however many
    commit notifications arrive, and in whatever order the segments of
    their calls run and whatever the repository answers, [push] is called
    at most once for a repository key. *)
Theorem duplicate_notifications_push_once :
  (forall a repository show σ,
      repositoryKey B host repository ∈ pushInFlight σ ->
      gateStep B host a (GateStart repository show) σ = (GateReturned, σ))
  /\ (forall k σ0 ts σ,
        rtc (sysStep B host) ([], σ0) (ts, σ) ->
        (pushCount B host k (trace σ) <= pushCount B host k (trace σ0) + 1)%nat).
Proof.
  split.
  - intros a repository show σ Hin. apply gate_noop. right. exact Hin.
  - intros k σ0 ts σ Hrtc.
    assert (Hinv : onePush B host k (pushCount B host k (trace σ0)) (ts, σ)).
    { apply (onePush_rtc k _ _ _ Hrtc).
      split; [constructor |]. cbn. split; [lia |]. split; [lia | auto]. }
    destruct Hinv as (_ & _ & _ & [Hc | (Hc & _)]); cbn [snd] in Hc; lia.
Qed.

End GateFacts.

(* ===================================================================== *)
(** * Properties of the orchestrator *)
(* ===================================================================== *)

Section CommandFacts.
Import Extension.
Context (B : Builtins) (host : Host).

(** A text with a character that is not whitespace does not trim to the
    empty string. *)
Lemma trim_truthy (s : jsstring) :
  existsb (fun c => negb (isWhiteSpace c)) s = true -> truthy (trim s) = true.
Proof.
  intros Hex. unfold trim, trimStart.
  assert (Hd : exists c r, dropWhile isWhiteSpace s = c :: r
                           /\ isWhiteSpace c = false).
  { induction s as [| x s IH]; [discriminate |].
    cbn in Hex. cbn [dropWhile]. destruct (isWhiteSpace x) eqn:Ex.
    - apply IH. exact Hex.
    - eauto. }
  destruct Hd as (c & r & -> & Hc). unfold trimEnd. cbn [rev].
  rewrite dropWhile_snoc_any, Hc.
  destruct (forallb isWhiteSpace (rev r)).
  - reflexivity.
  - rewrite rev_app_distr. reflexivity.
Qed.

Lemma join_head (sep x : jsstring) (r : list jsstring) :
  exists rest, join sep (x :: r) = x ++ rest.
Proof.
  destruct r as [| y r]; cbn [join].
  - exists []. rewrite app_nil_r. reflexivity.
  - eauto.
Qed.

(** A composed text is empty or starts with the [#] of a section title. *)
Lemma compose_head (tracked : jsstring) (files : list jsstring) :
  DiffCollector.compose tracked files = []
  \/ exists rest, DiffCollector.compose tracked files = 35%N :: rest.
Proof.
  unfold DiffCollector.compose, DiffCollector.sections.
  destruct (0 <? len (trim tracked)); destruct (0 <? Z.of_nat (length files));
    cbn [app join]; [right | right | right | left; reflexivity];
    eexists; reflexivity.
Qed.

Lemma buildResult_truthy tracked files maxChars :
  DiffCollector.diffText (DiffCollector.buildResult tracked files maxChars) <> [] ->
  truthy (trim (DiffCollector.diffText
                  (DiffCollector.buildResult tracked files maxChars))) = true.
Proof.
  intros Hne. apply trim_truthy. unfold DiffCollector.buildResult in *.
  destruct (compose_head tracked files) as [E | [rest E]]; rewrite E in *.
  - cbn in Hne. contradiction.
  - cbn [truthy negb]. unfold DiffCollector.truncateDiffText.
    destruct (len (35%N :: rest) <=? maxChars); cbn [DiffCollector.diffText].
    + reflexivity.
    + rewrite existsb_app. apply orb_true_iff. right. reflexivity.
Qed.

(** The text a collection returns is empty or has a visible character:
    the orchestrator's test of the trimmed text is a test for the empty
    text. *)
Lemma diffText_truthy runGit includeUntracked maxChars log r :
  DiffCollector.collectDiffForPrompt runGit includeUntracked maxChars = (log, Ok r) ->
  DiffCollector.diffText r <> [] ->
  truthy (trim (DiffCollector.diffText r)) = true.
Proof.
  intros Hc. pose proof (collectDiffForPrompt_result _ _ _ _ _ Hc) as Hr.
  generalize dependent (DiffCollector.trackedDiff r).
  generalize dependent (DiffCollector.untrackedFiles r).
  intros files tracked ->. apply buildResult_truthy.
Qed.

Lemma pendingGet_emit repository es σ :
  pendingGet B host repository (emit es σ) = pendingGet B host repository σ.
Proof. reflexivity. Qed.

(** The [catch] block of the command clears the pending entry first, and
    nothing after that sets one. *)
Lemma commandCatch_clears repository settings error σ :
  pendingGet B host repository (commandCatch B host repository settings error σ) = None.
Proof.
  unfold commandCatch.
  destruct (isNoChangesCommitError _); [| destruct error as [c | m]];
    rewrite !pendingGet_emit; apply lookup_delete_eq.
Qed.

Lemma no_generation_call_in_log (log : list DiffCollector.LogLine) :
  forallb (fun e => negb (isGenerationCall e))
    (map (fun l => AppendLine (LineDiff l)) log) = true.
Proof. induction log as [| l log IH]; [reflexivity | exact IH]. Qed.

(** C9.  When the collector returns an empty [diffText], the command
    informs the user and returns: neither the prompt builder nor the
    generator is called, and the pending entries and the guards are as
    they were. *)
Theorem empty_diff_stops (w : CommandWorld) (σ : Store)
  (repository : GitRepository) (log : list DiffCollector.LogLine)
  (r : DiffCollector.DiffCollectResult) :
  resolveRepository w = Some repository ->
  DiffCollector.collectDiffForPrompt (runGit w)
    (includeUntracked (getSettings (commandConfiguration w)))
    (diffMaxChars (getSettings (commandConfiguration w))) = (log, Ok r) ->
  DiffCollector.diffText r = [] ->
  exists σ' es,
    handleGenerateCommand B host w σ = (Returned, σ')
    /\ trace σ' = trace σ ++ es
    /\ forallb (fun e => negb (isGenerationCall e)) es = true
    /\ last es = Some (Notify InfoNoDiff)
    /\ pendingByRepository σ' = pendingByRepository σ
    /\ pushInFlight σ' = pushInFlight σ.
Proof.
  intros Hrepo Hc Hempty. unfold handleGenerateCommand.
  rewrite Hrepo, Hc, Hempty. cbn [trim trimStart trimEnd dropWhile rev truthy negb].
  eexists _, _. split; [reflexivity |].
  split; [cbn [trace emit]; rewrite <- app_assoc; reflexivity |].
  split; [| split; [| split; reflexivity]].
  - cbn [app forallb isGenerationCall negb andb].
    rewrite forallb_app, no_generation_call_in_log. reflexivity.
  - cbn [app]. rewrite last_cons, last_snoc. reflexivity.
Qed.

(** C10.  When the command fails after a diff that is not empty was
    collected (the generator rejects, staging fails, or the commit fails),
    it returns through its [catch] block, and the repository has no
    pending entry afterwards, whatever entry there was before the command
    started or was set by this run. *)
Theorem failure_clears_pending (w : CommandWorld) (σ : Store)
  (repository : GitRepository) (log : list DiffCollector.LogLine)
  (r : DiffCollector.DiffCollectResult) (error : CodexCli.Thrown) :
  resolveRepository w = Some repository ->
  DiffCollector.collectDiffForPrompt (runGit w)
    (includeUntracked (getSettings (commandConfiguration w)))
    (diffMaxChars (getSettings (commandConfiguration w))) = (log, Ok r) ->
  DiffCollector.diffText r <> [] ->
  CommandFailure w repository r error ->
  exists σ0,
    handleGenerateCommand B host w σ
      = (Returned,
         commandCatch B host repository (getSettings (commandConfiguration w))
           error σ0)
    /\ pendingGet B host repository
         (snd (handleGenerateCommand B host w σ)) = None.
Proof.
  intros Hrepo Hc Hne Hfail. unfold handleGenerateCommand.
  rewrite Hrepo, Hc, (diffText_truthy _ _ _ _ _ Hc Hne). cbn [negb].
  destruct Hfail as [glog e Hg | glog message e Hg Hauto Hstage
                     | glog message e Hg Hauto Hstage Hcommit];
    rewrite Hg; try rewrite Hauto; cbn [negb]; try rewrite Hstage;
    try rewrite Hcommit;
    (eexists; split; [reflexivity | cbn [snd]; apply commandCatch_clears]).
Qed.

End CommandFacts.

(* ===================================================================== *)
(** * The scenarios of the specification, run *)
(* ===================================================================== *)

Lemma gate_pushes_iff_match_witness :
  Extension.pendingGet asciiBuiltins posixHost exampleRepository armedStore
    = Some examplePending
  /\ (Extension.repositoryKey asciiBuiltins posixHost exampleRepository
        ∉ Extension.pushInFlight armedStore)
  /\ exists σ' es,
       Extension.handleCommitEvent asciiBuiltins posixHost matchingWorld
         exampleRepository false armedStore = (Extension.GateReturned, σ')
       /\ Extension.trace σ' = Extension.trace armedStore ++ es
       /\ (Extension.gateMatches matchingWorld examplePending <->
           Extension.pushCalls es
             = [Extension.thePush matchingWorld exampleRepository])
       /\ (~ Extension.gateMatches matchingWorld examplePending <->
           Extension.pushCalls es = []).
Proof.
  assert (Hp : Extension.pendingGet asciiBuiltins posixHost exampleRepository
                 armedStore = Some examplePending) by (vm_compute; reflexivity).
  assert (Hg : Extension.repositoryKey asciiBuiltins posixHost exampleRepository
                 ∉ Extension.pushInFlight armedStore)
    by (apply not_elem_of_empty).
  split; [exact Hp |]. split; [exact Hg |].
  destruct (gate_pushes_iff_match asciiBuiltins posixHost matchingWorld
              exampleRepository false armedStore)
    as (σ' & es & Hrun & Htr & Hready & _).
  exists σ', es. split; [exact Hrun |]. split; [exact Htr |].
  exact (Hready examplePending Hp Hg).
Defined.

(** The first gate scenario: the latest commit has the pending message as
    its first line and the branch is the target branch; the push is called
    for [origin] and [main] without an upstream, and the pending entry is
    cleared. *)
Example scenario_match_pushes :
  let σ' := snd (Extension.handleCommitEvent asciiBuiltins posixHost matchingWorld
                   exampleRepository true armedStore) in
  Extension.pushCalls (Extension.trace σ')
    = [Extension.CallPush exampleRepository (lit "origin") (lit "main") false]
  /\ Extension.pendingGet asciiBuiltins posixHost exampleRepository σ' = None
  /\ In (Extension.Notify (Extension.InfoPushed (lit "origin") (lit "main")))
       (Extension.trace σ').
Proof. vm_compute. split; [reflexivity |]. split; [reflexivity |]. tauto. Qed.

(** The second: the first line of the latest commit differs from the
    pending message in its last character. *)
Example scenario_message_differs :
  let w := repositoryWorld (removelast exampleMessage ++ [0x65E7%N]) (lit "main") in
  let σ' := snd (Extension.handleCommitEvent asciiBuiltins posixHost w
                   exampleRepository true armedStore) in
  Extension.pushCalls (Extension.trace σ') = []
  /\ Extension.pendingGet asciiBuiltins posixHost exampleRepository σ' = None
  /\ In (Extension.Notify Extension.InfoMessageMismatch) (Extension.trace σ').
Proof. vm_compute. split; [reflexivity |]. split; [reflexivity |]. tauto. Qed.

(** The third: the message matches, the branch is [feature/x]. *)
Example scenario_other_branch :
  let w := repositoryWorld exampleMessage (lit "feature/x") in
  let σ' := snd (Extension.handleCommitEvent asciiBuiltins posixHost w
                   exampleRepository true armedStore) in
  Extension.pushCalls (Extension.trace σ') = []
  /\ Extension.pendingGet asciiBuiltins posixHost exampleRepository σ' = None
  /\ In (Extension.Notify
           (Extension.InfoBranchMismatch (lit "feature/x") (lit "main")))
       (Extension.trace σ').
Proof. vm_compute. split; [reflexivity |]. split; [reflexivity |]. tauto. Qed.



Lemma duplicate_notifications_push_once_witness :
  let final := Extension.happenAll asciiBuiltins posixHost twoNotifications
                 ([], armedStore) in
  fst final = [Extension.GateReturned; Extension.GateReturned]
  /\ Extension.pushCount asciiBuiltins posixHost (lit "/work/repo")
       (Extension.trace (snd final)) = 1%nat
  /\ (Extension.pushCount asciiBuiltins posixHost (lit "/work/repo")
        (Extension.trace (snd final))
      <= Extension.pushCount asciiBuiltins posixHost (lit "/work/repo")
           (Extension.trace armedStore) + 1)%nat.
Proof.
  intros final.
  split; [vm_compute; reflexivity |]. split; [vm_compute; reflexivity |].
  apply (proj2 (duplicate_notifications_push_once asciiBuiltins posixHost)
           (lit "/work/repo") armedStore (fst final) (snd final)).
  rewrite <- surjective_pairing. apply happenAll_rtc.
Defined.

Lemma empty_diff_stops_witness :
  exists σ' es,
    Extension.handleGenerateCommand asciiBuiltins posixHost nothingToDoWorld
      armedStore = (Extension.Returned, σ')
    /\ Extension.trace σ' = Extension.trace armedStore ++ es
    /\ forallb (fun e => negb (Extension.isGenerationCall e)) es = true
    /\ last es = Some (Extension.Notify Extension.InfoNoDiff)
    /\ Extension.pendingByRepository σ' = Extension.pendingByRepository armedStore
    /\ Extension.pushInFlight σ' = Extension.pushInFlight armedStore.
Proof.
  apply (empty_diff_stops asciiBuiltins posixHost nothingToDoWorld armedStore
           exampleRepository []
           (DiffCollector.buildResult [] [] 12000)).
  - reflexivity.
  - vm_compute. reflexivity.
  - reflexivity.
Defined.

Lemma failure_clears_pending_witness :
  Extension.pendingGet asciiBuiltins posixHost exampleRepository armedStore
    = Some examplePending
  /\ Extension.pendingGet asciiBuiltins posixHost exampleRepository
       (snd (Extension.handleGenerateCommand asciiBuiltins posixHost
               generatorMissingWorld armedStore)) = None.
Proof.
  split; [vm_compute; reflexivity |].
  destruct (failure_clears_pending asciiBuiltins posixHost generatorMissingWorld
              armedStore exampleRepository []
              (DiffCollector.buildResult (lit "+added line") [] 12000)
              (CodexCli.Codex
                 {| CodexCli.code := CodexCli.not_found;
                    CodexCli.message := CodexCli.notFoundMessage (lit "codex");
                    CodexCli.details := None |}))
    as (σ0 & _ & Hclear).
  - reflexivity.
  - vm_compute. reflexivity.
  - vm_compute. discriminate.
  - eapply Extension.GeneratorFails. vm_compute. reflexivity.
  - exact Hclear.
Defined.

(* ===================================================================== *)
(** * Further properties of the string helpers *)
(* ===================================================================== *)

Section TailFacts.

Lemma slice_suffix (s : jsstring) (k : Z) :
  0 <= k <= len s -> sliceFrom s (len s - k) = drop (Z.to_nat (len s - k)) s.
Proof.
  intros Hk. unfold sliceFrom, slice, clampIndex.
  pose proof (len_nonneg s) as Hn.
  destruct (len s - k <? 0) eqn:E1; [apply Z.ltb_lt in E1; lia |].
  destruct (len s <? 0) eqn:E2; [apply Z.ltb_lt in E2; lia |].
  rewrite Z.min_id, (Z.min_l (len s - k)) by lia.
  apply take_ge. rewrite length_drop. unfold len in *. lia.
Qed.

Lemma slice_beyond (s : jsstring) (i : Z) : len s <= i -> sliceFrom s i = [].
Proof.
  intros Hi. unfold sliceFrom, slice, clampIndex.
  pose proof (len_nonneg s) as Hn.
  destruct (i <? 0) eqn:E1; [apply Z.ltb_lt in E1; lia |].
  destruct (len s <? 0) eqn:E2; [apply Z.ltb_lt in E2; lia |].
  rewrite Z.min_id, (Z.min_r i) by lia.
  rewrite Z.sub_diag. reflexivity.
Qed.

(** X1 ([tail]).  [tail text maxChars] is the end of [text]: the whole
    text when it has no more than [maxChars] characters, its last
    [maxChars] characters otherwise, and the empty text for a negative
    [maxChars]. *)
Theorem tail_is_suffix (text : jsstring) (maxChars : Z) :
  CodexCli.tail text maxChars `suffix_of` text
  /\ len (CodexCli.tail text maxChars) = Z.max 0 (Z.min (len text) maxChars).
Proof.
  unfold CodexCli.tail. pose proof (len_nonneg text) as Hn.
  destruct (len text <=? maxChars) eqn:E.
  - apply Z.leb_le in E. split; [reflexivity | lia].
  - apply Z.leb_gt in E. destruct (Z.le_gt_cases 0 maxChars) as [Hm | Hm].
    + rewrite slice_suffix by lia. split.
      * exists (take (Z.to_nat (len text - maxChars)) text).
        symmetry. apply take_drop.
      * unfold len in *. rewrite length_drop. lia.
    + rewrite slice_beyond by lia. split.
      * exists text. symmetry. apply app_nil_r.
      * unfold len at 1. simpl. lia.
Qed.

End TailFacts.

(* ===================================================================== *)
(** * Further properties of the diff collector *)
(* ===================================================================== *)

Section CollectorEdges.
Import DiffCollector.

Lemma filter_Forall_both {A} (p : A -> bool) (P : A -> Prop) (l : list A) :
  Forall P l -> Forall (fun x => p x = true /\ P x) (List.filter p l).
Proof.
  induction 1 as [| x l Hx Hl IH]; cbn [List.filter]; [constructor |].
  destruct (p x) eqn:E; [constructor; auto | exact IH].
Qed.

(** X2 ([getUntrackedFiles]).  Every name in the list of untracked files
    is a line of the listing without its surrounding whitespace: it is
    not empty, has no whitespace at either end and no line feed in it. *)
Theorem untracked_files_are_names (runGit : GitOracle) (files : list jsstring) :
  getUntrackedFiles runGit = Ok files ->
  Forall (fun file =>
            file <> [] /\ trim file = file
            /\ forallb (fun c => negb (isLF c)) file = true) files.
Proof.
  unfold getUntrackedFiles.
  destruct (runGit _) as [stdout | e]; [| discriminate]. intros [= <-].
  eapply Forall_impl.
  - apply (filter_Forall_both _
             (fun file => trim file = file
                          /\ forallb (fun c => negb (isLF c)) file = true)).
    apply Forall_map. eapply Forall_impl; [apply splitLines_no_LF |].
    intros p Hp. cbn beta. split; [apply trim_idem | apply forallb_trim, Hp].
  - intros file [Hlen Hrest]. split; [| exact Hrest].
    intros ->. discriminate.
Qed.

(** X3 ([getTrackedDiff], [collectDiffForPrompt]).  A collection fails
    exactly when [git diff HEAD --] and then [git diff --] both fail, and
    then with the error of the second; a failure to list the untracked
    files never fails it. *)
Theorem collection_fails_iff (runGit : GitOracle) (includeUntracked : bool)
  (maxChars : Z) (e : jsstring) :
  snd (collectDiffForPrompt runGit includeUntracked maxChars) = Err e
  <-> (exists e1, runGit [lit "diff"; lit "HEAD"; lit "--"] = Err e1)
      /\ runGit [lit "diff"; lit "--"] = Err e.
Proof.
  unfold collectDiffForPrompt, getTrackedDiff.
  destruct (runGit [lit "diff"; lit "HEAD"; lit "--"]) as [out | e1].
  - destruct includeUntracked; [destruct (getUntrackedFiles runGit) |];
      cbn [snd]; (split; [discriminate | intros [[e1 [=]] _]]).
  - destruct (runGit [lit "diff"; lit "--"]) as [out | e2].
    + destruct includeUntracked; [destruct (getUntrackedFiles runGit) |];
        cbn [snd]; (split; [discriminate | intros [_ [=]]]).
    + cbn [snd]. split.
      * intros [= ->]. eauto.
      * intros [_ [= ->]]. reflexivity.
Qed.

Lemma compose_nil_iff (tracked : jsstring) (files : list jsstring) :
  compose tracked files = [] <-> trim tracked = [] /\ files = [].
Proof.
  unfold compose, sections. rewrite <- (len_nil_iff (trim tracked)).
  pose proof (len_nonneg (trim tracked)) as Hn.
  destruct (0 <? len (trim tracked)) eqn:E1;
    [apply Z.ltb_lt in E1 | apply Z.ltb_ge in E1];
    (destruct files as [| f files];
     [ | change (0 <? Z.of_nat (length (f :: files))) with true ]);
    cbn [app join length Z.of_nat Z.ltb Z.compare];
    (split; [intros Hc | intros [H1 H2]]); try discriminate; try lia;
    try (split; [lia | reflexivity]); try reflexivity.
Qed.

Lemma buildResult_nil_iff (tracked : jsstring) (files : list jsstring)
  (maxChars : Z) :
  diffText (buildResult tracked files maxChars) = []
  <-> compose tracked files = [].
Proof.
  unfold buildResult.
  destruct (compose tracked files) as [| c r] eqn:E; cbn [truthy negb].
  - cbn [diffText]. tauto.
  - unfold truncateDiffText. destruct (len (c :: r) <=? maxChars);
      cbn [diffText]; split; try discriminate.
    intros Happ. apply app_eq_nil in Happ as [_ Hm]. discriminate.
Qed.

(** X4 ([collectDiffForPrompt]).  The collector answers with no diff text
    exactly when the tracked diff is blank and there are no untracked
    files, whatever the cap; and then, and only then, the text fails the
    orchestrator's test of its trimmed form. *)
Theorem no_diff_iff_nothing_changed (runGit : GitOracle)
  (includeUntracked : bool) (maxChars : Z) (log : list LogLine)
  (r : DiffCollectResult) :
  collectDiffForPrompt runGit includeUntracked maxChars = (log, Ok r) ->
  (diffText r = [] <-> trim (trackedDiff r) = [] /\ untrackedFiles r = [])
  /\ (truthy (trim (diffText r)) = false <-> diffText r = []).
Proof.
  intros Hc. pose proof (collectDiffForPrompt_result _ _ _ _ _ Hc) as Hr.
  split.
  - rewrite Hr at 1. rewrite buildResult_nil_iff. apply compose_nil_iff.
  - split.
    + intros Hf. destruct (decide (diffText r = [])) as [E | E]; [exact E |].
      rewrite (diffText_truthy _ _ _ _ _ Hc E) in Hf. discriminate.
    + intros ->. reflexivity.
Qed.

End CollectorEdges.

(* ===================================================================== *)
(** * Properties of the prompt builder *)
(* ===================================================================== *)

Section PromptFacts.

Lemma prompt_shape (diffText : jsstring) :
  Prompt.buildCommitMessagePrompt diffText
    = take 346 (Prompt.buildCommitMessagePrompt [])
      ++ diffText ++ newline ++ lit "</diff>".
Proof. vm_compute. reflexivity. Qed.

Lemma prompt_frame_length :
  length (take 346 (Prompt.buildCommitMessagePrompt [])) = 346%nat.
Proof. vm_compute. reflexivity. Qed.

(** X5 ([buildCommitMessagePrompt]).  The prompt is a fixed frame around
    the diff text, which it holds unchanged: its length is the length of
    the diff text plus 354, and two diff texts with the same prompt are
    the same text. *)
Theorem prompt_holds_diff_text (diffText : jsstring) :
  len (Prompt.buildCommitMessagePrompt diffText) = len diffText + 354
  /\ forall other,
       Prompt.buildCommitMessagePrompt other
         = Prompt.buildCommitMessagePrompt diffText ->
       other = diffText.
Proof.
  split.
  - rewrite (prompt_shape diffText), !len_app. unfold len at 1.
    rewrite prompt_frame_length. vm_compute (len newline).
    vm_compute (len (lit "</diff>")). lia.
  - intros other Heq.
    rewrite (prompt_shape other), (prompt_shape diffText) in Heq.
    apply app_inv_head in Heq. apply app_inv_tail in Heq. exact Heq.
Qed.

End PromptFacts.

(** A listing with blank lines, carriage returns and padding. *)
Lemma untracked_files_are_names_witness :
  let git := gitAnswering []
               (lit " notes.txt " ++ [13%N] ++ newline ++ newline
                ++ lit "src/new file.ts" ++ newline) in
  DiffCollector.getUntrackedFiles git
    = Ok [lit "notes.txt"; lit "src/new file.ts"]
  /\ Forall (fun file =>
               file <> [] /\ trim file = file
               /\ forallb (fun c => negb (isLF c)) file = true)
       [lit "notes.txt"; lit "src/new file.ts"].
Proof.
  cbv zeta. split; [reflexivity |].
  apply (untracked_files_are_names
           (gitAnswering []
              (lit " notes.txt " ++ [13%N] ++ newline ++ newline
               ++ lit "src/new file.ts" ++ newline))).
  reflexivity.
Defined.

(** A clean working tree: a blank diff and an empty listing. *)
Lemma no_diff_iff_nothing_changed_witness :
  let r := DiffCollector.buildResult (lit "  " ++ newline) [] 1000 in
  DiffCollector.collectDiffForPrompt (gitAnswering (lit "  " ++ newline) [])
    true 1000 = ([], Ok r)
  /\ (DiffCollector.diffText r = []
      <-> trim (DiffCollector.trackedDiff r) = []
          /\ DiffCollector.untrackedFiles r = [])
  /\ (truthy (trim (DiffCollector.diffText r)) = false
      <-> DiffCollector.diffText r = []).
Proof.
  cbv zeta. split; [reflexivity |].
  apply (no_diff_iff_nothing_changed
           (gitAnswering (lit "  " ++ newline) []) true 1000 []).
  reflexivity.
Defined.

(* ===================================================================== *)
(** * The first line of a commit message *)
(* ===================================================================== *)

Section FirstLineFacts.
Import Extension.

(** A text without a line feed is a single piece. *)
Lemma splitLines_one (p : jsstring) :
  forallb (fun c => negb (isLF c)) p = true -> splitLines p = [p].
Proof.
  induction p as [| c r IH]; intros Hp; [reflexivity |].
  cbn [forallb] in Hp. apply andb_prop in Hp as [Hc Hr].
  apply negb_true_iff in Hc. cbn [splitLines]. rewrite Hc, (IH Hr).
  destruct r as [| d r']; [rewrite andb_false_r; reflexivity |].
  cbn [forallb] in Hr. apply andb_prop in Hr as [Hd _].
  apply negb_true_iff in Hd. cbn [headIsLF]. rewrite Hd, andb_false_r.
  reflexivity.
Qed.

(** The first piece of a text is what stands before its first line feed,
    without the carriage return right before that line feed. *)
Lemma splitLines_line (p body : jsstring) :
  forallb (fun c => negb (isLF c)) p = true ->
  exists p', splitLines (p ++ newline ++ body) = p' :: splitLines body
             /\ (p' = p \/ p = p' ++ [13%N]).
Proof.
  induction p as [| c r IH]; intros Hp.
  - exists []. split; [reflexivity | left; reflexivity].
  - cbn [forallb] in Hp. apply andb_prop in Hp as [Hc Hr].
    apply negb_true_iff in Hc.
    destruct (IH Hr) as (p' & Hs & Hcase).
    change ((c :: r) ++ newline ++ body) with (c :: (r ++ newline ++ body)).
    cbn [splitLines]. rewrite Hc.
    destruct (isCR c && headIsLF (r ++ newline ++ body)) eqn:E.
    + apply andb_prop in E as [Ecr Ehd]. destruct r as [| d r'].
      * exists []. split; [reflexivity |]. right.
        apply N.eqb_eq in Ecr. rewrite Ecr. reflexivity.
      * cbn [forallb] in Hr. apply andb_prop in Hr as [Hd _].
        apply negb_true_iff in Hd. cbn in Ehd. congruence.
    + rewrite Hs. exists (c :: p'). split; [reflexivity |].
      destruct Hcase as [-> | ->]; [left | right]; reflexivity.
Qed.

Lemma firstLine_line (p body : jsstring) :
  forallb (fun c => negb (isLF c)) p = true ->
  firstLine (p ++ newline ++ body) = trim p.
Proof.
  intros Hp. destruct (splitLines_line p body Hp) as (p' & Hs & [-> | ->]);
    unfold firstLine; rewrite Hs; [reflexivity |].
  symmetry. apply trim_snoc_ws. reflexivity.
Qed.

Lemma firstLine_one (p : jsstring) :
  forallb (fun c => negb (isLF c)) p = true -> firstLine p = trim p.
Proof. intros Hp. unfold firstLine. rewrite (splitLines_one p Hp). reflexivity. Qed.

(** X6 ([firstLine]).  The first line of a text is what stands before its
    first line feed, without the whitespace around it; the rest of the
    text does not matter.  It is always a single trimmed line. *)
Theorem first_line_is_head (p body : jsstring) :
  forallb (fun c => negb (isLF c)) p = true ->
  firstLine (p ++ newline ++ body) = trim p
  /\ firstLine p = trim p
  /\ forall text,
       trim (firstLine text) = firstLine text
       /\ forallb (fun c => negb (isLF c)) (firstLine text) = true.
Proof.
  intros Hp. split; [apply firstLine_line, Hp |].
  split; [apply firstLine_one, Hp |].
  intros text. unfold firstLine.
  pose proof (splitLines_no_LF text) as Hall.
  destruct (splitLines text) as [| l ls]; [split; reflexivity |].
  apply Forall_cons in Hall as [Hl _].
  split; [apply trim_idem | apply forallb_trim, Hl].
Qed.

(** X7 ([normalizeGeneratedMessage], [firstLine], the comparison of
    [handleCommitEvent]).  A message the client resolves with is its own
    first line: committed as it is, or followed by a line feed and any
    body, it is read back by the gate as the text the gate compares it
    with, the trimmed pending message. *)
Theorem generated_message_reads_back (raw body : jsstring) :
  let message := CodexCli.normalizeGeneratedMessage raw in
  firstLine message = trim message
  /\ firstLine (message ++ newline ++ body) = trim message
  /\ trim message = message.
Proof.
  cbv zeta. rewrite normalizeGeneratedMessage_spec.
  pose proof (normalized_single_line raw) as Hline.
  split; [apply firstLine_one, Hline |].
  split; [apply firstLine_line, Hline | apply normalized_trimmed].
Qed.

End FirstLineFacts.

(* ===================================================================== *)
(** * The pending-state registry *)
(* ===================================================================== *)

Section PendingStateFacts.
Import Extension.
Context (B : Builtins) (host : Host).

(** X8 ([PendingCommitState]).  The registry is a map under the
    repository key: [get] after [set] answers the entry set, [get] after
    [clear] answers nothing, for the repository itself and for any
    repository object with the same key, and the entries under other keys
    are as they were. *)
Theorem pending_state_by_key (repository other : GitRepository)
  (pending : PendingGeneratedCommit) (σ : Store) :
  pendingGet B host other (pendingSet B host repository pending σ)
    = (if streq (repositoryKey B host other) (repositoryKey B host repository)
       then Some pending else pendingGet B host other σ)
  /\ pendingGet B host other (pendingClear B host repository σ)
    = (if streq (repositoryKey B host other) (repositoryKey B host repository)
       then None else pendingGet B host other σ).
Proof.
  unfold pendingGet, pendingSet, pendingClear, streq.
  cbn [pendingByRepository].
  destruct (bool_decide_reflect
              (repositoryKey B host other = repositoryKey B host repository))
    as [-> | Hne].
  - rewrite lookup_insert_eq, lookup_delete_eq. split; reflexivity.
  - rewrite lookup_insert_ne, lookup_delete_ne by congruence.
    split; reflexivity.
Qed.

End PendingStateFacts.

(* ===================================================================== *)
(** * The command candidates *)
(* ===================================================================== *)

Section CandidateListFacts.
Import CodexCli CodexCliCandidates.
Context (B : Builtins) (host : Host).

Local Abbreviation normalizedPath := (CommandPaths.comparisonForm B host).

Lemma uniqueFrom_spec (paths : list jsstring) (seen : gset (list N)) :
  uniqueFrom B host seen paths `sublist_of` paths
  /\ NoDup (map normalizedPath (uniqueFrom B host seen paths))
  /\ Forall (fun p => normalizedPath p ∉ seen) (uniqueFrom B host seen paths)
  /\ Forall (fun p => normalizedPath p ∈ seen
                      \/ In (normalizedPath p)
                           (map normalizedPath
                              (uniqueFrom B host seen paths))) paths.
Proof.
  revert seen. induction paths as [| p rest IH]; intros seen.
  - cbn. repeat split; constructor.
  - cbn [uniqueFrom].
    change (if win32 host then toLowerCase B p else p) with (normalizedPath p).
    destruct (bool_decide_reflect (normalizedPath p ∈ seen)) as [Hin | Hout].
    + destruct (IH seen) as (Hsub & Hnd & Hseen & Hcov).
      split; [apply sublist_cons, Hsub |]. split; [exact Hnd |].
      split; [exact Hseen |]. constructor; [left; exact Hin | exact Hcov].
    + destruct (IH ({[normalizedPath p]} ∪ seen)) as (Hsub & Hnd & Hseen & Hcov).
      split; [apply sublist_skip, Hsub |]. cbn [map]. split.
      * apply NoDup_cons. split; [| exact Hnd].
        intros Hel. apply list_elem_of_In in Hel.
        apply in_map_iff in Hel as (q & Hq & Hqin).
        rewrite Forall_forall in Hseen. apply list_elem_of_In in Hqin.
        apply (Hseen q Hqin). rewrite Hq. set_solver.
      * split.
        -- constructor; [exact Hout |].
           eapply Forall_impl; [exact Hseen |]. cbn beta. intros q Hq. set_solver.
        -- constructor; [right; left; reflexivity |].
           eapply Forall_impl; [exact Hcov |]. cbn beta.
           intros q [Hq | Hq]; [| right; right; exact Hq].
           apply elem_of_union in Hq as [Hq | Hq]; [| left; exact Hq].
           apply elem_of_singleton in Hq. right. left. symmetry. exact Hq.
Qed.

(** X9 ([uniqueCommandPaths]).  The paths kept are paths of the input in
    their order; no two of them are equal under the comparison (the
    lower-case form on Windows, the path itself elsewhere); and every
    path of the input is equal under it to one that is kept. *)
Theorem unique_command_paths (paths : list jsstring) :
  uniqueCommandPaths B host paths `sublist_of` paths
  /\ NoDup (map normalizedPath (uniqueCommandPaths B host paths))
  /\ Forall (fun p => In (normalizedPath p)
                        (map normalizedPath
                           (uniqueCommandPaths B host paths))) paths.
Proof.
  unfold uniqueCommandPaths.
  destruct (uniqueFrom_spec paths ∅) as (Hsub & Hnd & _ & Hcov).
  split; [exact Hsub |]. split; [exact Hnd |].
  eapply Forall_impl; [exact Hcov |]. cbn beta.
  intros p [Hp | Hp]; [set_solver | exact Hp].
Qed.

Lemma NoDup_of_map {A C} (f : A -> C) (l : list A) :
  NoDup (map f l) -> NoDup l.
Proof.
  induction l as [| x l IH]; cbn [map]; intros Hnd; [constructor |].
  apply NoDup_cons in Hnd as [Hx Hl]. apply NoDup_cons. split; [| auto].
  intros Hin. apply Hx. apply list_elem_of_In, in_map, list_elem_of_In, Hin.
Qed.

Lemma Forall_of_sublist {A} (P : A -> Prop) (l1 l2 : list A) :
  l1 `sublist_of` l2 -> Forall P l2 -> Forall P l1.
Proof.
  intros Hsub Hall. rewrite Forall_forall in *. intros x Hx.
  apply Hall, (sublist_subseteq _ _ Hsub), Hx.
Qed.

Lemma filter_Forall {A} (p : A -> bool) (l : list A) :
  Forall (fun x => p x = true) (List.filter p l).
Proof.
  induction l as [| x l IH]; cbn [List.filter]; [constructor |].
  destruct (p x) eqn:E; [constructor; assumption | exact IH].
Qed.

(** X10 ([buildCommandCandidates]).  Every candidate is a command that
    can be tried: it is not the empty string, and when it is an absolute
    path the file exists.  No candidate is listed twice.  And the
    configured command, trimmed, is the first candidate whenever it is
    itself such a command. *)
Theorem command_candidates_usable (configuredCommandPath : jsstring) :
  let candidates := buildCommandCandidates B host configuredCommandPath in
  let usable candidate :=
    truthy candidate
    && (negb (isAbsolute host candidate) || existsSync host candidate) in
  Forall (fun candidate =>
            candidate <> []
            /\ (isAbsolute host candidate = true ->
                existsSync host candidate = true)) candidates
  /\ NoDup (map normalizedPath candidates)
  /\ (usable (trim configuredCommandPath) = true ->
      head candidates = Some (trim configuredCommandPath)).
Proof.
  cbv zeta. unfold buildCommandCandidates, uniqueCommandPaths.
  set (usable := fun candidate : jsstring =>
                   truthy candidate
                   && (negb (isAbsolute host candidate)
                       || existsSync host candidate)).
  set (others := if win32 host then _ else []).
  destruct (uniqueFrom_spec (List.filter usable
                               ([trim configuredCommandPath] ++ others)) ∅)
    as (Hsub & Hnd & _ & _).
  split; [| split; [exact Hnd |]].
  - eapply Forall_of_sublist; [exact Hsub |].
    eapply Forall_impl; [apply filter_Forall |]. cbn beta.
    intros c Hc. subst usable. cbn beta in Hc. apply andb_prop in Hc as [Ht Hou].
    split; [intros ->; discriminate |].
    intros Habs. rewrite Habs in Hou. exact Hou.
  - intros Hok. cbn [app List.filter].
    change (usable (trim configuredCommandPath) = true) in Hok. rewrite Hok.
    cbn [uniqueFrom]. rewrite bool_decide_eq_false_2 by set_solver.
    reflexivity.
Qed.

(** X11 ([buildCommandCandidates], [generateCommitMessageWithCodex]).  Off
    Windows the configured command is the only candidate.  When it is
    blank, or an absolute path to a file that does not exist, nothing is
    spawned, and the caller gets the error [not-found] that names the
    configured path and says that no candidate could be resolved. *)
Theorem unusable_command_is_not_spawned (options : CodexGenerateOptions)
  (world : jsstring -> Spawn) :
  win32 host = false ->
  trim (commandPath options) = []
  \/ (isAbsolute host (trim (commandPath options)) = true
      /\ existsSync host (trim (commandPath options)) = false) ->
  CodexCliCandidates.generateCommitMessageWithCodex B host options world
    = ([], Some (Err (Codex
         {| code := not_found;
            message := notFoundMessage (commandPath options);
            details :=
              Some (lit "No executable candidate could be resolved.") |}))).
Proof.
  intros Hposix Hbad.
  unfold CodexCliCandidates.generateCommitMessageWithCodex,
    buildCommandCandidates.
  rewrite Hposix. cbn [app List.filter].
  assert (Hdrop : truthy (trim (commandPath options))
                  && (negb (isAbsolute host (trim (commandPath options)))
                      || existsSync host (trim (commandPath options))) = false).
  { destruct Hbad as [-> | [-> ->]]; [reflexivity | apply andb_false_r]. }
  rewrite Hdrop. reflexivity.
Qed.

End CandidateListFacts.

Lemma unusable_command_is_not_spawned_witness :
  let options :=
    {| CodexCli.commandPath := lit "   ";
       CodexCli.model := lit "gpt-5.3-codex";
       CodexCli.reasoningEffort := CodexCli.high;
       CodexCli.prompt := Prompt.buildCommitMessagePrompt (lit "+added line");
       CodexCli.cwd := lit "/work/repo";
       CodexCli.timeoutMs := 90000 |} in
  win32 posixHost = false
  /\ trim (CodexCli.commandPath options) = []
  /\ CodexCliCandidates.generateCommitMessageWithCodex asciiBuiltins
       posixHost options fallbackWorld
     = ([], Some (Err (CodexCli.Codex
          {| CodexCli.code := CodexCli.not_found;
             CodexCli.message :=
               CodexCli.notFoundMessage (CodexCli.commandPath options);
             CodexCli.details :=
               Some (lit "No executable candidate could be resolved.") |}))).
Proof.
  cbv zeta. split; [reflexivity |]. split; [reflexivity |].
  apply unusable_command_is_not_spawned; [reflexivity | left; reflexivity].
Defined.

Lemma first_line_is_head_witness :
  forallb (fun c => negb (isLF c)) (lit "fix: bar" ++ [13%N]) = true
  /\ Extension.firstLine ((lit "fix: bar" ++ [13%N]) ++ newline ++ lit "body")
     = lit "fix: bar".
Proof.
  split; [reflexivity |].
  destruct (first_line_is_head (lit "fix: bar" ++ [13%N]) (lit "body") eq_refl)
    as [-> _].
  reflexivity.
Defined.

(* ===================================================================== *)
(** * Runs of the child process, event by event *)
(* ===================================================================== *)

Section RunFacts.
Import CodexCli GeneratedMessageSpec ProcessOutput.
Context (B : Builtins).
Variable isNotFoundError : Errno -> bool.
Variable options : CodexGenerateOptions.

Local Abbreviation run := (runEvents B isNotFoundError options).
Local Abbreviation step := (handle B isNotFoundError options).

Local Ltac conjuncts := repeat match goal with |- _ /\ _ => split end.

Lemma runEvents_app (path : jsstring) (e1 e2 : list ProcEvent) (st : RunState) :
  run path (e1 ++ e2) st = run path e2 (run path e1 st).
Proof. apply fold_left_app. Qed.

Lemma runEvents_snoc (path : jsstring) (events : list ProcEvent)
  (ev : ProcEvent) (st : RunState) :
  run path (events ++ [ev]) st = step path ev (run path events st).
Proof. apply runEvents_app. Qed.

(** What [classifyClose] leaves as it is: everything but the promise and
    the two tails it may log. *)
Lemma classifyClose_frame (exitCode : option Z) (st : RunState) :
  let st' := classifyClose B options exitCode st in
  settled st' = settled st /\ timerArmed st' = timerArmed st
  /\ timedOut st' = timedOut st /\ killed st' = killed st
  /\ List.filter isTimedOutLine (log st')
     = List.filter isTimedOutLine (log st)
  /\ (promise st <> None -> promise st' = promise st).
Proof.
  cbv zeta. unfold classifyClose.
  set (st1 := if 0 <? len (trim (stderrRaw st)) then _ else st).
  assert (H1 : settled st1 = settled st /\ timerArmed st1 = timerArmed st
               /\ timedOut st1 = timedOut st /\ killed st1 = killed st
               /\ List.filter isTimedOutLine (log st1)
                  = List.filter isTimedOutLine (log st)
               /\ promise st1 = promise st).
  { subst st1. destruct (0 <? len (trim (stderrRaw st)));
      cbn [withLog settled timerArmed timedOut killed log promise];
      rewrite ?List.filter_app, ?app_nil_r; cbn; rewrite ?app_nil_r; auto 10. }
  clearbody st1.
  set (st2 := if 0 <? len (trim (stdoutRaw st1)) then _ else st1).
  assert (H2 : settled st2 = settled st /\ timerArmed st2 = timerArmed st
               /\ timedOut st2 = timedOut st /\ killed st2 = killed st
               /\ List.filter isTimedOutLine (log st2)
                  = List.filter isTimedOutLine (log st)
               /\ promise st2 = promise st).
  { destruct H1 as (? & ? & ? & ? & Hl & ?).
    subst st2. destruct (0 <? len (trim (stdoutRaw st1)));
      cbn [withLog settled timerArmed timedOut killed log promise];
      rewrite ?List.filter_app, ?Hl; cbn; rewrite ?app_nil_r; auto 10. }
  clearbody st2. destruct H2 as (Hs & Ha & Ht & Hk & Hl & Hp).
  rewrite <- Hs, <- Ha, <- Ht, <- Hk, <- Hl, <- Hp.
  assert (Hrej : forall c m d,
             let st' := reject c m d st2 in
             settled st' = settled st2 /\ timerArmed st' = timerArmed st2
             /\ timedOut st' = timedOut st2 /\ killed st' = killed st2
             /\ List.filter isTimedOutLine (log st')
                = List.filter isTimedOutLine (log st2)
             /\ (promise st2 <> None -> promise st' = promise st2)).
  { intros c m d. cbv zeta. unfold reject, withPromise.
    cbn [settled timerArmed timedOut killed log promise].
    repeat split. destruct (promise st2); [reflexivity | contradiction]. }
  destruct (timedOut st2) eqn:Et; [apply Hrej |].
  destruct (negb (bool_decide (exitCode = Some 0))).
  { cbv zeta. destruct (isModelAccessError B _); apply Hrej. }
  destruct (lastAgentMessage st2) as [msg |]; [| apply Hrej].
  destruct (negb (truthy msg)); [apply Hrej |].
  destruct (negb (truthy (normalizeGeneratedMessage msg))); [apply Hrej |].
  unfold withPromise. cbn [settled timerArmed timedOut killed log promise].
  repeat split; [exact Et |].
  destruct (promise st2); [reflexivity | contradiction].
Qed.

Lemma processStdoutLines_keeps (chunk : jsstring) (st : RunState) :
  let st' := fst (processStdoutLines B chunk st) in
  settled st' = settled st /\ timerArmed st' = timerArmed st
  /\ timedOut st' = timedOut st /\ killed st' = killed st
  /\ log st' = log st /\ promise st' = promise st
  /\ stderrRaw st' = stderrRaw st /\ stdoutRaw st' = stdoutRaw st ++ chunk.
Proof.
  cbv zeta. unfold processStdoutLines.
  destruct (pop _) as [lastPiece lines]. destruct (scanLines _ _ _).
  cbn. auto 10.
Qed.

Lemma onCloseSettled_frame (exitCode : option Z) (st : RunState) :
  let st' := onCloseSettled B options exitCode st in
  settled st' = settled st /\ timerArmed st' = timerArmed st
  /\ timedOut st' = timedOut st /\ killed st' = killed st
  /\ List.filter isTimedOutLine (log st')
     = List.filter isTimedOutLine (log st)
  /\ (promise st <> None -> promise st' = promise st).
Proof.
  cbv zeta. unfold onCloseSettled.
  destruct (0 <? len (trim (stdoutBuffer st))).
  - pose proof (processStdoutLines_keeps newline st) as Hk. cbv zeta in Hk.
    destruct (processStdoutLines B newline st) as [st1 threw].
    cbn [fst] in Hk. destruct Hk as (Hs & Ha & Ht & Hki & Hl & Hp & _).
    destruct threw.
    + rewrite Hs, Ha, Ht, Hki, Hl, Hp. auto 10.
    + rewrite <- Hs, <- Ha, <- Ht, <- Hki, <- Hl, <- Hp.
      apply classifyClose_frame.
  - apply classifyClose_frame.
Qed.

(** The promise is resolved with a message only by a close with exit
    code 0 of a run that did not time out, and only with a message that
    is not empty and is in normal form. *)
Lemma classifyClose_resolves (exitCode : option Z) (st : RunState) (m : jsstring) :
  promise st = None ->
  promise (classifyClose B options exitCode st) = Some (Ok m) ->
  exitCode = Some 0 /\ timedOut st = false /\ m <> []
  /\ exists raw, m = normalizeGeneratedMessage raw.
Proof.
  intros Hp. unfold classifyClose.
  set (st1 := if 0 <? len (trim (stderrRaw st)) then _ else st).
  assert (H1 : timedOut st1 = timedOut st /\ promise st1 = None)
    by (subst st1; destruct (0 <? len (trim (stderrRaw st))); cbn; auto).
  clearbody st1.
  set (st2 := if 0 <? len (trim (stdoutRaw st1)) then _ else st1).
  assert (H2 : timedOut st2 = timedOut st /\ promise st2 = None)
    by (destruct H1; subst st2; destruct (0 <? len (trim (stdoutRaw st1)));
        cbn; auto).
  clearbody st2. destruct H2 as [Ht Hp2]. rewrite <- Ht.
  unfold reject, withPromise. rewrite Hp2.
  destruct (timedOut st2); [discriminate |].
  destruct (bool_decide_reflect (exitCode = Some 0)) as [-> | Hne];
    cbn [negb].
  - destruct (lastAgentMessage st2) as [msg |]; [| discriminate].
    destruct (negb (truthy msg)); [discriminate |].
    destruct (normalizeGeneratedMessage msg) as [| c r] eqn:En;
      cbn [truthy negb promise]; [discriminate |].
    intros [= <-]. repeat split; [discriminate |]. eauto.
  - cbv zeta. destruct (isModelAccessError B _); discriminate.
Qed.

Lemma onCloseSettled_resolves (exitCode : option Z) (st : RunState) (m : jsstring) :
  promise st = None ->
  promise (onCloseSettled B options exitCode st) = Some (Ok m) ->
  exitCode = Some 0 /\ timedOut st = false /\ m <> []
  /\ exists raw, m = normalizeGeneratedMessage raw.
Proof.
  intros Hp. unfold onCloseSettled.
  destruct (0 <? len (trim (stdoutBuffer st))).
  - pose proof (processStdoutLines_keeps newline st) as Hk. cbv zeta in Hk.
    destruct (processStdoutLines B newline st) as [st1 threw].
    cbn [fst] in Hk. destruct Hk as (_ & _ & Ht & _ & _ & Hp1 & _).
    destruct threw; [rewrite Hp1, Hp; discriminate |].
    rewrite <- Ht. apply classifyClose_resolves. rewrite Hp1. exact Hp.
  - apply classifyClose_resolves, Hp.
Qed.

Lemma consistent_initial : consistent initialState.
Proof.
  unfold consistent. cbn. repeat split; try discriminate; try contradiction.
Qed.

Lemma consistent_step (path : jsstring) (ev : ProcEvent) (st : RunState) :
  consistent st -> consistent (step path ev st).
Proof.
  intros (Hsa & Hps & Hkt & Hta & Hlog & Hok).
  assert (Hunsettled : settled st = false -> promise st = None).
  { intros Es. destruct (promise st) eqn:Ep; [| reflexivity].
    assert (Hne : promise st <> None) by (rewrite Ep; discriminate).
    rewrite Ep in Hne. specialize (Hps Hne). congruence. }
  destruct ev as [c | c | e | code |].
  - cbn [handle]. pose proof (processStdoutLines_keeps c st) as Hk.
    cbv zeta in Hk. destruct Hk as (Hs & Ha & Ht & Hki & Hl & Hp & _).
    unfold consistent. rewrite Hs, Ha, Ht, Hki, Hl, Hp. auto 10.
  - unfold consistent. cbn. auto 10.
  - cbn [handle]. destruct (settled st) eqn:Es; [unfold consistent; auto 10 |].
    unfold onErrorSettled, reject, withPromise, consistent.
    destruct (isNotFoundError e);
      cbn [markSettled settled timerArmed timedOut killed log promise];
      rewrite (Hunsettled eq_refl); conjuncts; auto; discriminate.
  - cbn [handle]. destruct (settled st) eqn:Es; [unfold consistent; auto 10 |].
    pose proof (onCloseSettled_frame code (markSettled st)) as Hf.
    cbv zeta in Hf. destruct Hf as (Hs & Ha & Ht & Hki & Hl & _).
    cbn [markSettled settled timerArmed timedOut killed log] in Hs, Ha, Ht, Hki, Hl.
    unfold consistent. rewrite Hs, Ha, Ht, Hki, Hl. conjuncts; auto.
    intros m Hm. apply onCloseSettled_resolves in Hm; [| exact (Hunsettled eq_refl)].
    destruct Hm as (_ & Hm). exact Hm.
  - cbn [handle]. destruct (timerArmed st) eqn:Ea; [| unfold consistent; auto 10].
    assert (Hs : settled st = false)
      by (destruct (settled st); [specialize (Hsa eq_refl); discriminate | reflexivity]).
    assert (Ht : timedOut st = false)
      by (destruct (timedOut st); [specialize (Hta eq_refl); discriminate | reflexivity]).
    unfold consistent. cbn [settled timerArmed timedOut killed log promise].
    rewrite Hs. rewrite Ht in Hlog. conjuncts; auto; try discriminate.
    + rewrite List.filter_app, length_app, Hlog. reflexivity.
    + intros m Hm. rewrite (Hunsettled Hs) in Hm. discriminate.
Qed.

Lemma consistent_run (path : jsstring) (events : list ProcEvent) (st : RunState) :
  consistent st -> consistent (run path events st).
Proof.
  revert st. induction events as [| ev events IH]; intros st Hc; [exact Hc |].
  apply IH, consistent_step, Hc.
Qed.

(** Once the run is settled no handler changes the promise, the log, the
    timer or the child. *)
Lemma settled_step (path : jsstring) (ev : ProcEvent) (st : RunState) :
  consistent st -> settled st = true ->
  let st' := step path ev st in
  settled st' = true /\ promise st' = promise st /\ log st' = log st
  /\ killed st' = killed st /\ timedOut st' = timedOut st.
Proof.
  intros (Hsa & _) Hs. cbv zeta. destruct ev as [c | c | e | code |].
  - cbn [handle]. pose proof (processStdoutLines_keeps c st) as Hk.
    cbv zeta in Hk. destruct Hk as (Hs' & _ & Ht & Hki & Hl & Hp & _).
    rewrite Hs', Ht, Hki, Hl, Hp. auto.
  - cbn. auto.
  - cbn [handle]. rewrite Hs. auto.
  - cbn [handle]. rewrite Hs. auto.
  - cbn [handle]. rewrite (Hsa Hs). auto.
Qed.

Lemma settled_run (path : jsstring) (later : list ProcEvent) (st : RunState) :
  consistent st -> settled st = true ->
  let st' := run path later st in
  settled st' = true /\ promise st' = promise st /\ log st' = log st
  /\ killed st' = killed st /\ timedOut st' = timedOut st.
Proof.
  revert st. induction later as [| ev later IH]; intros st Hc Hs; [cbn; auto |].
  cbv zeta. change (run path (ev :: later) st) with (run path later (step path ev st)).
  destruct (settled_step path ev st Hc Hs) as (Hs' & Hp & Hl & Hk & Ht).
  destruct (IH _ (consistent_step path ev st Hc) Hs') as (? & Hp' & Hl' & Hk' & Ht').
  rewrite Hp', Hl', Hk', Ht', Hp, Hl, Hk, Ht. auto.
Qed.

(** X12 ([settle], [clearTimeout]).  Once a run is settled, nothing that
    happens later changes its outcome: whatever events follow, the
    promise, the log, the timer's verdict and the child are as they were
    when it settled. *)
Theorem settled_run_is_final (path : jsstring) (events later : list ProcEvent) :
  let st := run path events initialState in
  let st' := run path (events ++ later) initialState in
  settled st = true ->
  promise st' = promise st /\ log st' = log st
  /\ killed st' = killed st /\ timedOut st' = timedOut st.
Proof.
  cbv zeta. intros Hs. rewrite runEvents_app.
  apply (settled_run path later); [| exact Hs].
  apply consistent_run, consistent_initial.
Qed.

Lemma step_resolves (path : jsstring) (ev : ProcEvent) (st : RunState)
  (m : jsstring) :
  consistent st ->
  promise (step path ev st) = Some (Ok m) ->
  promise st = Some (Ok m) \/ ev = CloseEvent (Some 0).
Proof.
  intros (_ & Hps & _) Hm.
  assert (Hunsettled : settled st = false -> promise st = None).
  { intros Es. destruct (promise st) eqn:Ep; [| reflexivity].
    assert (Hne : promise st <> None) by (rewrite Ep; discriminate).
    rewrite Ep in Hne. specialize (Hps Hne). congruence. }
  destruct ev as [c | c | e | code |].
  - cbn [handle] in Hm. pose proof (processStdoutLines_keeps c st) as Hk.
    cbv zeta in Hk. destruct Hk as (_ & _ & _ & _ & _ & Hp & _).
    left. rewrite <- Hp. exact Hm.
  - left. exact Hm.
  - cbn [handle] in Hm. destruct (settled st) eqn:Es; [left; exact Hm |].
    unfold onErrorSettled, reject, withPromise in Hm.
    destruct (isNotFoundError e); cbn [markSettled promise] in Hm;
      rewrite (Hunsettled eq_refl) in Hm; discriminate.
  - cbn [handle] in Hm. destruct (settled st) eqn:Es; [left; exact Hm |].
    apply onCloseSettled_resolves in Hm; [| exact (Hunsettled eq_refl)].
    destruct Hm as [-> _]. right. reflexivity.
  - cbn [handle] in Hm. destruct (timerArmed st); left; exact Hm.
Qed.

Lemma resolved_by_close (path : jsstring) (events : list ProcEvent) (m : jsstring) :
  promise (run path events initialState) = Some (Ok m) ->
  In (CloseEvent (Some 0)) events.
Proof.
  induction events as [| ev events IH] using rev_ind; [discriminate |].
  rewrite runEvents_snoc. intros Hm. apply in_or_app.
  apply step_resolves in Hm; [| apply consistent_run, consistent_initial].
  destruct Hm as [Hm | ->]; [left; apply IH, Hm | right; left; reflexivity].
Qed.

(** X13 ([runCodexWithCommand], the [close] handler).  Whatever the child
    does, a run resolves only with a message that is not empty, is a
    single line and has no whitespace around it; and only after the child
    closed with exit code 0, in a run that did not time out and did not
    kill the child. *)
Theorem resolved_message_is_well_formed (path : jsstring)
  (events : list ProcEvent) (message : jsstring) :
  promise (run path events initialState) = Some (Ok message) ->
  message <> []
  /\ trim message = message
  /\ forallb (fun c => negb (isLF c)) message = true
  /\ In (CloseEvent (Some 0)) events
  /\ timedOut (run path events initialState) = false
  /\ killed (run path events initialState) = false.
Proof.
  intros Hm.
  destruct (consistent_run path events initialState consistent_initial)
    as (_ & _ & Hkt & _ & _ & Hok).
  destruct (Hok message Hm) as (Ht & Hne & raw & ->).
  rewrite Hkt, Ht. rewrite normalizeGeneratedMessage_spec in *.
  conjuncts; auto.
  - apply normalized_trimmed.
  - apply normalized_single_line.
  - eapply resolved_by_close. exact Hm.
Qed.

Lemma step_armed (path : jsstring) (ev : ProcEvent) (st : RunState) :
  consistent st ->
  timerArmed (step path ev st) = true ->
  timerArmed st = true /\ isOutput ev = true.
Proof.
  intros (Hsa & _) Ha. destruct ev as [c | c | e | code |].
  - cbn [handle] in Ha. pose proof (processStdoutLines_keeps c st) as Hk.
    cbv zeta in Hk. destruct Hk as (_ & Ha' & _). rewrite Ha' in Ha. auto.
  - auto.
  - cbn [handle] in Ha. destruct (settled st) eqn:Es.
    + rewrite (Hsa eq_refl) in Ha. discriminate.
    + unfold onErrorSettled, reject, withPromise in Ha.
      destruct (isNotFoundError e); cbn [markSettled timerArmed] in Ha;
        discriminate.
  - cbn [handle] in Ha. destruct (settled st) eqn:Es.
    + rewrite (Hsa eq_refl) in Ha. discriminate.
    + pose proof (onCloseSettled_frame code (markSettled st)) as Hf.
      cbv zeta in Hf. destruct Hf as (_ & Ha' & _). rewrite Ha' in Ha.
      cbn in Ha. discriminate.
  - cbn [handle] in Ha.
    destruct (timerArmed st) eqn:Ea; [cbn in Ha; discriminate | congruence].
Qed.

Lemma armed_after_output_only (path : jsstring) (events : list ProcEvent) :
  timerArmed (run path events initialState) = true ->
  forallb isOutput events = true.
Proof.
  induction events as [| ev events IH] using rev_ind; [reflexivity |].
  rewrite runEvents_snoc. intros Ha.
  apply step_armed in Ha; [| apply consistent_run, consistent_initial].
  destruct Ha as [Ha Hev]. rewrite forallb_app, (IH Ha). cbn. rewrite Hev.
  reflexivity.
Qed.

Lemma step_timedOut (path : jsstring) (ev : ProcEvent) (st : RunState) :
  timedOut (step path ev st) = true ->
  timedOut st = true \/ (ev = TimerExpires /\ timerArmed st = true).
Proof.
  intros Ht. destruct ev as [c | c | e | code |].
  - cbn [handle] in Ht. pose proof (processStdoutLines_keeps c st) as Hk.
    cbv zeta in Hk. destruct Hk as (_ & _ & Ht' & _). rewrite Ht' in Ht. auto.
  - auto.
  - cbn [handle] in Ht. destruct (settled st); [auto |].
    unfold onErrorSettled, reject, withPromise in Ht.
    destruct (isNotFoundError e); cbn [markSettled timedOut] in Ht; auto.
  - cbn [handle] in Ht. destruct (settled st); [auto |].
    pose proof (onCloseSettled_frame code (markSettled st)) as Hf.
    cbv zeta in Hf. destruct Hf as (_ & _ & Ht' & _). rewrite Ht' in Ht. auto.
  - cbn [handle] in Ht. destruct (timerArmed st); auto.
Qed.

Lemma timedOut_by_timer (path : jsstring) (events : list ProcEvent) :
  timedOut (run path events initialState) = true ->
  exists before after,
    events = before ++ TimerExpires :: after
    /\ forallb isOutput before = true.
Proof.
  induction events as [| ev events IH] using rev_ind; [discriminate |].
  rewrite runEvents_snoc. intros Ht.
  apply step_timedOut in Ht as [Ht | [-> Ha]].
  - destruct (IH Ht) as (before & after & -> & Hb).
    exists before, (after ++ [ev]). split; [| exact Hb].
    rewrite <- app_assoc. reflexivity.
  - exists events, []. split; [reflexivity |].
    apply (armed_after_output_only path), Ha.
Qed.

(** X14 (the timeout of [runCodexWithCommand]).  Whatever the child does,
    it is killed exactly when the run has timed out, the time-out is
    logged at most once, and the timer that killed it expired before any
    [error] or [close] event: only writes of the child came before. *)
Theorem child_is_killed_by_the_timer (path : jsstring) (events : list ProcEvent) :
  let st := run path events initialState in
  killed st = timedOut st
  /\ (length (List.filter isTimedOutLine (log st)) <= 1)%nat
  /\ (killed st = true ->
      exists before after,
        events = before ++ TimerExpires :: after
        /\ forallb isOutput before = true).
Proof.
  cbv zeta.
  destruct (consistent_run path events initialState consistent_initial)
    as (_ & _ & Hkt & _ & Hlog & _).
  split; [exact Hkt |]. split.
  - rewrite Hlog. destruct (timedOut _); lia.
  - rewrite Hkt. apply timedOut_by_timer.
Qed.

Lemma unsettled_run (path : jsstring) (events : list ProcEvent) (st : RunState) :
  forallb (fun ev => negb (settles ev)) events = true ->
  settled (run path events st) = settled st
  /\ promise (run path events st) = promise st.
Proof.
  revert st. induction events as [| ev events IH]; intros st Hev; [auto |].
  cbn [forallb] in Hev. apply andb_prop in Hev as [Hn Hev].
  change (run path (ev :: events) st) with (run path events (step path ev st)).
  destruct (IH (step path ev st) Hev) as [-> ->].
  destruct ev as [c | c | e | code |]; try discriminate.
  - cbn [handle]. pose proof (processStdoutLines_keeps c st) as Hk.
    cbv zeta in Hk. destruct Hk as (Hs & _ & _ & _ & _ & Hp & _). auto.
  - auto.
  - cbn [handle]. destruct (timerArmed st); auto.
Qed.

(** X15 (the [error] handler of [runCodexWithCommand]).  When the process
    reports an error before it closes, the run is rejected with the
    classification of that error ([not-found] for the codes that mean a
    missing executable, [process-failed] otherwise), whatever the child
    wrote before, whether or not the timer expired before, and whatever
    follows, the [close] event included. *)
Theorem launch_error_decides (path : jsstring) (before after : list ProcEvent)
  (e : Errno) :
  forallb (fun ev => negb (settles ev)) before = true ->
  promise (run path (before ++ ErrorEvent e :: after) initialState)
    = Some (Err (Codex (launchError isNotFoundError path e))).
Proof.
  intros Hb. rewrite runEvents_app.
  change (run path (ErrorEvent e :: after) (run path before initialState))
    with (run path after
            (step path (ErrorEvent e) (run path before initialState))).
  destruct (unsettled_run path before initialState Hb) as [Hs Hp].
  set (st0 := run path before initialState) in *.
  assert (Hc : consistent (step path (ErrorEvent e) st0))
    by (apply consistent_step, consistent_run, consistent_initial).
  assert (Hstep : settled (step path (ErrorEvent e) st0) = true
                  /\ promise (step path (ErrorEvent e) st0)
                     = Some (Err (Codex (launchError isNotFoundError path e)))).
  { cbn [handle]. rewrite Hs. cbn [initialState settled].
    unfold onErrorSettled, launchError, reject, withPromise.
    cbn [markSettled promise settled]. rewrite Hp. cbn [initialState promise].
    destruct (isNotFoundError e); auto. }
  destruct Hstep as [Hs1 Hp1].
  destruct (settled_run path after _ Hc Hs1) as (_ & -> & _). exact Hp1.
Qed.

Lemma outputs_raw (path : jsstring) (events : list ProcEvent) (st : RunState) :
  forallb isOutput events = true ->
  stdoutRaw (run path events st) = stdoutRaw st ++ stdoutOf events
  /\ stderrRaw (run path events st) = stderrRaw st ++ stderrOf events.
Proof.
  revert st. induction events as [| ev events IH]; intros st Ho.
  - cbn. rewrite !app_nil_r. auto.
  - cbn [forallb] in Ho. apply andb_prop in Ho as [Hev Ho].
    change (run path (ev :: events) st) with (run path events (step path ev st)).
    destruct (IH (step path ev st) Ho) as [-> ->].
    destruct ev as [c | c | e | code |]; try discriminate.
    + change (stdoutOf (StdoutData c :: events)) with (c ++ stdoutOf events).
      change (stderrOf (StdoutData c :: events)) with (stderrOf events).
      cbn [handle]. pose proof (processStdoutLines_keeps c st) as Hk.
      cbv zeta in Hk. destruct Hk as (_ & _ & _ & _ & _ & _ & -> & ->).
      rewrite <- app_assoc. auto.
    + change (stdoutOf (StderrData c :: events)) with (stdoutOf events).
      change (stderrOf (StderrData c :: events)) with (c ++ stderrOf events).
      cbn [handle stdoutRaw stderrRaw]. rewrite <- app_assoc. auto.
Qed.

(** The flush of the close handler, after a stream without [null] was
    read, with what it leaves in the raw outputs. *)
Lemma flush_state (st : RunState) (T : jsstring) (exitCode : option Z) :
  reading B st T ->
  noNull (streamEvents B T) ->
  exists st1,
    onCloseSettled B options exitCode (markSettled st)
      = classifyClose B options exitCode st1
    /\ lastAgentMessage st1 = lastCompletedAgentMessage B T
    /\ timedOut st1 = timedOut st
    /\ promise st1 = None
    /\ stderrRaw st1 = stderrRaw st
    /\ stdoutRaw st1
       = stdoutRaw st
         ++ (if 0 <? len (trim (unterminatedLine T)) then newline else []).
Proof.
  intros (b & ls & Hpop & Hbuf & Hlast & Hs & Hp & Hu) Hnn.
  pose proof (pop_inv _ _ _ Hpop) as Hsl.
  pose proof (last_piece_single T b ls Hpop) as Hpiece.
  unfold unterminatedLine. rewrite Hpop. cbn [fst].
  unfold lastCompletedAgentMessage, streamEvents in *. rewrite Hsl in *.
  rewrite eventsOfLines_app in *. apply Forall_app in Hnn as [_ Hnb].
  rewrite omap_app, last_app, <- Hlast.
  unfold onCloseSettled.
  change (stdoutBuffer (markSettled st)) with (stdoutBuffer st). rewrite Hbuf.
  destruct (0 <? len (trim b)) eqn:Eb.
  - destruct (splitLines_flush b Hpiece) as (b' & Hfl & Hcase).
    assert (Htrim : trim b' = trim b).
    { destruct Hcase as [-> | ->]; [reflexivity |].
      symmetry. apply trim_snoc_ws. reflexivity. }
    unfold processStdoutLines.
    change (stdoutBuffer (markSettled st)) with (stdoutBuffer st).
    rewrite Hbuf, Hfl. cbn [pop].
    change (lastAgentMessage (markSettled st)) with (lastAgentMessage st).
    rewrite <- (eventsOfLines_trim B b b' Htrim) in Hnb |- *.
    rewrite (scanLines_spec B [b'] _ Hnb).
    eexists. split; [reflexivity |]. cbn. auto 10.
  - exists (markSettled st). split; [reflexivity |].
    assert (Hev : eventsOfLines B [b] = []).
    { unfold eventsOfLines. simpl. rewrite truthy_len, Eb. reflexivity. }
    rewrite Hev. cbn. rewrite app_nil_r. auto 10.
Qed.

(** The outcome [classifyClose] settles a run with that did not time
    out. *)
Lemma classifyClose_outcome (exitCode : option Z) (st : RunState) :
  timedOut st = false -> promise st = None ->
  promise (classifyClose B options exitCode st)
    = Some
        (if negb (bool_decide (exitCode = Some 0)) then
           Err (Codex (exitError B options exitCode
                         (stderrRaw st ++ newline ++ stdoutRaw st)))
         else
           match lastAgentMessage st with
           | Some (c :: msg) =>
               if truthy (normalizeGeneratedMessage (c :: msg))
               then Ok (normalizeGeneratedMessage (c :: msg))
               else Err (Codex
                      {| code := empty_response;
                         message :=
                           lit "Generated message is empty after normalization.";
                         details := None |})
           | _ =>
               Err (Codex
                      {| code := parse_failed;
                         message :=
                           lit "No agent message was found in Codex JSON output.";
                         details := None |})
           end).
Proof.
  intros Ht Hp. unfold classifyClose.
  set (st1 := if 0 <? len (trim (stderrRaw st)) then _ else st).
  assert (H1 : timedOut st1 = false /\ promise st1 = None
               /\ lastAgentMessage st1 = lastAgentMessage st
               /\ stderrRaw st1 = stderrRaw st /\ stdoutRaw st1 = stdoutRaw st)
    by (subst st1; destruct (0 <? len (trim (stderrRaw st))); cbn; auto).
  clearbody st1.
  set (st2 := if 0 <? len (trim (stdoutRaw st1)) then _ else st1).
  assert (H2 : timedOut st2 = false /\ promise st2 = None
               /\ lastAgentMessage st2 = lastAgentMessage st
               /\ stderrRaw st2 = stderrRaw st /\ stdoutRaw st2 = stdoutRaw st)
    by (destruct H1 as (? & ? & ? & ? & ?); subst st2;
        destruct (0 <? len (trim (stdoutRaw st1))); cbn; auto).
  clearbody st2. destruct H2 as (Ht2 & Hp2 & Hl2 & He2 & Ho2).
  rewrite Ht2, Hl2, He2, Ho2. unfold reject, withPromise, exitError.
  rewrite Hp2. cbv zeta.
  destruct (negb (bool_decide (exitCode = Some 0))).
  - destruct (isModelAccessError B _); reflexivity.
  - destruct (lastAgentMessage st) as [[| c msg] |]; cbn [truthy negb promise];
      try reflexivity.
    destruct (normalizeGeneratedMessage (c :: msg)); reflexivity.
Qed.

(** A run in which the child only writes and then closes. *)
Lemma run_to_close (path : jsstring) (outs after : list ProcEvent)
  (exitCode : option Z) :
  forallb isOutput outs = true ->
  noNull (streamEvents B (stdoutOf outs)) ->
  exists st1,
    promise (run path (outs ++ CloseEvent exitCode :: after) initialState)
      = promise (classifyClose B options exitCode st1)
    /\ lastAgentMessage st1 = lastCompletedAgentMessage B (stdoutOf outs)
    /\ timedOut st1 = false
    /\ promise st1 = None
    /\ stderrRaw st1 = stderrOf outs
    /\ stdoutRaw st1 = flushedStdout (stdoutOf outs).
Proof.
  intros Ho Hnn. rewrite runEvents_app.
  change (run path (CloseEvent exitCode :: after) (run path outs initialState))
    with (run path after
            (step path (CloseEvent exitCode) (run path outs initialState))).
  set (st0 := run path outs initialState).
  assert (Hr : reading B st0 ([] ++ stdoutOf outs))
    by (apply reading_runEvents; [apply reading_initial | exact Ho | exact Hnn]).
  cbn [app] in Hr.
  assert (Hc : consistent (step path (CloseEvent exitCode) st0))
    by (apply consistent_step, consistent_run, consistent_initial).
  destruct (outputs_frame B isNotFoundError options outs initialState path Ho)
    as [Ht0 _]. fold st0 in Ht0. cbn in Ht0.
  destruct (outputs_raw path outs initialState Ho) as [Hout Herr].
  fold st0 in Hout, Herr. cbn [initialState stdoutRaw stderrRaw app] in Hout, Herr.
  destruct (flush_state st0 (stdoutOf outs) exitCode Hr Hnn)
    as (st1 & Hflush & Hl & Ht & Hp & He & Hraw).
  assert (Hs0 : settled st0 = false) by (destruct Hr as (? & ? & ? & ? & ? & ? & ?); tauto).
  assert (Hstep : step path (CloseEvent exitCode) st0
                  = classifyClose B options exitCode st1)
    by (cbn [handle]; rewrite Hs0; exact Hflush).
  assert (Hs1 : settled (step path (CloseEvent exitCode) st0) = true).
  { cbn [handle]. rewrite Hs0.
    destruct (onCloseSettled_frame exitCode (markSettled st0)) as (-> & _).
    reflexivity. }
  exists st1.
  destruct (settled_run path after _ Hc Hs1) as (_ & -> & _).
  rewrite Hstep. conjuncts; auto; try congruence.
  rewrite Hraw, Hout. unfold flushedStdout.
  destruct (0 <? len (trim (unterminatedLine (stdoutOf outs))));
    [reflexivity | apply app_nil_r].
Qed.

(** X16 (the [close] handler of [runCodexWithCommand], exit codes).  A
    child that wrote its output and closed with an exit code other than 0,
    or was ended by a signal, fails the run, also when it completed an
    agent message before: with [model-access] when its output, the
    standard error first, has one of the two phrases of a missing model
    permission, with [process-failed] otherwise.  The details of the error
    are the end of that output, 4000 characters at most. *)
Theorem failed_exit_is_classified (path : jsstring) (outs after : list ProcEvent)
  (exitCode : option Z) :
  forallb isOutput outs = true ->
  noNull (streamEvents B (stdoutOf outs)) ->
  exitCode <> Some 0 ->
  let combined :=
    stderrOf outs ++ newline ++ flushedStdout (stdoutOf outs) in
  promise (run path (outs ++ CloseEvent exitCode :: after) initialState)
    = Some (Err (Codex (exitError B options exitCode combined)))
  /\ details (exitError B options exitCode combined)
     = Some (tail combined 4000)
  /\ len (tail combined 4000) <= 4000.
Proof.
  intros Ho Hnn Hcode. cbv zeta.
  destruct (run_to_close path outs after exitCode Ho Hnn)
    as (st1 & -> & _ & Ht & Hp & He & Hraw).
  rewrite (classifyClose_outcome exitCode st1 Ht Hp), He, Hraw.
  rewrite bool_decide_eq_false_2 by exact Hcode. cbn [negb].
  split; [reflexivity |]. split.
  - unfold exitError. destruct (isModelAccessError B _); reflexivity.
  - unfold tail.
    set (combined := stderrOf outs ++ newline ++ flushedStdout (stdoutOf outs)).
    pose proof (len_nonneg combined) as Hn.
    destruct (len combined <=? 4000) eqn:E; [apply Z.leb_le, E |].
    apply Z.leb_gt in E. unfold sliceFrom, slice, clampIndex.
    destruct (len combined - 4000 <? 0) eqn:E1; [apply Z.ltb_lt in E1; lia |].
    destruct (len combined <? 0) eqn:E2; [apply Z.ltb_lt in E2; lia |].
    unfold len at 1. rewrite length_take. lia.
Qed.

(** X17 (the [close] handler of [runCodexWithCommand], exit code 0).  A
    child that closed with exit code 0 without a completed agent message
    in its output, or with one whose text is empty, fails the run with
    [parse-failed]; one whose last completed agent message has a text
    that normalizes to the empty string fails it with [empty-response]. *)
Theorem exit_without_message_fails (path : jsstring)
  (outs after : list ProcEvent) :
  forallb isOutput outs = true ->
  noNull (streamEvents B (stdoutOf outs)) ->
  let outcome :=
    promise (run path (outs ++ CloseEvent (Some 0) :: after) initialState) in
  (lastCompletedAgentMessage B (stdoutOf outs) = None
   \/ lastCompletedAgentMessage B (stdoutOf outs) = Some [] ->
   outcome
   = Some (Err (Codex
        {| code := parse_failed;
           message := lit "No agent message was found in Codex JSON output.";
           details := None |})))
  /\ (forall text,
        lastCompletedAgentMessage B (stdoutOf outs) = Some text ->
        text <> [] ->
        normalizeGeneratedMessage text = [] ->
        outcome
        = Some (Err (Codex
             {| code := empty_response;
                message :=
                  lit "Generated message is empty after normalization.";
                details := None |}))).
Proof.
  intros Ho Hnn. cbv zeta.
  destruct (run_to_close path outs after (Some 0) Ho Hnn)
    as (st1 & -> & Hl & Ht & Hp & _).
  rewrite (classifyClose_outcome (Some 0) st1 Ht Hp), Hl.
  rewrite bool_decide_eq_true_2 by reflexivity. cbn [negb].
  split.
  - intros [-> | ->]; reflexivity.
  - intros text -> Hne Hnorm. destruct text as [| c text]; [contradiction |].
    rewrite Hnorm. reflexivity.
Qed.

End RunFacts.

(** A process that cannot be started reports an error and then closes;
    a timer that would expire later finds the run settled. *)
Lemma settled_run_is_final_witness :
  let run := CodexCli.runEvents asciiBuiltins CodexCli.isENOENT exampleOptions
               (lit "codex") in
  let events := [CodexCli.ErrorEvent enoent] in
  let later := [CodexCli.CloseEvent (Some (-2)); CodexCli.TimerExpires] in
  CodexCli.settled (run events CodexCli.initialState) = true
  /\ CodexCli.promise (run (events ++ later) CodexCli.initialState)
     = CodexCli.promise (run events CodexCli.initialState)
  /\ CodexCli.log (run (events ++ later) CodexCli.initialState)
     = CodexCli.log (run events CodexCli.initialState)
  /\ CodexCli.killed (run (events ++ later) CodexCli.initialState)
     = CodexCli.killed (run events CodexCli.initialState)
  /\ CodexCli.timedOut (run (events ++ later) CodexCli.initialState)
     = CodexCli.timedOut (run events CodexCli.initialState).
Proof.
  cbv zeta. split; [reflexivity |].
  apply (settled_run_is_final asciiBuiltins CodexCli.isENOENT exampleOptions
           (lit "codex") [CodexCli.ErrorEvent enoent]
           [CodexCli.CloseEvent (Some (-2)); CodexCli.TimerExpires]).
  reflexivity.
Defined.

Lemma resolved_message_is_well_formed_witness :
  let events := [CodexCli.StdoutData agentMessageLine;
                 CodexCli.CloseEvent (Some 0)] in
  let final := CodexCli.runEvents asciiBuiltins CodexCli.isENOENT exampleOptions
                 (lit "codex") events CodexCli.initialState in
  CodexCli.promise final = Some (Ok (lit "fix: bar"))
  /\ lit "fix: bar" <> []
  /\ trim (lit "fix: bar") = lit "fix: bar"
  /\ forallb (fun c => negb (isLF c)) (lit "fix: bar") = true
  /\ In (CodexCli.CloseEvent (Some 0)) events
  /\ CodexCli.timedOut final = false
  /\ CodexCli.killed final = false.
Proof.
  cbv zeta. split; [vm_compute; reflexivity |].
  apply (resolved_message_is_well_formed asciiBuiltins CodexCli.isENOENT
           exampleOptions (lit "codex")
           [CodexCli.StdoutData agentMessageLine; CodexCli.CloseEvent (Some 0)]).
  vm_compute. reflexivity.
Defined.

Lemma launch_error_decides_witness :
  let before := [CodexCli.StderrData (lit "spawn"); CodexCli.TimerExpires] in
  let after := [CodexCli.CloseEvent (Some (-2))] in
  forallb (fun ev => negb (ProcessOutput.settles ev)) before = true
  /\ CodexCli.promise
       (CodexCli.runEvents asciiBuiltins CodexCliCandidates.isNotFoundLikeSpawnError
          exampleOptions (lit "codex")
          (before ++ CodexCli.ErrorEvent enoent :: after) CodexCli.initialState)
     = Some (Err (CodexCli.Codex
          (ProcessOutput.launchError CodexCliCandidates.isNotFoundLikeSpawnError
             (lit "codex") enoent))).
Proof.
  cbv zeta. split; [reflexivity |].
  apply (launch_error_decides asciiBuiltins
           CodexCliCandidates.isNotFoundLikeSpawnError exampleOptions
           (lit "codex")
           [CodexCli.StderrData (lit "spawn"); CodexCli.TimerExpires]
           [CodexCli.CloseEvent (Some (-2))] enoent).
  reflexivity.
Defined.

(** A child that completed an agent message and then failed for a missing
    permission on the model. *)
Lemma failed_exit_is_classified_witness :
  let outs :=
    [CodexCli.StdoutData agentMessageLine;
     CodexCli.StderrData
       (lit "The model does not exist or you do not have access to it.")] in
  let combined :=
    ProcessOutput.stderrOf outs ++ newline
    ++ ProcessOutput.flushedStdout (GeneratedMessageSpec.stdoutOf outs) in
  forallb GeneratedMessageSpec.isOutput outs = true
  /\ GeneratedMessageSpec.noNull
       (GeneratedMessageSpec.streamEvents asciiBuiltins
          (GeneratedMessageSpec.stdoutOf outs))
  /\ Some 1 <> Some 0
  /\ CodexCli.promise
       (CodexCli.runEvents asciiBuiltins CodexCli.isENOENT exampleOptions
          (lit "codex") (outs ++ CodexCli.CloseEvent (Some 1) :: [])
          CodexCli.initialState)
     = Some (Err (CodexCli.Codex
          (ProcessOutput.exitError asciiBuiltins exampleOptions (Some 1) combined)))
  /\ CodexCli.code
       (ProcessOutput.exitError asciiBuiltins exampleOptions (Some 1) combined)
     = CodexCli.model_access.
Proof.
  cbv zeta.
  assert (Hnn : GeneratedMessageSpec.noNull
                  (GeneratedMessageSpec.streamEvents asciiBuiltins
                     (GeneratedMessageSpec.stdoutOf
                        [CodexCli.StdoutData agentMessageLine;
                         CodexCli.StderrData
                           (lit "The model does not exist or you do not have access to it.")])))
    by (vm_compute; repeat constructor; discriminate).
  split; [reflexivity |]. split; [exact Hnn |]. split; [discriminate |].
  split; [| vm_compute; reflexivity].
  apply (failed_exit_is_classified asciiBuiltins CodexCli.isENOENT
           exampleOptions (lit "codex")
           [CodexCli.StdoutData agentMessageLine;
            CodexCli.StderrData
              (lit "The model does not exist or you do not have access to it.")]
           [] (Some 1) eq_refl Hnn).
  discriminate.
Defined.

(** A child that wrote events, none of them an agent message, and closed
    with exit code 0. *)
Lemma exit_without_message_fails_witness :
  let outs :=
    [CodexCli.StdoutData (jsonText "{'type':'turn.completed'}" ++ newline)] in
  forallb GeneratedMessageSpec.isOutput outs = true
  /\ GeneratedMessageSpec.noNull
       (GeneratedMessageSpec.streamEvents asciiBuiltins
          (GeneratedMessageSpec.stdoutOf outs))
  /\ GeneratedMessageSpec.lastCompletedAgentMessage asciiBuiltins
       (GeneratedMessageSpec.stdoutOf outs) = None
  /\ CodexCli.promise
       (CodexCli.runEvents asciiBuiltins CodexCli.isENOENT exampleOptions
          (lit "codex") (outs ++ CodexCli.CloseEvent (Some 0) :: [])
          CodexCli.initialState)
     = Some (Err (CodexCli.Codex
          {| CodexCli.code := CodexCli.parse_failed;
             CodexCli.message :=
               lit "No agent message was found in Codex JSON output.";
             CodexCli.details := None |})).
Proof.
  cbv zeta.
  assert (Hnn : GeneratedMessageSpec.noNull
                  (GeneratedMessageSpec.streamEvents asciiBuiltins
                     (GeneratedMessageSpec.stdoutOf
                        [CodexCli.StdoutData
                           (jsonText "{'type':'turn.completed'}" ++ newline)])))
    by (vm_compute; repeat constructor; discriminate).
  split; [reflexivity |]. split; [exact Hnn |]. split; [reflexivity |].
  apply (exit_without_message_fails asciiBuiltins CodexCli.isENOENT
           exampleOptions (lit "codex")
           [CodexCli.StdoutData
              (jsonText "{'type':'turn.completed'}" ++ newline)]
           [] eq_refl Hnn).
  left. reflexivity.
Defined.

(** A child that completed an agent message in time, was killed by the
    timer while it went on writing, and closed with exit code 0. *)
Lemma timeout_rejects_witness :
  let before := [CodexCli.StdoutData agentMessageLine] in
  let after := [CodexCli.StderrData (lit "interrupted")] in
  forallb GeneratedMessageSpec.isOutput before = true
  /\ forallb GeneratedMessageSpec.isOutput after = true
  /\ GeneratedMessageSpec.noNull
       (GeneratedMessageSpec.streamEvents asciiBuiltins
          (GeneratedMessageSpec.stdoutOf before
           ++ GeneratedMessageSpec.stdoutOf after))
  /\ exists e,
       CodexCli.promise
         (CodexCli.runEvents asciiBuiltins CodexCli.isENOENT exampleOptions
            (lit "codex")
            (before ++ CodexCli.TimerExpires
               :: after ++ [CodexCli.CloseEvent (Some 0)])
            CodexCli.initialState)
       = Some (Err (CodexCli.Codex e))
       /\ CodexCli.code e = CodexCli.timeout.
Proof.
  cbv zeta.
  assert (Hnn : GeneratedMessageSpec.noNull
                  (GeneratedMessageSpec.streamEvents asciiBuiltins
                     (GeneratedMessageSpec.stdoutOf
                        [CodexCli.StdoutData agentMessageLine]
                      ++ GeneratedMessageSpec.stdoutOf
                           [CodexCli.StderrData (lit "interrupted")])))
    by (vm_compute; repeat constructor; discriminate).
  split; [reflexivity |]. split; [reflexivity |]. split; [exact Hnn |].
  exact (timeout_rejects asciiBuiltins CodexCli.isENOENT exampleOptions
           [CodexCli.StdoutData agentMessageLine]
           [CodexCli.StderrData (lit "interrupted")] (Some 0) (lit "codex")
           eq_refl eq_refl Hnn).
Defined.
